(** * Ferry timetable front end: route grouping and sailing duration

    A shallow embedding of [src/lib/utils.ts] ([groupRoutesByPath],
    [calculateDuration]) and of the derived flag of the [RouteGroup]
    component, with the properties the specification states about them. *)

From Stdlib Require Import List String Ascii ZArith Lia Bool.
From Stdlib Require Import Permutation Sorted DecimalString.
Import ListNotations.

Open Scope string_scope.
Open Scope Z_scope.

(** ** Strings

    A string is the sequence of the bytes of its UTF-8 encoding.  Every
    character the code looks for (the colon, the digits, the hyphen of the
    route key) is ASCII, and no byte of a multi-byte UTF-8 sequence is an
    ASCII byte, so splitting, stripping and comparing for equality agree
    with the same operations on UTF-16 code units. *)

Module Str.

(** The class [\d] of a regular expression without the unicode flag. *)
Definition isDigit (c : ascii) : bool :=
  let n := N_of_ascii c in ((48 <=? n) && (n <=? 57))%N.

Definition digitValue (c : ascii) : Z := Z.of_N (N_of_ascii c) - 48.

Fixpoint all (p : ascii -> bool) (s : string) : bool :=
  match s with
  | EmptyString => true
  | String c s' => p c && all p s'
  end.

Fixpoint any (p : ascii -> bool) (s : string) : bool :=
  match s with
  | EmptyString => false
  | String c s' => p c || any p s'
  end.

Fixpoint filter (p : ascii -> bool) (s : string) : string :=
  match s with
  | EmptyString => EmptyString
  | String c s' => if p c then String c (filter p s') else filter p s'
  end.

(** [s.split(sep)] for a one-character separator: the pieces between the
    separators, at least one piece. *)
Fixpoint split (sep : ascii) (s : string) : list string :=
  match s with
  | EmptyString => [EmptyString]
  | String c s' =>
      if Ascii.eqb c sep then EmptyString :: split sep s'
      else match split sep s' with
           | p :: ps => String c p :: ps
           | [] => [String c EmptyString]
           end
  end.

(** [s.replace(c, '')] with a string pattern: only the first occurrence
    is removed. *)
Fixpoint removeFirst (c : ascii) (s : string) : string :=
  match s with
  | EmptyString => EmptyString
  | String d s' => if Ascii.eqb d c then s' else String d (removeFirst c s')
  end.

(** [s.replace(/[^\d]/g, '')]: every character that is not a digit is
    removed. *)
Definition stripNonDigits (s : string) : string := filter isDigit s.

(** The value of a string of decimal digits, most significant first. *)
Fixpoint decimalFrom (acc : Z) (s : string) : Z :=
  match s with
  | EmptyString => acc
  | String c s' => decimalFrom (acc * 10 + digitValue c) s'
  end.

Definition decimal (s : string) : Z := decimalFrom 0 s.

End Str.

(** ** Numbers

    A JavaScript number is a double.  Every number this code computes is an
    integer, [Infinity] (the initial [minPrice]) or [NaN]; a double holds an
    integer exactly when its magnitude is at most 2^53. *)

Inductive number : Type :=
| Num (z : Z)
| Infinity
| NaN.

Definition maxExact : Z := 2 ^ 53.

(** The double nearest to an integer, ties to even; integers of magnitude
    2^1024 and more round to [Infinity]. *)
Definition toDouble (z : Z) : number :=
  if z <? maxExact then Num z
  else
    let e := Z.log2 z - 52 in
    let q := Z.shiftr z e in
    let r := z - Z.shiftl q e in
    let half := Z.shiftl 1 (e - 1) in
    let q' := if r <? half then q
              else if half <? r then q + 1
              else if Z.even q then q else q + 1 in
    let v := Z.shiftl q' e in
    if 2 ^ 1024 <=? v then Infinity else Num v.

(** The whole number [toDouble] rounds an integer of 2^53 or more to. *)
Definition rounded (z : Z) : Z :=
  let e := Z.log2 z - 52 in
  let q := Z.shiftr z e in
  let r := z - Z.shiftl q e in
  let half := Z.shiftl 1 (e - 1) in
  let q' := if r <? half then q
            else if half <? r then q + 1
            else if Z.even q then q else q + 1 in
  Z.shiftl q' e.

(** [a < b] on numbers: false as soon as one side is [NaN]. *)
Definition lessThan (a b : number) : bool :=
  match a, b with
  | Num x, Num y => x <? y
  | Num _, Infinity => true
  | _, _ => false
  end.

(** Conversion of a number to a string, as a template literal does it: the
    decimal digits of an integer (of magnitude below 10^21), with its sign. *)
Definition toString (n : number) : string :=
  match n with
  | Num z => NilZero.string_of_int (Z.to_int z)
  | Infinity => "Infinity"
  | NaN => "NaN"
  end.

(** ** Outcomes of a run

    [Done v]: the code returns [v].  [Throw]: the code throws.  [Beyond]:
    the run leaves the part of the language this development gives a
    meaning to (a numeric literal that is not a plain decimal integer, an
    integer a double cannot hold exactly); nothing is stated about such a
    run. *)

Inductive outcome (A : Type) : Type :=
| Done (a : A)
| Throw
| Beyond.

Arguments Done {A} a.
Arguments Throw {A}.
Arguments Beyond {A}.

Definition bind {A B : Type} (m : outcome A) (k : A -> outcome B) : outcome B :=
  match m with
  | Done a => k a
  | Throw => Throw
  | Beyond => Beyond
  end.

Notation "x <- m ;; k" := (bind m (fun x => k))
  (at level 61, m at next level, right associativity).

Fixpoint mapM {A B : Type} (f : A -> outcome B) (l : list A) : outcome (list B) :=
  match l with
  | [] => Done []
  | a :: l' => b <- f a ;; bs <- mapM f l' ;; Done (b :: bs)
  end.

(** [try { body } catch { handler }]. *)
Definition tryCatch {A : Type} (body : outcome A) (handler : outcome A) : outcome A :=
  match body with
  | Throw => handler
  | other => other
  end.

(** An integer result of an arithmetic operation, kept when a double holds
    it exactly. *)
Definition exact (z : Z) : outcome number :=
  if Z.abs z <? maxExact then Done (Num z) else Beyond.

(** An arithmetic operator on doubles that hold integers: the integer
    result; [NaN] as soon as one operand is [NaN]. *)
Definition arith (f : Z -> Z -> Z) (a b : number) : outcome number :=
  match a, b with
  | NaN, _ | _, NaN => Done NaN
  | Num x, Num y => exact (f x y)
  | _, _ => Beyond
  end.

Definition times : number -> number -> outcome number := arith Z.mul.
Definition plus : number -> number -> outcome number := arith Z.add.
Definition minus : number -> number -> outcome number := arith Z.sub.

(** [Math.floor(a / b)] for a divisor other than zero: below 2^53 the
    rounding of the quotient to a double never reaches the next integer, so
    the floor is the one of the exact quotient. *)
Definition floorDiv (a b : number) : outcome number :=
  match b with
  | Num 0 => Beyond
  | _ => arith Z.div a b
  end.

(** [a % b]: the remainder has the sign of the dividend (a negative zero
    prints as ["0"], like zero). *)
Definition remainder (a b : number) : outcome number :=
  match b with
  | Num 0 => Beyond
  | _ => arith Z.rem a b
  end.

(** ** Values passed where a string is expected

    The declared type of a time is [string]; a row that lacks the field
    carries [undefined] at run time. *)

Inductive jsvalue : Type :=
| Undefined
| Text (s : string).

(** [v.split(':')]: a method call on [undefined] throws a TypeError. *)
Definition splitMethod (v : jsvalue) (sep : ascii) : outcome (list string) :=
  match v with
  | Undefined => Throw
  | Text s => Done (Str.split sep s)
  end.

(** *** [Number] of a string

    [Number(s)] removes the white space and the line terminators at both
    ends of [s] and reads what is left as a numeric literal: nothing left
    is 0, and what is no literal is [NaN]. *)

(** One white-space character or line terminator at the head of a string,
    removed.  In UTF-8: TAB, LF, VT, FF, CR and the space; U+00A0 (C2 A0);
    U+1680 (E1 9A 80); U+2000 to U+200A, U+2028, U+2029 and U+202F
    (E2 80 80..8A, A8, A9, AF); U+205F (E2 81 9F); U+3000 (E3 80 80);
    U+FEFF (EF BB BF). *)
Definition whiteSpaceHead (s : string) : option string :=
  match s with
  | EmptyString => None
  | String a r1 =>
      let x := N_of_ascii a in
      if (x <? 128)%N
      then if (((9 <=? x) && (x <=? 13)) || (x =? 32))%N then Some r1 else None
      else
        match r1 with
        | EmptyString => None
        | String b r2 =>
            let y := N_of_ascii b in
            if ((x =? 194) && (y =? 160))%N then Some r2
            else
              match r2 with
              | EmptyString => None
              | String c r3 =>
                  let z := N_of_ascii c in
                  if (((x =? 225) && (y =? 154) && (z =? 128))
                      || ((x =? 226) && (y =? 128)
                          && (((128 <=? z) && (z <=? 138))
                              || (z =? 168) || (z =? 169) || (z =? 175)))
                      || ((x =? 226) && (y =? 129) && (z =? 159))
                      || ((x =? 227) && (y =? 128) && (z =? 128))
                      || ((x =? 239) && (y =? 187) && (z =? 191)))%N
                  then Some r3 else None
              end
        end
  end.

(** The white space at the head removed, in at most [n] steps. *)
Fixpoint trimStartWithin (n : nat) (s : string) : string :=
  match n with
  | O => s
  | S n' =>
      match whiteSpaceHead s with
      | Some rest => trimStartWithin n' rest
      | None => s
      end
  end.

Definition trimStart (s : string) : string := trimStartWithin (String.length s) s.

(** A string of white space only. *)
Definition isBlank (s : string) : bool := String.eqb (trimStart s) "".

(** The white space at the end removed: the string is kept up to the point
    from which only white space follows. *)
Fixpoint trimEnd (s : string) : string :=
  match s with
  | EmptyString => EmptyString
  | String c s' => if isBlank s then EmptyString else String c (trimEnd s')
  end.

Definition trim (s : string) : string := trimEnd (trimStart s).

(** One or more decimal digits. *)
Definition someDigits (s : string) : bool :=
  negb (String.eqb s "") && Str.all Str.isDigit s.

(** A string without its sign, when it starts with one. *)
Definition unsigned (s : string) : string :=
  match s with
  | String "+" u => u
  | String "-" u => u
  | _ => s
  end.

(** The value of a decimal integer literal, with or without a sign. *)
Definition integerLiteral (t : string) : option Z :=
  if someDigits (unsigned t)
  then Some (match t with
             | String "-" u => - Str.decimal u
             | _ => Str.decimal (unsigned t)
             end)
  else None.

(** A literal cut at its exponent sign: what stands before the first [e]
    or [E], and what follows it. *)
Fixpoint splitExponent (s : string) : string * option string :=
  match s with
  | EmptyString => (EmptyString, None)
  | String c s' =>
      if Ascii.eqb c "e" || Ascii.eqb c "E" then (EmptyString, Some s')
      else let (m, x) := splitExponent s' in (String c m, x)
  end.

(** [StrUnsignedDecimalLiteral]: [Infinity], or digits with at most one
    dot and a digit on one side of it at least, then an exponent or none. *)
Definition unsignedDecimalLiteral (u : string) : bool :=
  String.eqb u "Infinity"
  || (let (mantissa, exponent) := splitExponent u in
      match Str.split "." mantissa with
      | [d] => someDigits d
      | [d1; d2] =>
          Str.all Str.isDigit d1 && Str.all Str.isDigit d2
          && negb (String.eqb d1 "" && String.eqb d2 "")
      | _ => false
      end
      && match exponent with
         | None => true
         | Some x => someDigits (unsigned x)
         end).

(** A digit of a literal in base 2, 8 or 16. *)
Definition radixDigit (radix : N) (c : ascii) : bool :=
  let n := N_of_ascii c in
  (((48 <=? n) && (n <? 48 + N.min radix 10))
   || ((radix =? 16) && (((97 <=? n) && (n <=? 102)) || ((65 <=? n) && (n <=? 70)))))%N.

(** [NonDecimalIntegerLiteral]: [0b], [0o] or [0x], in either case, and
    one digit or more of the base; it takes no sign. *)
Definition radixLiteral (t : string) : bool :=
  match t with
  | String "0" (String r ds) =>
      let radix :=
        if Ascii.eqb r "b" || Ascii.eqb r "B" then 2%N
        else if Ascii.eqb r "o" || Ascii.eqb r "O" then 8%N
        else if Ascii.eqb r "x" || Ascii.eqb r "X" then 16%N
        else 0%N in
      negb (radix =? 0)%N && negb (String.eqb ds "") && Str.all (radixDigit radix) ds
  | _ => false
  end.

(** [StrNumericLiteral]: what [Number] reads as a number. *)
Definition numericLiteral (t : string) : bool :=
  radixLiteral t || unsignedDecimalLiteral (unsigned t).

(** [Number(s)]: 0 for a blank string, the value of a decimal integer
    literal, [NaN] for what is no numeric literal.  The literals that are
    not decimal integers (a fraction, an exponent, a radix prefix,
    [Infinity]) and the integers of 2^53 and more have values this
    development has no number for. *)
Definition Number (s : string) : outcome number :=
  let t := trim s in
  if String.eqb t "" then Done (Num 0)
  else match integerLiteral t with
       | Some z => exact z
       | None => if numericLiteral t then Beyond else Done NaN
       end.

(** [parseInt(s)] on the output of [stripNonDigits], which holds digits
    only: [NaN] when there is none, otherwise the double nearest to the
    value (past twenty digits an engine may round the digits first). *)
Definition parseInt (digits : string) : number :=
  if String.eqb digits "" then NaN else toDouble (Str.decimal digits).

(** ** [calculateDuration] *)

(** An element of a destructured array that is missing is [undefined],
    which arithmetic converts to [NaN]. *)
Definition element (i : nat) (l : list number) : number := nth i l NaN.

(** [const [hour, min] = time.split(':').map(Number)]. *)
Definition hourAndMinute (time : jsvalue) : outcome (number * number) :=
  parts <- splitMethod time ":" ;;
  nums <- mapM Number parts ;;
  Done (element 0 nums, element 1 nums).

(** Lines 72-83: the value of [duration]. *)
Definition durationMinutes (departure arrival : jsvalue) : outcome number :=
  dep <- hourAndMinute departure ;;
  arr <- hourAndMinute arrival ;;
  h <- times (fst dep) (Num 60) ;;
  depMinutes <- plus h (snd dep) ;;
  h' <- times (fst arr) (Num 60) ;;
  arrMinutes <- plus h' (snd arr) ;;
  arrMinutes <- (if lessThan arrMinutes depMinutes
                 then plus arrMinutes (Num (24 * 60))
                 else Done arrMinutes) ;;
  minus arrMinutes depMinutes.

(** Lines 84-91: the text for a duration. *)
Definition formatDuration (duration : number) : outcome string :=
  hours <- floorDiv duration (Num 60) ;;
  minutes <- remainder duration (Num 60) ;;
  if lessThan (Num 0) hours
  then Done (toString hours ++ "时" ++ toString minutes ++ "分")
  else Done (toString minutes ++ "分").

Definition calculateDuration (departure arrival : jsvalue) : outcome string :=
  tryCatch
    (duration <- durationMinutes departure arrival ;;
     formatDuration duration)
    (Done "-").

(** ** Rows and groups *)

Record FerryRoute : Type := {
  departure_port : string;
  arrival_port : string;
  departure_time : string;
  arrival_time : string;
  company : string;
  ship_type : string;
  allows_vehicles : bool;
  allows_bicycles : bool;
  adult_fare : string;
  child_fare : string;
  operating_days : string;
  notes : option string
}.

Record RouteGroup : Type := {
  routeKey : string;
  departure : string;
  arrival : string;
  schedules : list FerryRoute;
  companies : list string;
  minPrice : number;
  totalSchedules : nat
}.

(** ** [Map<string, RouteGroup>]

    A [Map] iterates in the order in which its keys were first set, so it
    is the list of its entries in that order. *)

Module GroupMap.

Definition t : Type := list (string * RouteGroup).

Definition empty : t := [].

Fixpoint has (m : t) (k : string) : bool :=
  match m with
  | [] => false
  | (k', _) :: m' => String.eqb k' k || has m' k
  end.

Fixpoint get (m : t) (k : string) : option RouteGroup :=
  match m with
  | [] => None
  | (k', g) :: m' => if String.eqb k' k then Some g else get m' k
  end.

(** [m.set(k, g)]: a key already present keeps its place. *)
Fixpoint set (m : t) (k : string) (g : RouteGroup) : t :=
  match m with
  | [] => [(k, g)]
  | (k', g') :: m' =>
      if String.eqb k' k then (k, g) :: m' else (k', g') :: set m' k g
  end.

Definition values (m : t) : list RouteGroup := map snd m.

End GroupMap.

(** ** [groupRoutesByPath] *)

(** Line 26: the template literal of the route key. *)
Definition routeKeyOf (route : FerryRoute) : string :=
  departure_port route ++ "-" ++ arrival_port route.

(** [companies.includes(c)]. *)
Definition includes (l : list string) (c : string) : bool :=
  existsb (String.eqb c) l.

(** Line 49: the fare of a row as the code reads it. *)
Definition adultFareOf (route : FerryRoute) : number :=
  parseInt (Str.stripNonDigits (adult_fare route)).

(** Lines 29-37: the group a new key starts with. *)
Definition newGroup (route : FerryRoute) : RouteGroup :=
  {| routeKey := routeKeyOf route;
     departure := departure_port route;
     arrival := arrival_port route;
     schedules := [];
     companies := [];
     minPrice := Infinity;
     totalSchedules := 0 |}.

(** Lines 41-54: what one row does to its group. *)
Definition accumulate (route : FerryRoute) (group : RouteGroup) : RouteGroup :=
  let adultFare := adultFareOf route in
  {| routeKey := routeKey group;
     departure := departure group;
     arrival := arrival group;
     schedules := schedules group ++ [route];
     companies := if includes (companies group) (company route)
                  then companies group
                  else companies group ++ [company route];
     minPrice := if lessThan adultFare (minPrice group)
                 then adultFare else minPrice group;
     totalSchedules := S (totalSchedules group) |}.

(** Lines 25-55: the body of [routes.forEach].  The group that
    [groupMap.get(routeKey)] returns is the object the map holds: the
    assignments to its fields are the entry of the key set anew, at its
    place. *)
Definition addRoute (groupMap : GroupMap.t) (route : FerryRoute) : GroupMap.t :=
  let key := routeKeyOf route in
  let groupMap :=
    if negb (GroupMap.has groupMap key)
    then GroupMap.set groupMap key (newGroup route)
    else groupMap in
  match GroupMap.get groupMap key with
  | Some group => GroupMap.set groupMap key (accumulate route group)
  | None => groupMap
  end.

(** [Array.prototype.sort] is stable.  With a comparator that orders its
    arguments consistently, as a collation does, the result is the one
    sorted arrangement that keeps equal elements in their order, which
    insertion from the right computes. *)
Section Sort.

Context {A : Type} (comparefn : A -> A -> Z).

Fixpoint insert (x : A) (l : list A) : list A :=
  match l with
  | [] => [x]
  | y :: l' => if comparefn x y <=? 0 then x :: l else y :: insert x l'
  end.

Fixpoint sort (l : list A) : list A :=
  match l with
  | [] => []
  | x :: l' => insert x (sort l')
  end.

End Sort.

Section Grouping.

(** [a.localeCompare(b)] is the collation of the host: negative, zero or
    positive.  It is a parameter of the development. *)
Variable localeCompare : string -> string -> Z.

(** Lines 59-63: the comparator of the sort. *)
Definition compareDeparture (a b : FerryRoute) : Z :=
  let timeA := Str.removeFirst ":" (departure_time a) in
  let timeB := Str.removeFirst ":" (departure_time b) in
  localeCompare timeA timeB.

(** Lines 58-64: the sort of one group. *)
Definition sortSchedules (group : RouteGroup) : RouteGroup :=
  {| routeKey := routeKey group;
     departure := departure group;
     arrival := arrival group;
     schedules := sort compareDeparture (schedules group);
     companies := companies group;
     minPrice := minPrice group;
     totalSchedules := totalSchedules group |}.

Definition groupRoutesByPath (routes : list FerryRoute) : list RouteGroup :=
  let groupMap := fold_left addRoute routes GroupMap.empty in
  let groupMap := map (fun e => (fst e, sortSchedules (snd e))) groupMap in
  GroupMap.values groupMap.

End Grouping.

(** ** The route group card *)

(** The marker of a sailing that runs in a limited period only. *)
Definition limitedPeriodMarker : string := "期間限定".

(** Lines 17-19 of the card: [schedules.some(s => s.operating_days === marker)]. *)
Definition isLimitedPeriod (routeGroup : RouteGroup) : bool :=
  existsb (fun schedule => String.eqb (operating_days schedule) limitedPeriodMarker)
          (schedules routeGroup).

(** One row of the timetable of the expanded card. *)
Record TimetableRow : Type := {
  rowDeparture : string;
  rowArrival : string;
  rowDuration : outcome string;
  rowCompany : string;
  rowFare : string
}.

Definition timetableRow (schedule : FerryRoute) : TimetableRow :=
  {| rowDeparture := departure_time schedule;
     rowArrival := arrival_time schedule;
     rowDuration := calculateDuration (Text (departure_time schedule))
                                      (Text (arrival_time schedule));
     rowCompany := company schedule;
     rowFare := adult_fare schedule |}.

(** The timetable of the expanded card: [schedules.map] of the row, with
    no test of the flag. *)
Definition timetableRows (routeGroup : RouteGroup) : list TimetableRow :=
  map timetableRow (schedules routeGroup).

(** ** Notions of the specification *)

(** A field of a clock time: one or more decimal digits, below the bound. *)
Definition clockField (bound : Z) (s : string) : bool :=
  negb (String.eqb s "") && Str.all Str.isDigit s && (Str.decimal s <? bound).

(** The minute of the day of a clock time [H:MM] or [HH:MM], 24 hours. *)
Definition minuteOfDay (time : string) : option Z :=
  match Str.split ":" time with
  | [h; m] =>
      if clockField 24 h && clockField 60 m
      then Some (Str.decimal h * 60 + Str.decimal m)
      else None
  | _ => None
  end.

(** A clock time written [HH:MM], two digits for the hour and two for the
    minute. *)
Definition zeroPadded (time : string) : bool :=
  match time with
  | String a (String b (String c (String d (String e EmptyString)))) =>
      Ascii.eqb c ":"
      && clockField 24 (String a (String b EmptyString))
      && clockField 60 (String d (String e EmptyString))
  | _ => false
  end.

Definition twoDigits (n : Z) : string :=
  String (ascii_of_N (Z.to_N (48 + n / 10)))
    (String (ascii_of_N (Z.to_N (48 + n mod 10))) EmptyString).

(** The clock time [HH:MM] of a minute of the day. *)
Definition clock (minute : Z) : string :=
  twoDigits (minute / 60) ++ ":" ++ twoDigits (minute mod 60).

(** A clock time moved forward by [k] minutes around the day. *)
Definition rotate (k : Z) (time : string) : string :=
  match minuteOfDay time with
  | Some minute => clock ((minute + k) mod 1440)
  | None => time
  end.

(** The text of a duration of [d] minutes, [0 <= d]. *)
Definition durationText (d : Z) : string :=
  if 0 <? d / 60
  then toString (Num (d / 60)) ++ "时" ++ toString (Num (d mod 60)) ++ "分"
  else toString (Num (d mod 60)) ++ "分".

(** What is assumed of the collation of the host: it orders two strings
    of ASCII digits as their code units do, digit by digit, a proper prefix
    first. *)
Definition digitOrder (localeCompare : string -> string -> Z) : Prop :=
  forall a b : string,
    Str.all Str.isDigit a = true -> Str.all Str.isDigit b = true ->
    Z.compare (localeCompare a b) 0 = String.compare a b.

(** Comparison of strings by code unit, three-valued like [localeCompare]:
    the collation of the examples. *)
Definition codeUnitCompare (a b : string) : Z :=
  match String.compare a b with
  | Lt => -1
  | Eq => 0
  | Gt => 1
  end.

(** The minute of the day at which a row departs (0 when its departure
    time is not a clock time). *)
Definition departureMinute (route : FerryRoute) : Z :=
  match minuteOfDay (departure_time route) with
  | Some minute => minute
  | None => 0
  end.

(** Departure of [a] no later than departure of [b], as minutes of the day. *)
Definition departsNoLater (a b : FerryRoute) : Prop :=
  match minuteOfDay (departure_time a), minuteOfDay (departure_time b) with
  | Some x, Some y => x <= y
  | _, _ => False
  end.

(** The distinct elements of a list, each at its first occurrence. *)
Section FirstSeen.

Context {A : Type} (eqb : A -> A -> bool).

Fixpoint firstSeen (l : list A) : list A :=
  match l with
  | [] => []
  | x :: l' => x :: filter (fun y => negb (eqb y x)) (firstSeen l')
  end.

End FirstSeen.

(** The pair of ports of a row and of a group. *)
Definition pathOf (route : FerryRoute) : string * string :=
  (departure_port route, arrival_port route).

Definition pathOfGroup (group : RouteGroup) : string * string :=
  (departure group, arrival group).

Definition pathEqb (p q : string * string) : bool :=
  String.eqb (fst p) (fst q) && String.eqb (snd p) (snd q).

(** The route key of a pair of ports. *)
Definition keyOfPath (p : string * string) : string := fst p ++ "-" ++ snd p.

(** No two pairs of ports of the input have the same route key. *)
Definition keysTellPaths (routes : list FerryRoute) : Prop :=
  forall r r', In r routes -> In r' routes ->
               routeKeyOf r = routeKeyOf r' -> pathOf r = pathOf r'.

(** The rows of an input that carry a key, in input order. *)
Definition membersOf (key : string) (routes : list FerryRoute) : list FerryRoute :=
  filter (fun route => String.eqb (routeKeyOf route) key) routes.

(** A fare with at least one digit. *)
Definition hasDigit (fare : string) : bool := Str.any Str.isDigit fare.

(** The whole number a fare writes: every character that is not a digit
    removed, the digits that are left read in base ten. *)
Definition fareValue (route : FerryRoute) : Z :=
  Str.decimal (Str.stripNonDigits (adult_fare route)).

(** The running minimum of lines 49-52 over a list of rows. *)
Definition runningMin (rows : list FerryRoute) (start : number) : number :=
  fold_left (fun m route => if lessThan (adultFareOf route) m then adultFareOf route else m)
            rows start.

(** The group of a key before the sort, read off the input. *)
Definition groupOf (routes : list FerryRoute) (key : string) : RouteGroup :=
  let members := membersOf key routes in
  {| routeKey := key;
     departure := match members with r :: _ => departure_port r | [] => "" end;
     arrival := match members with r :: _ => arrival_port r | [] => "" end;
     schedules := members;
     companies := firstSeen String.eqb (map company members);
     minPrice := runningMin members Infinity;
     totalSchedules := List.length members |}.

(** Two results hold the same groups: each group of the first has, under
    its route key, a group of the second with the same fields. *)
Definition sameGroups (G G' : list RouteGroup) : Prop :=
  forall g, In g G ->
  exists g', In g' G' /\ routeKey g' = routeKey g
             /\ schedules g' = schedules g
             /\ companies g' = companies g
             /\ minPrice g' = minPrice g
             /\ totalSchedules g' = totalSchedules g.

(** The same, with the schedules and the companies of a group compared as
    collections, whatever their order. *)
Definition sameGroupsUpToOrder (G G' : list RouteGroup) : Prop :=
  forall g, In g G ->
  exists g', In g' G' /\ routeKey g' = routeKey g
             /\ Permutation (schedules g') (schedules g)
             /\ Permutation (companies g') (companies g)
             /\ minPrice g' = minPrice g
             /\ totalSchedules g' = totalSchedules g.

(** Every group has its schedules in the order of the minute of departure. *)
Definition sortedByDeparture (G : list RouteGroup) : Prop :=
  Forall (fun g => StronglySorted departsNoLater (schedules g)) G.

(** Sample rows. *)
Definition sailing (dep arr depTime arrTime comp fare : string) : FerryRoute :=
  {| departure_port := dep; arrival_port := arr;
     departure_time := depTime; arrival_time := arrTime;
     company := comp; ship_type := "フェリー";
     allows_vehicles := true; allows_bicycles := true;
     adult_fare := fare; child_fare := fare;
     operating_days := "毎日"; notes := None |}.

Definition morning : FerryRoute :=
  sailing "Takamatsu" "Naoshima" "08:00" "08:25" "Shikoku Kisen" "¥1,220".
Definition night : FerryRoute :=
  sailing "Takamatsu" "Naoshima" "23:50" "00:10" "Shikoku Kisen" "¥1,220".
Definition rival : FerryRoute :=
  sailing "Takamatsu" "Naoshima" "08:00" "08:30" "Jumbo Ferry" "¥990".
Definition enquire : FerryRoute :=
  sailing "Uno" "Naoshima" "10:00" "10:20" "Shikoku Kisen" "お問い合わせください".
Definition unpadded : FerryRoute :=
  sailing "Uno" "Naoshima" "9:05" "9:25" "Shikoku Kisen" "¥300".
Definition midmorning : FerryRoute :=
  sailing "Uno" "Naoshima" "10:00" "10:20" "Shikoku Kisen" "¥300".
Definition hyphenLeft : FerryRoute :=
  sailing "A-B" "C" "09:00" "09:30" "X" "¥100".
Definition hyphenRight : FerryRoute :=
  sailing "A" "B-C" "10:00" "10:30" "Y" "¥200".

(** * The rest of the front end *)

(** ** More of strings *)

(** [s.includes(needle)]: [needle] occurs in [s] as a run of consecutive
    characters.  On well-formed text an occurrence among the bytes is an
    occurrence among the characters. *)
Fixpoint stringIncludes (s needle : string) : bool :=
  String.prefix needle s
  || match s with
     | EmptyString => false
     | String _ s' => stringIncludes s' needle
     end.

(** [a || d] on a string that may be [undefined]: [d] when [a] is
    [undefined] or empty. *)
Definition orString (a : option string) (d : string) : string :=
  match a with
  | Some s => if String.eqb s "" then d else s
  | None => d
  end.

(** The truth value of a string that may be [undefined]. *)
Definition truthy (a : option string) : bool :=
  match a with
  | Some s => negb (String.eqb s "")
  | None => false
  end.

(** ** [Set]

    A [Set] iterates in the order in which its elements were first added. *)

Module JSSet.

Definition t (A : Type) : Type := list A.

Definition add {A : Type} (eqb : A -> A -> bool) (s : t A) (x : A) : t A :=
  if existsb (eqb x) s then s else (s ++ [x])%list.

(** [new Set(iterable)]. *)
Definition ofArray {A : Type} (eqb : A -> A -> bool) (l : list A) : t A :=
  fold_left (add eqb) l [].

(** [Array.from(set)]. *)
Definition toArray {A : Type} (s : t A) : list A := s.

End JSSet.

(** ** The route group card, continued *)

(** [getShipIcon], the same in the route card and in the route group card. *)
Definition getShipIcon (shipType : string) : string :=
  if stringIncludes shipType "フェリー" then "⛴️"
  else if stringIncludes shipType "高速船" then "🚤"
  else if stringIncludes shipType "旅客船" then "🛥️"
  else "🚢".

(** The preview of the collapsed card: [schedules.slice(0, 3)]. *)
Definition previewSchedules (routeGroup : RouteGroup) : list FerryRoute :=
  firstn 3 (schedules routeGroup).

(** The line under the preview: shown when [schedules.length > 3], with
    [schedules.length - 3]. *)
Definition moreSchedules (routeGroup : RouteGroup) : option nat :=
  if (3 <? List.length (schedules routeGroup))%nat
  then Some (List.length (schedules routeGroup) - 3)%nat
  else None.

(** The first line of the operating information:
    [schedules[0]?.operating_days || '每日']. *)
Definition operatingDaysShown (routeGroup : RouteGroup) : string :=
  orString (option_map operating_days (hd_error (schedules routeGroup))) "每日".

(** [schedules.some(s => s.notes)]: the notes block is rendered. *)
Definition notesShown (routeGroup : RouteGroup) : bool :=
  existsb (fun s => truthy (notes s)) (schedules routeGroup).

Definition noteEqb (a b : option string) : bool :=
  match a, b with
  | Some x, Some y => String.eqb x y
  | None, None => true
  | _, _ => false
  end.

(** [Array.from(new Set(schedules.filter(s => s.notes).map(s => s.notes)))]:
    the lines of the notes block. *)
Definition noteLines (routeGroup : RouteGroup) : list (option string) :=
  JSSet.toArray
    (JSSet.ofArray noteEqb
       (map notes (filter (fun s => truthy (notes s)) (schedules routeGroup)))).

(** ** [lib/islands.ts] *)

Record IslandOption : Type := {
  value : string;
  label : string;
  icon : string;
  description : string
}.

Definition ISLANDS : list IslandOption :=
  [ {| value := "高松"; label := "高松"; icon := "🏙️";
       description := "四国门户，主要交通枢纽" |};
    {| value := "宇野"; label := "宇野"; icon := "🚢";
       description := "本州重要港口" |};
    {| value := "神戸"; label := "神戸"; icon := "🌆";
       description := "关西主要港口" |};
    {| value := "新岡山港"; label := "新岡山港"; icon := "⚓";
       description := "岡山主要港口" |};
    {| value := "直島"; label := "直島"; icon := "🎨";
       description := "现代艺术圣地" |};
    {| value := "豊島"; label := "豊島"; icon := "🏛️";
       description := "豊島美术馆所在地" |};
    {| value := "犬島"; label := "犬島"; icon := "🏭";
       description := "犬島精炼所美术馆" |};
    {| value := "小豆島"; label := "小豆島"; icon := "🫒";
       description := "橄榄之岛" |};
    {| value := "女木島"; label := "女木島"; icon := "👹";
       description := "鬼岛传说" |};
    {| value := "男木島"; label := "男木島"; icon := "🐱";
       description := "猫咪天堂" |} ].

Record IslandGroup : Type := {
  title : string;
  islands : list string
}.

(** [Object.entries(ISLAND_GROUPS)]: the keys are names, so the entries
    come in the order in which the literal writes them. *)
Definition ISLAND_GROUPS : list (string * IslandGroup) :=
  [ ("mainland", {| title := "本州港口";
                    islands := ["高松"; "宇野"; "神戸"; "新岡山港"] |});
    ("art", {| title := "艺术岛屿"; islands := ["直島"; "豊島"; "犬島"] |});
    ("other", {| title := "其他岛屿"; islands := ["小豆島"; "女木島"; "男木島"] |}) ].

(** [ISLANDS.find(i => i.value === islandName)]. *)
Definition findIsland (islandName : string) : option IslandOption :=
  find (fun i => String.eqb (value i) islandName) ISLANDS.

(** [island?.icon || '🏝️']. *)
Definition getIslandIcon (islandName : string) : string :=
  orString (option_map icon (findIsland islandName)) "🏝️".

(** [island?.description || '']. *)
Definition getIslandDescription (islandName : string) : string :=
  orString (option_map description (findIsland islandName)) "".

(** ** The island select *)

Section IslandSelect.

(** [s.toLowerCase()] follows the Unicode case mapping of the host; it is
    a parameter. *)
Variable toLowerCase : string -> string.

(** Lines 40-43: the options that match the search box. *)
Definition filteredIslands (searchTerm : string) : list IslandOption :=
  filter (fun island =>
            stringIncludes (toLowerCase (label island)) (toLowerCase searchTerm)
            || stringIncludes (toLowerCase (description island))
                              (toLowerCase searchTerm))
         ISLANDS.

(** Lines 56-92: one block per group, [null] for a group without a match;
    a block is the title of the group and its options. *)
Definition renderIslandsByGroup (searchTerm : string)
  : list (option (string * list IslandOption)) :=
  map (fun entry =>
         let group := snd entry in
         let groupIslands :=
           filter (fun island => includes (islands group) (value island))
                  (filteredIslands searchTerm) in
         if (List.length groupIslands =? 0)%nat then None
         else Some (title group, groupIslands))
      ISLAND_GROUPS.

(** The options of the blocks that are rendered, top to bottom. *)
Definition renderedOptions (searchTerm : string) : list IslandOption :=
  flat_map (fun block => match block with
                         | Some b => snd b
                         | None => []
                         end)
           (renderIslandsByGroup searchTerm).

End IslandSelect.

(** ** Plain objects

    An object whose keys are names (none is an array index): its own
    properties iterate in the order in which they were first written. *)

Inductive paramValue : Type :=
| PUndefined
| PText (s : string)
| PNumber (n : Z)
| PBool (b : bool).

Module Obj.

Definition t : Type := list (string * paramValue).

Fixpoint get (o : t) (k : string) : option paramValue :=
  match o with
  | [] => None
  | (k', v) :: o' => if String.eqb k' k then Some v else get o' k
  end.

(** [o[k] = v]: a key already present keeps its place. *)
Fixpoint set (o : t) (k : string) (v : paramValue) : t :=
  match o with
  | [] => [(k, v)]
  | (k', v') :: o' =>
      if String.eqb k' k then (k, v) :: o' else (k', v') :: set o' k v
  end.

Definition keys (o : t) : list string := map fst o.

End Obj.

(** ** The search form *)

Module SearchForm.

(** The state the form starts with and is reset to. *)
Definition initialFormData : Obj.t :=
  [ ("departure", PText ""); ("arrival", PText "");
    ("page", PNumber 1); ("limit", PNumber 20) ].

Definition handleReset (formData : Obj.t) : Obj.t := initialFormData.

(** [{...prev, [field]: value}]. *)
Definition handleInputChange (formData : Obj.t) (field : string)
           (v : paramValue) : Obj.t :=
  Obj.set formData field v.

(** [value !== '' && value !== undefined]. *)
Definition kept (v : paramValue) : bool :=
  match v with
  | PUndefined => false
  | PText s => negb (String.eqb s "")
  | _ => true
  end.

(** Lines 25-32: the parameters [handleSubmit] passes to [onSearch]. *)
Definition handleSubmit (formData : Obj.t) : Obj.t :=
  fold_left (fun cleanParams entry =>
               if kept (snd entry)
               then Obj.set cleanParams (fst entry) (snd entry)
               else cleanParams)
            formData [].

End SearchForm.

(** ** The home page: pages of results *)

Module Home.

(** The counts of a response: whole numbers, each of which may be absent. *)
Record SearchResponse : Type := {
  responseTotal : option Z;
  responsePage : option Z;
  responseLimit : option Z
}.

(** [x || d] on a count: [d] when [x] is [undefined] or 0. *)
Definition orNumber (x : option Z) (d : Z) : Z :=
  match x with
  | Some 0 | None => d
  | Some n => n
  end.

Record Pagination : Type := {
  total : Z;
  page : Z;
  limit : Z
}.

(** Lines 69-73: the state set from a response. *)
Definition paginationOf (response : SearchResponse) : Pagination :=
  {| total := orNumber (responseTotal response) 0;
     page := orNumber (responsePage response) 1;
     limit := orNumber (responseLimit response) 20 |}.

(** The response of a search, [APIResponse<FerryRoute[]>]: [success], the
    rows of [data] and the counts. *)
Record RouteResponse : Type := {
  success : bool;
  data : list FerryRoute;
  counts : SearchResponse
}.

(** The state of the page that a search sets. *)
Record SearchState : Type := {
  routeGroups : list RouteGroup;
  pagination : Pagination;
  error : option string
}.

(** Lines 16-25: the state the page starts with. *)
Definition initialState : SearchState :=
  {| routeGroups := [];
     pagination := {| total := 0; page := 1; limit := 20 |};
     error := None |}.

(** Lines 58-83: [handleSearch] once the response is there.  The error is
    cleared first; a response with [success] sets the groups of
    [response.data] and the pagination of the counts, another one sets the
    error text and leaves the rest.  (A call that fails sets another error
    text; there is no response then.) *)
Definition handleSearch (localeCompare : string -> string -> Z)
           (state : SearchState) (response : RouteResponse) : SearchState :=
  if success response
  then {| routeGroups := groupRoutesByPath localeCompare (data response);
          pagination := paginationOf (counts response);
          error := None |}
  else {| routeGroups := routeGroups state;
          pagination := pagination state;
          error := Some "搜索失败，请重试" |}.

(** [Math.ceil(a / b)] for whole numbers below 2^53 and [b] other than 0:
    the rounding of the quotient to a double never reaches an integer it
    is not, so the ceiling is the one of the exact quotient. *)
Definition ceilDiv (a b : Z) : Z := - ((- a) / b).

(** [pagination.total > pagination.limit]: the pager is rendered. *)
Definition pagerShown (p : Pagination) : bool := limit p <? total p.

(** [pagination.page <= 1 || loading]. *)
Definition previousDisabled (p : Pagination) (loading : bool) : bool :=
  (page p <=? 1) || loading.

(** [pagination.page >= Math.ceil(pagination.total / pagination.limit)
    || loading]; with a limit of 0 the quotient is [Infinity], [NaN] or
    [-Infinity], and only the last is below every page. *)
Definition nextDisabled (p : Pagination) (loading : bool) : bool :=
  (if limit p =? 0 then total p <? 0
   else ceilDiv (total p) (limit p) <=? page p)
  || loading.

(** [handlePageChange]: the search parameters of the page asked for,
    [{...currentSearchParams, page: newPage}]. *)
Definition handlePageChange (currentSearchParams : Obj.t) (newPage : Z) : Obj.t :=
  Obj.set currentSearchParams "page" (PNumber newPage).

End Home.

(** ** The island page: duration of a bus trip *)

Module IslandDetail.

(** Lines 273-279: the value of [diffMinutes]. *)
Definition diffMinutes (departureTime arrivalTime : jsvalue) : outcome number :=
  dep <- hourAndMinute departureTime ;;
  arr <- hourAndMinute arrivalTime ;;
  h <- times (fst dep) (Num 60) ;;
  depMinutes <- plus h (snd dep) ;;
  h' <- times (fst arr) (Num 60) ;;
  arrMinutes <- plus h' (snd arr) ;;
  minus arrMinutes depMinutes.

(** Lines 271-294: the [calculateDuration] of the island page. *)
Definition calculateDuration (departureTime arrivalTime : jsvalue) : outcome string :=
  tryCatch
    (diff <- diffMinutes departureTime arrivalTime ;;
     if lessThan diff (Num 0) then Done ""
     else
       hours <- floorDiv diff (Num 60) ;;
       minutes <- remainder diff (Num 60) ;;
       if lessThan (Num 0) hours
       then Done (toString hours ++ "小时" ++ toString minutes ++ "分钟")
       else Done (toString minutes ++ "分钟"))
    (Done "").

(** Lines 241-243: the duration cell of a bus row,
    [departure_time && arrival_time ? calculateDuration(...) : '']. *)
Definition durationCell (departure_time arrival_time : option string)
  : outcome string :=
  match departure_time, arrival_time with
  | Some d, Some a =>
      if truthy departure_time && truthy arrival_time
      then calculateDuration (Text d) (Text a)
      else Done ""
  | _, _ => Done ""
  end.

(** The text of a bus trip of [d] minutes, [0 <= d]. *)
Definition durationText (d : Z) : string :=
  if 0 <? d / 60
  then toString (Num (d / 60)) ++ "小时" ++ toString (Num (d mod 60)) ++ "分钟"
  else toString (Num (d mod 60)) ++ "分钟".

End IslandDetail.

(** ** More notions for the properties *)

(** A field of a time that [Number] reads exactly: decimal digits, at most
    thirteen, or none at all (which reads as 0). *)
Definition plainField (s : string) : bool :=
  Str.all Str.isDigit s && (String.length s <=? 13)%nat.

(** The hour and minute the code reads from a time whose pieces between
    colons are all plain fields; pieces after the second are not used. *)
Definition numericFields (time : string) : option (Z * Z) :=
  match Str.split ":" time with
  | h :: m :: rest =>
      if forallb plainField (h :: m :: rest)
      then Some (Str.decimal h, Str.decimal m)
      else None
  | _ => None
  end.

(** A field that [Number] reads as a whole number below 10^13 in
    magnitude, or as no number: white space only, a decimal integer with
    or without a sign and white space around it, or what is no numeric
    literal at all (a word, a lone sign, ["未定"]). *)
Definition wholeField (s : string) : bool :=
  let t := trim s in
  String.eqb t ""
  || match integerLiteral t with
     | Some z => Z.abs z <? 10 ^ 13
     | None => negb (numericLiteral t)
     end.

(** A time whose pieces between colons are all such fields. *)
Definition wholeFields (time : string) : bool :=
  forallb wholeField (Str.split ":" time).

(** A number that is [NaN] or a whole number below the bound in magnitude. *)
Definition within (bound : Z) (n : number) : Prop :=
  match n with
  | Num z => Z.abs z < bound
  | Infinity => False
  | NaN => True
  end.

(** A time with no colon in it. *)
Definition noColon (time : string) : bool :=
  negb (Str.any (fun c => Ascii.eqb c ":") time).

(** The rows of a list that leave at a minute of the day, in their order. *)
Definition leavingAt (minute : Z) (rows : list FerryRoute) : list FerryRoute :=
  filter (fun r => departureMinute r =? minute) rows.

(** A row with its operating days rewritten, the rest as it is. *)
Definition withOperatingDays (days : string -> string) (route : FerryRoute)
  : FerryRoute :=
  {| departure_port := departure_port route;
     arrival_port := arrival_port route;
     departure_time := departure_time route;
     arrival_time := arrival_time route;
     company := company route;
     ship_type := ship_type route;
     allows_vehicles := allows_vehicles route;
     allows_bicycles := allows_bicycles route;
     adult_fare := adult_fare route;
     child_fare := child_fare route;
     operating_days := days (operating_days route);
     notes := notes route |}.

(** A group with the operating days of its schedules rewritten. *)
Definition groupWithOperatingDays (days : string -> string) (group : RouteGroup)
  : RouteGroup :=
  {| routeKey := routeKey group;
     departure := departure group;
     arrival := arrival group;
     schedules := map (withOperatingDays days) (schedules group);
     companies := companies group;
     minPrice := minPrice group;
     totalSchedules := totalSchedules group |}.

(** The first page of a result of 45 sailings, 20 to the page. *)
Definition firstPageOf45 : Home.RouteResponse :=
  {| Home.success := true;
     Home.data := repeat morning 20;
     Home.counts := {| Home.responseTotal := Some 45;
                       Home.responsePage := Some 1;
                       Home.responseLimit := Some 20 |} |}.

(** The keys of a list of groups, each once. *)
Fixpoint distinctStrings (l : list string) : bool :=
  match l with
  | [] => true
  | x :: l' => negb (existsb (String.eqb x) l') && distinctStrings l'
  end.

(** * Properties *)

(** ** Digits and clock times *)

Lemma digitValue_range (c : ascii) :
  Str.isDigit c = true -> 0 <= Str.digitValue c <= 9.
Proof.
  unfold Str.isDigit, Str.digitValue. cbv zeta.
  rewrite andb_true_iff, !N.leb_le. lia.
Qed.

Lemma decimalFrom_bounds (s : string) :
  forall acc, 0 <= acc -> Str.all Str.isDigit s = true ->
  acc <= Str.decimalFrom acc s.
Proof.
  induction s as [|c s IH]; intros acc Hacc Hall; simpl in *.
  - lia.
  - apply andb_true_iff in Hall as [Hc Hs].
    pose proof (digitValue_range c Hc).
    specialize (IH (acc * 10 + Str.digitValue c) ltac:(lia) Hs).
    lia.
Qed.

Lemma exact_small (z : Z) : Z.abs z < maxExact -> exact z = Done (Num z).
Proof.
  intros H. unfold exact. apply Z.ltb_lt in H. now rewrite H.
Qed.

Lemma clockField_spec (bound : Z) (s : string) :
  clockField bound s = true ->
  String.eqb s "" = false /\ Str.all Str.isDigit s = true
  /\ 0 <= Str.decimal s < bound.
Proof.
  unfold clockField. rewrite !andb_true_iff, negb_true_iff, Z.ltb_lt.
  intros [[Hne Hd] Hb]. repeat split; trivial.
  unfold Str.decimal. apply decimalFrom_bounds; [lia | assumption].
Qed.

(** Each white-space character removed shortens the string, so the steps
    [trimStart] allows itself are enough: what it returns starts with no
    white space. *)
Lemma whiteSpaceHead_shorter (s rest : string) :
  whiteSpaceHead s = Some rest -> (String.length rest < String.length s)%nat.
Proof.
  unfold whiteSpaceHead.
  destruct s as [|a [|b [|c r3]]]; cbv zeta;
    repeat match goal with
           | |- context [if ?b then _ else _] => destruct b
           end;
    intros [= <-]; cbn [String.length]; lia.
Qed.

Lemma trimStartWithin_done (n : nat) :
  forall s, (String.length s <= n)%nat ->
            whiteSpaceHead (trimStartWithin n s) = None.
Proof.
  induction n as [|n IH]; intros s Hn.
  - destruct s; [reflexivity | cbn [String.length] in Hn; lia].
  - cbn [trimStartWithin]. destruct (whiteSpaceHead s) as [rest | ] eqn:E.
    + apply IH. apply whiteSpaceHead_shorter in E. lia.
    + exact E.
Qed.

Lemma trimStart_done (s : string) : whiteSpaceHead (trimStart s) = None.
Proof. apply trimStartWithin_done. lia. Qed.

(** A digit is no white space and no sign. *)
Lemma whiteSpaceHead_digit (c : ascii) (s : string) :
  Str.isDigit c = true -> whiteSpaceHead (String c s) = None.
Proof.
  unfold Str.isDigit, whiteSpaceHead. cbv zeta.
  rewrite andb_true_iff, !N.leb_le. intros [Hlo Hhi].
  replace (N_of_ascii c <? 128)%N with true by (symmetry; apply N.ltb_lt; lia).
  replace (N_of_ascii c <=? 13)%N with false by (symmetry; apply N.leb_gt; lia).
  replace (N_of_ascii c =? 32)%N with false by (symmetry; apply N.eqb_neq; lia).
  now rewrite andb_false_r.
Qed.

Lemma trimStart_digit (c : ascii) (s : string) :
  Str.isDigit c = true -> trimStart (String c s) = String c s.
Proof.
  intros H. unfold trimStart. cbn [String.length trimStartWithin].
  now rewrite whiteSpaceHead_digit.
Qed.

Lemma trimEnd_digits (s : string) :
  Str.all Str.isDigit s = true -> trimEnd s = s.
Proof.
  induction s as [|c s IH]; [reflexivity | ].
  cbn [Str.all]. rewrite andb_true_iff. intros [Hc Hs].
  cbn [trimEnd]. unfold isBlank. rewrite trimStart_digit by assumption.
  cbn [String.eqb]. now rewrite IH.
Qed.

(** [Number] leaves a string of digits as it is written. *)
Lemma trim_digits (s : string) : Str.all Str.isDigit s = true -> trim s = s.
Proof.
  intros H. unfold trim. destruct s as [|c s]; [reflexivity | ].
  cbn [Str.all] in H. apply andb_true_iff in H as [Hc Hs].
  rewrite trimStart_digit by assumption.
  apply trimEnd_digits. cbn [Str.all]. now rewrite Hc, Hs.
Qed.

Lemma digit_not_sign (c : ascii) :
  Str.isDigit c = true -> c <> "+"%char /\ c <> "-"%char.
Proof. intros H. split; intros ->; discriminate. Qed.

Lemma integerLiteral_digits (s : string) :
  String.eqb s "" = false -> Str.all Str.isDigit s = true ->
  integerLiteral s = Some (Str.decimal s).
Proof.
  intros Hne Hd. destruct s as [|c s]; [discriminate | ].
  assert (Hc : Str.isDigit c = true).
  { cbn [Str.all] in Hd. now apply andb_true_iff in Hd as [Hc _]. }
  destruct (digit_not_sign c Hc) as [Hp Hm].
  assert (Hu : unsigned (String c s) = String c s).
  { unfold unsigned.
    destruct c as [[] [] [] [] [] [] [] []]; try reflexivity; congruence. }
  unfold integerLiteral. rewrite Hu. unfold someDigits. rewrite Hne, Hd.
  cbn [negb andb]. f_equal.
  destruct c as [[] [] [] [] [] [] [] []]; try reflexivity; congruence.
Qed.

(** [Number] of a string of digits is the number they write (0 for none). *)
Lemma Number_digits (s : string) :
  Str.all Str.isDigit s = true -> Str.decimal s < maxExact ->
  Number s = Done (Num (Str.decimal s)).
Proof.
  intros Hd Hb. unfold Number. cbv zeta. rewrite (trim_digits s Hd).
  destruct (String.eqb s "") eqn:Hne.
  - apply String.eqb_eq in Hne. now subst s.
  - rewrite (integerLiteral_digits s Hne Hd). apply exact_small.
    assert (0 <= Str.decimal s)
      by (unfold Str.decimal; apply decimalFrom_bounds; [lia | assumption]).
    lia.
Qed.

Lemma Number_clockField (bound : Z) (s : string) :
  bound <= maxExact -> clockField bound s = true ->
  Number s = Done (Num (Str.decimal s)).
Proof.
  intros Hb H. destruct (clockField_spec _ _ H) as (Hne & Hd & Hr).
  apply Number_digits; [assumption | lia].
Qed.

Lemma hourAndMinute_clock (time : string) (minute : Z) :
  minuteOfDay time = Some minute ->
  exists h m, hourAndMinute (Text time) = Done (Num h, Num m)
              /\ minute = h * 60 + m /\ 0 <= h < 24 /\ 0 <= m < 60.
Proof.
  unfold minuteOfDay, hourAndMinute. simpl.
  destruct (Str.split ":" time) as [|h [|m [|x l]]]; try discriminate.
  destruct (clockField 24 h) eqn:Hh; try discriminate.
  destruct (clockField 60 m) eqn:Hm; try discriminate.
  simpl. intros [= <-].
  exists (Str.decimal h), (Str.decimal m).
  rewrite (Number_clockField 24 h), (Number_clockField 60 m);
    try assumption; try (unfold maxExact; lia).
  simpl. unfold element. simpl.
  destruct (clockField_spec _ _ Hh) as (_ & _ & ?).
  destruct (clockField_spec _ _ Hm) as (_ & _ & ?).
  repeat split; lia.
Qed.

Lemma minuteOfDay_range (time : string) (minute : Z) :
  minuteOfDay time = Some minute -> 0 <= minute < 1440.
Proof.
  intros H. destruct (hourAndMinute_clock _ _ H) as (h & m & _ & -> & ? & ?). lia.
Qed.

Ltac exact_now :=
  rewrite exact_small by (unfold maxExact; simpl; lia); simpl.

(** Between two clock times the code computes the minutes from the
    departure forward to the arrival. *)
Lemma durationMinutes_clock (departure arrival : string) (dm am : Z) :
  minuteOfDay departure = Some dm -> minuteOfDay arrival = Some am ->
  durationMinutes (Text departure) (Text arrival) = Done (Num ((am - dm) mod 1440)).
Proof.
  intros Hd Ha.
  destruct (hourAndMinute_clock _ _ Hd) as (dh & dmin & Ed & -> & ? & ?).
  destruct (hourAndMinute_clock _ _ Ha) as (ah & amin & Ea & -> & ? & ?).
  unfold durationMinutes. rewrite Ed, Ea. simpl.
  unfold times, plus, minus, arith.
  do 4 exact_now.
  destruct (ah * 60 + amin <? dh * 60 + dmin) eqn:Hlt; simpl.
  - apply Z.ltb_lt in Hlt. do 2 exact_now. f_equal. f_equal.
    apply Z.mod_unique with (q := -1); lia.
  - apply Z.ltb_ge in Hlt. exact_now. f_equal. f_equal.
    apply Z.mod_unique with (q := 0); lia.
Qed.

Lemma formatDuration_nonneg (d : Z) :
  0 <= d < maxExact -> formatDuration (Num d) = Done (durationText d).
Proof.
  intros Hd. unfold formatDuration, floorDiv, remainder, arith, durationText.
  assert (0 <= d / 60 <= d).
  { split; [apply Z.div_pos; lia | ].
    apply Z.div_le_upper_bound; lia. }
  assert (0 <= d mod 60 < 60) by (apply Z.mod_pos_bound; lia).
  rewrite Z.rem_mod_nonneg by lia.
  unfold maxExact in Hd. simpl in Hd.
  do 2 exact_now.
  now destruct (0 <? d / 60).
Qed.

Lemma calculateDuration_clock (departure arrival : string) (dm am : Z) :
  minuteOfDay departure = Some dm -> minuteOfDay arrival = Some am ->
  calculateDuration (Text departure) (Text arrival)
  = Done (durationText ((am - dm) mod 1440)).
Proof.
  intros Hd Ha. unfold calculateDuration.
  rewrite (durationMinutes_clock _ _ _ _ Hd Ha). simpl.
  rewrite formatDuration_nonneg; [reflexivity | ].
  pose proof (Z.mod_pos_bound (am - dm) 1440). unfold maxExact. lia.
Qed.

Lemma minuteOfDay_clock (minute : Z) :
  0 <= minute < 1440 -> minuteOfDay (clock minute) = Some minute.
Proof.
  intros H.
  assert (All : forallb (fun n => match minuteOfDay (clock (Z.of_nat n)) with
                                  | Some y => y =? Z.of_nat n
                                  | None => false
                                  end) (seq 0 1440) = true) by (vm_compute; reflexivity).
  rewrite forallb_forall in All.
  specialize (All (Z.to_nat minute)).
  rewrite Z2Nat.id in All by lia.
  assert (In (Z.to_nat minute) (seq 0 1440)) as Hin by (apply in_seq; lia).
  specialize (All Hin).
  destruct (minuteOfDay (clock minute)); [ | discriminate].
  apply Z.eqb_eq in All. now subst.
Qed.

Lemma minuteOfDay_rotate (k : Z) (time : string) (minute : Z) :
  minuteOfDay time = Some minute ->
  minuteOfDay (rotate k time) = Some ((minute + k) mod 1440).
Proof.
  intros H. unfold rotate. rewrite H.
  apply minuteOfDay_clock. apply Z.mod_pos_bound. lia.
Qed.

(** ** Duration between clock times *)

(** C2: for departure and arrival times that are clock times, the duration
    is (arrival minutes - departure minutes) mod 1440: an arrival earlier on
    the clock than the departure gets 24 * 60 minutes added before the
    subtraction, equal times give zero minutes and the text ["0分"], and
    23:50 to 00:10 is 20 minutes. *)
Theorem calculateDuration_modulo_day (departure arrival : string) (dm am : Z) :
  minuteOfDay departure = Some dm -> minuteOfDay arrival = Some am ->
  durationMinutes (Text departure) (Text arrival) = Done (Num ((am - dm) mod 1440))
  /\ calculateDuration (Text departure) (Text arrival)
     = Done (durationText ((am - dm) mod 1440))
  /\ (am < dm -> (am - dm) mod 1440 = am + 24 * 60 - dm)
  /\ (dm <= am -> (am - dm) mod 1440 = am - dm)
  /\ (am = dm -> calculateDuration (Text departure) (Text arrival) = Done "0分")
  /\ calculateDuration (Text "23:50") (Text "00:10") = Done "20分".
Proof.
  intros Hd Ha.
  pose proof (minuteOfDay_range _ _ Hd).
  pose proof (minuteOfDay_range _ _ Ha).
  repeat split.
  - now apply durationMinutes_clock.
  - now apply calculateDuration_clock.
  - intros. symmetry. apply Z.mod_unique with (q := -1); lia.
  - intros. symmetry. apply Z.mod_unique with (q := 0); lia.
  - intros ->. rewrite (calculateDuration_clock _ _ _ _ Hd Ha).
    now rewrite Z.sub_diag.
Qed.

Lemma calculateDuration_modulo_day_witness :
  durationMinutes (Text "9:05") (Text "08:55") = Done (Num ((535 - 545) mod 1440))
  /\ calculateDuration (Text "9:05") (Text "08:55")
     = Done (durationText ((535 - 545) mod 1440))
  /\ (535 < 545 -> (535 - 545) mod 1440 = 535 + 24 * 60 - 545)
  /\ (545 <= 535 -> (535 - 545) mod 1440 = 535 - 545)
  /\ (535 = 545 -> calculateDuration (Text "9:05") (Text "08:55") = Done "0分")
  /\ calculateDuration (Text "23:50") (Text "00:10") = Done "20分".
Proof.
  apply (calculateDuration_modulo_day "9:05" "08:55" 545 535); reflexivity.
Defined.

(** C8: between clock times the duration is at least 0 minutes, moving
    both times by the same number of minutes around the day leaves it
    unchanged, and it is zero exactly when departure and arrival are the
    same time. *)
Theorem duration_rotation_invariant (departure arrival : string) (dm am k : Z) :
  minuteOfDay departure = Some dm -> minuteOfDay arrival = Some am ->
  exists d : Z,
    durationMinutes (Text departure) (Text arrival) = Done (Num d)
    /\ 0 <= d
    /\ durationMinutes (Text (rotate k departure)) (Text (rotate k arrival))
       = Done (Num d)
    /\ calculateDuration (Text (rotate k departure)) (Text (rotate k arrival))
       = calculateDuration (Text departure) (Text arrival)
    /\ (d = 0 <-> dm = am).
Proof.
  intros Hd Ha.
  pose proof (minuteOfDay_range _ _ Hd).
  pose proof (minuteOfDay_range _ _ Ha).
  pose proof (minuteOfDay_rotate k _ _ Hd) as Hd'.
  pose proof (minuteOfDay_rotate k _ _ Ha) as Ha'.
  assert (Hrot : ((am + k) mod 1440 - (dm + k) mod 1440) mod 1440
                 = (am - dm) mod 1440).
  { rewrite <- Zminus_mod. f_equal. lia. }
  exists ((am - dm) mod 1440). repeat split.
  - now apply durationMinutes_clock.
  - apply Z.mod_pos_bound. lia.
  - rewrite (durationMinutes_clock _ _ _ _ Hd' Ha'). now rewrite Hrot.
  - rewrite (calculateDuration_clock _ _ _ _ Hd' Ha'), Hrot.
    symmetry. now apply calculateDuration_clock.
  - intros Hz. destruct (Z_lt_le_dec am dm).
    + rewrite <- (Z.mod_unique (am - dm) 1440 (-1) (am + 1440 - dm)) in Hz; lia.
    + rewrite <- (Z.mod_unique (am - dm) 1440 0 (am - dm)) in Hz; lia.
  - intros ->. now rewrite Z.sub_diag.
Qed.

Lemma duration_rotation_invariant_witness :
  exists d : Z,
    durationMinutes (Text "23:50") (Text "00:10") = Done (Num d)
    /\ 0 <= d
    /\ durationMinutes (Text (rotate 45 "23:50")) (Text (rotate 45 "00:10"))
       = Done (Num d)
    /\ calculateDuration (Text (rotate 45 "23:50")) (Text (rotate 45 "00:10"))
       = calculateDuration (Text "23:50") (Text "00:10")
    /\ (d = 0 <-> 1430 = 10).
Proof.
  apply (duration_rotation_invariant "23:50" "00:10" 1430 10 45); reflexivity.
Defined.

(** ** Times that are not clock times *)

Lemma calculateDuration_never_throws (departure arrival : jsvalue) :
  calculateDuration departure arrival <> Throw.
Proof.
  unfold calculateDuration, tryCatch.
  now destruct (duration <- durationMinutes departure arrival ;; formatDuration duration).
Qed.

Lemma calculateDuration_missing_departure (arrival : jsvalue) :
  calculateDuration Undefined arrival = Done "-".
Proof. reflexivity. Qed.

(** C5: on the malformed times ["8h30"] and ["9h00"] the code returns the
    text ["NaN分"], not the sentinel ["-"]; the sentinel is what a missing
    departure gives, and no call throws. *)
Theorem calculateDuration_malformed_is_not_sentinel :
  calculateDuration (Text "8h30") (Text "9h00") = Done "NaN分"
  /\ calculateDuration (Text "8h30") (Text "9h00") <> Done "-"
  /\ (forall arrival, calculateDuration Undefined arrival = Done "-")
  /\ (forall departure arrival, calculateDuration departure arrival <> Throw).
Proof.
  repeat split.
  - discriminate.
  - intros. apply calculateDuration_never_throws.
Qed.

(** ** Lists of first occurrences *)

Section FirstSeenFacts.

Context {A : Type} (eqb : A -> A -> bool).
Hypothesis eqb_eq : forall x y, eqb x y = true <-> x = y.

Lemma eqb_refl' (x : A) : eqb x x = true.
Proof. now apply eqb_eq. Qed.

Lemma eqb_neq (x y : A) : eqb x y = false <-> x <> y.
Proof.
  rewrite <- eqb_eq. destruct (eqb x y); split; congruence.
Qed.

Lemma existsb_eqb (x : A) (l : list A) : existsb (eqb x) l = true <-> In x l.
Proof.
  rewrite existsb_exists. split.
  - intros (y & Hy & E). apply eqb_eq in E. now subst.
  - intros H. exists x. split; [assumption | apply eqb_refl'].
Qed.

Lemma firstSeen_In (x : A) (l : list A) : In x (firstSeen eqb l) <-> In x l.
Proof.
  induction l as [|a l IH]; simpl; [tauto | ].
  rewrite filter_In, IH, negb_true_iff, eqb_neq.
  destruct (eqb x a) eqn:E.
  - apply eqb_eq in E. subst. tauto.
  - apply eqb_neq in E. split; [tauto | ].
    intros [-> | H]; [now left | right; split; assumption].
Qed.

Lemma firstSeen_NoDup (l : list A) : NoDup (firstSeen eqb l).
Proof.
  induction l as [|a l IH]; simpl; constructor.
  - rewrite filter_In, negb_true_iff, eqb_neq. tauto.
  - now apply NoDup_filter.
Qed.

Lemma existsb_firstSeen (x : A) (l : list A) :
  existsb (eqb x) (firstSeen eqb l) = existsb (eqb x) l.
Proof.
  apply eq_true_iff_eq. now rewrite !existsb_eqb, firstSeen_In.
Qed.

Lemma firstSeen_snoc (l : list A) (x : A) :
  firstSeen eqb (l ++ [x])
  = if existsb (eqb x) l then firstSeen eqb l else (firstSeen eqb l ++ [x])%list.
Proof.
  induction l as [|a l IH]; simpl; [reflexivity | ].
  rewrite IH. destruct (eqb x a) eqn:E; simpl.
  - destruct (existsb (eqb x) l); [reflexivity | ].
    rewrite filter_app. simpl. rewrite E. simpl. now rewrite app_nil_r.
  - destruct (existsb (eqb x) l); [reflexivity | ].
    rewrite filter_app. simpl. now rewrite E.
Qed.

Lemma firstSeen_Permutation (l l' : list A) :
  Permutation l l' -> Permutation (firstSeen eqb l) (firstSeen eqb l').
Proof.
  intros H. apply NoDup_Permutation; try apply firstSeen_NoDup.
  intros x. rewrite !firstSeen_In.
  split; apply Permutation_in; [assumption | now apply Permutation_sym].
Qed.

End FirstSeenFacts.

(** ** The map of groups *)

Lemma has_entries (f : string -> RouteGroup) (keys : list string) (k : string) :
  GroupMap.has (map (fun k' => (k', f k')) keys) k = existsb (String.eqb k) keys.
Proof.
  induction keys as [|a keys IH]; simpl; [reflexivity | ].
  now rewrite IH, (String.eqb_sym a k).
Qed.

Lemma set_absent (m : GroupMap.t) (k : string) (g : RouteGroup) :
  GroupMap.has m k = false -> GroupMap.set m k g = (m ++ [(k, g)])%list.
Proof.
  induction m as [|[k' g'] m IH]; simpl; [reflexivity | ].
  intros H. apply orb_false_iff in H as [E H].
  now rewrite E, IH.
Qed.

Lemma get_last (m : GroupMap.t) (k : string) (g : RouteGroup) :
  GroupMap.has m k = false -> GroupMap.get (m ++ [(k, g)])%list k = Some g.
Proof.
  induction m as [|[k' g'] m IH]; simpl.
  - now rewrite String.eqb_refl.
  - intros H. apply orb_false_iff in H as [E H]. now rewrite E, IH.
Qed.

Lemma set_last (m : GroupMap.t) (k : string) (g g' : RouteGroup) :
  GroupMap.has m k = false ->
  GroupMap.set (m ++ [(k, g)])%list k g' = (m ++ [(k, g')])%list.
Proof.
  induction m as [|[k' g''] m IH]; simpl.
  - now rewrite String.eqb_refl.
  - intros H. apply orb_false_iff in H as [E H]. now rewrite E, IH.
Qed.

Lemma get_entries (f : string -> RouteGroup) (keys : list string) (k : string) :
  In k keys -> GroupMap.get (map (fun k' => (k', f k')) keys) k = Some (f k).
Proof.
  induction keys as [|a keys IH]; simpl; [contradiction | ].
  destruct (String.eqb_spec a k) as [-> | Hne]; [reflexivity | ].
  intros [E | H]; [contradiction | now apply IH].
Qed.

Lemma set_entries (f : string -> RouteGroup) (g : RouteGroup)
      (keys : list string) (k : string) :
  NoDup keys ->
  GroupMap.set (map (fun k' => (k', f k')) keys) k g
  = if existsb (String.eqb k) keys
    then map (fun k' => (k', if String.eqb k' k then g else f k')) keys
    else (map (fun k' => (k', f k')) keys ++ [(k, g)])%list.
Proof.
  induction 1 as [|a keys Ha Hnd IH]; simpl; [reflexivity | ].
  rewrite (String.eqb_sym k a).
  destruct (String.eqb_spec a k) as [-> | Hne]; simpl.
  - f_equal. apply map_ext_in. intros b Hb.
    destruct (String.eqb_spec b k) as [-> | _]; [contradiction | reflexivity].
  - rewrite IH. now destruct (existsb (String.eqb k) keys).
Qed.

(** ** A group, one row later *)

Lemma membersOf_snoc (routes : list FerryRoute) (route : FerryRoute) (k : string) :
  membersOf k (routes ++ [route])
  = (membersOf k routes
     ++ (if String.eqb (routeKeyOf route) k then [route] else []))%list.
Proof.
  unfold membersOf. rewrite filter_app. simpl.
  now destruct (String.eqb (routeKeyOf route) k).
Qed.

Lemma membersOf_nil (routes : list FerryRoute) (k : string) :
  ~ In k (map routeKeyOf routes) -> membersOf k routes = [].
Proof.
  intros H. unfold membersOf.
  induction routes as [|r routes IH]; simpl in *; [reflexivity | ].
  destruct (String.eqb (routeKeyOf r) k) eqn:E.
  - apply String.eqb_eq in E. tauto.
  - apply IH. tauto.
Qed.

Lemma membersOf_cons (routes : list FerryRoute) (k : string) :
  In k (map routeKeyOf routes) -> exists r l, membersOf k routes = r :: l.
Proof.
  intros H. apply in_map_iff in H as (r & E & Hr).
  assert (Hin : In r (membersOf k routes)).
  { apply filter_In. split; [assumption | now apply String.eqb_eq]. }
  destruct (membersOf k routes) as [|r' l]; [contradiction | eauto].
Qed.

Lemma groupOf_snoc_other (routes : list FerryRoute) (route : FerryRoute) (k : string) :
  String.eqb k (routeKeyOf route) = false ->
  groupOf (routes ++ [route]) k = groupOf routes k.
Proof.
  intros E. unfold groupOf. rewrite membersOf_snoc.
  rewrite String.eqb_sym, E. now rewrite app_nil_r.
Qed.

Lemma groupOf_snoc_new (routes : list FerryRoute) (route : FerryRoute) :
  ~ In (routeKeyOf route) (map routeKeyOf routes) ->
  groupOf (routes ++ [route]) (routeKeyOf route) = accumulate route (newGroup route).
Proof.
  intros H. unfold groupOf. rewrite membersOf_snoc, String.eqb_refl.
  rewrite (membersOf_nil _ _ H). reflexivity.
Qed.

Lemma groupOf_snoc_old (routes : list FerryRoute) (route : FerryRoute) :
  In (routeKeyOf route) (map routeKeyOf routes) ->
  groupOf (routes ++ [route]) (routeKeyOf route)
  = accumulate route (groupOf routes (routeKeyOf route)).
Proof.
  intros H. unfold groupOf. rewrite membersOf_snoc, String.eqb_refl.
  destruct (membersOf_cons _ _ H) as (r & l & E).
  unfold accumulate.
  cbn [routeKey departure arrival schedules companies minPrice totalSchedules].
  f_equal.
  - now rewrite E.
  - now rewrite E.
  - rewrite map_app. cbn [map].
    rewrite (firstSeen_snoc String.eqb).
    unfold includes.
    now rewrite (existsb_firstSeen String.eqb String.eqb_eq).
  - unfold runningMin. now rewrite fold_left_app.
  - rewrite length_app. simpl. apply Nat.add_1_r.
Qed.

(** The map after the loop over the rows: one entry per key, in the order
    in which the keys first occur, holding the group read off the input. *)
Lemma fold_addRoute (routes : list FerryRoute) :
  fold_left addRoute routes GroupMap.empty
  = map (fun k => (k, groupOf routes k))
        (firstSeen String.eqb (map routeKeyOf routes)).
Proof.
  induction routes as [|route routes IH] using rev_ind; [reflexivity | ].
  rewrite fold_left_app. simpl. rewrite IH. clear IH.
  rewrite map_app. simpl.
  rewrite (firstSeen_snoc String.eqb).
  unfold addRoute. rewrite has_entries.
  rewrite (existsb_firstSeen String.eqb String.eqb_eq).
  pose proof (firstSeen_NoDup String.eqb String.eqb_eq (map routeKeyOf routes)) as Hnd.
  destruct (existsb (String.eqb (routeKeyOf route)) (map routeKeyOf routes)) eqn:E;
    cbn [negb].
  - assert (Hin : In (routeKeyOf route) (map routeKeyOf routes))
      by (now apply (existsb_eqb String.eqb String.eqb_eq)).
    rewrite get_entries by (now apply (firstSeen_In String.eqb String.eqb_eq)).
    rewrite set_entries by assumption.
    rewrite (existsb_firstSeen String.eqb String.eqb_eq), E.
    apply map_ext_in. intros k Hk. f_equal.
    destruct (String.eqb_spec k (routeKeyOf route)) as [-> | Hne].
    + symmetry. now apply groupOf_snoc_old.
    + symmetry. apply groupOf_snoc_other. now apply String.eqb_neq.
  - assert (Hnot : ~ In (routeKeyOf route) (map routeKeyOf routes)).
    { rewrite <- (existsb_eqb String.eqb String.eqb_eq). congruence. }
    assert (Hhas : GroupMap.has
                     (map (fun k => (k, groupOf routes k))
                          (firstSeen String.eqb (map routeKeyOf routes)))
                     (routeKeyOf route) = false).
    { now rewrite has_entries, (existsb_firstSeen String.eqb String.eqb_eq). }
    rewrite set_absent by assumption.
    rewrite get_last, set_last by assumption.
    rewrite map_app. simpl. f_equal.
    + apply map_ext_in. intros k Hk. f_equal. symmetry.
      apply groupOf_snoc_other. apply String.eqb_neq. intros ->.
      apply Hnot. apply (firstSeen_In String.eqb String.eqb_eq). exact Hk.
    + now rewrite groupOf_snoc_new.
Qed.

(** ** The order of numbers *)

Ltac number_cases :=
  repeat match goal with
         | n : number |- _ => destruct n
         end;
  simpl in *; try congruence; try discriminate;
  rewrite ?Z.ltb_lt, ?Z.ltb_ge in *; try lia.

Lemma lessThan_irrefl (a : number) : lessThan a a = false.
Proof. destruct a; simpl; trivial. apply Z.ltb_irrefl. Qed.

Lemma lessThan_asym (a b : number) : lessThan a b = true -> lessThan b a = false.
Proof. intros H. number_cases. Qed.

Lemma lessThan_not_NaN (a b : number) : lessThan a b = true -> a <> NaN.
Proof. intros H. number_cases. Qed.

(** [b <= a] and [c <= b] give [c <= a], when [b] is a number. *)
Lemma not_lessThan_trans (a b c : number) :
  b <> NaN -> lessThan a b = false -> lessThan b c = false -> lessThan a c = false.
Proof. intros Hb H1 H2. number_cases. Qed.

(** ** Fares *)

Lemma stripNonDigits_empty (fare : string) :
  hasDigit fare = false <-> Str.stripNonDigits fare = "".
Proof.
  unfold hasDigit, Str.stripNonDigits.
  induction fare as [|c s IH]; simpl; [tauto | ].
  destruct (Str.isDigit c); simpl; [ | exact IH].
  split; discriminate.
Qed.

Lemma toDouble_not_NaN (z : Z) : toDouble z <> NaN.
Proof.
  unfold toDouble.
  repeat match goal with |- context [if ?b then _ else _] => destruct b end;
    discriminate.
Qed.

(** A fare without a digit reads as [NaN], a fare with a digit as a number. *)
Lemma adultFareOf_NaN (route : FerryRoute) :
  adultFareOf route = NaN <-> hasDigit (adult_fare route) = false.
Proof.
  unfold adultFareOf, parseInt. rewrite stripNonDigits_empty.
  destruct (String.eqb_spec (Str.stripNonDigits (adult_fare route)) "") as [E | E].
  - tauto.
  - split; [intros H; now apply toDouble_not_NaN in H | contradiction].
Qed.

Lemma runningMin_spec (rows : list FerryRoute) :
  forall start, start <> NaN ->
  let m := runningMin rows start in
  m <> NaN
  /\ lessThan start m = false
  /\ (forall r, In r rows -> lessThan (adultFareOf r) m = false)
  /\ (m = start
      \/ exists r, In r rows /\ hasDigit (adult_fare r) = true /\ m = adultFareOf r).
Proof.
  induction rows as [|r0 rows IH]; intros start Hs; simpl.
  - repeat split; auto using lessThan_irrefl. contradiction.
  - set (m1 := if lessThan (adultFareOf r0) start then adultFareOf r0 else start).
    assert (Hm1 : m1 <> NaN).
    { unfold m1. destruct (lessThan (adultFareOf r0) start) eqn:E; [ | assumption].
      now apply lessThan_not_NaN in E. }
    assert (Hle : lessThan start m1 = false).
    { unfold m1. destruct (lessThan (adultFareOf r0) start) eqn:E.
      - now apply lessThan_asym. - apply lessThan_irrefl. }
    assert (Hr0 : lessThan (adultFareOf r0) m1 = false).
    { unfold m1. destruct (lessThan (adultFareOf r0) start) eqn:E.
      - apply lessThan_irrefl. - assumption. }
    destruct (IH m1 Hm1) as (Hn & Hlow & Hall & Hatt).
    fold (runningMin rows m1). repeat split.
    + assumption.
    + now apply not_lessThan_trans with m1.
    + intros r [<- | Hr]; [now apply not_lessThan_trans with m1 | now apply Hall].
    + destruct Hatt as [-> | (r & Hr & Hd & ->)].
      * unfold m1. destruct (lessThan (adultFareOf r0) start) eqn:E; [ | now left].
        right. exists r0. repeat split; [now left | ].
        apply lessThan_not_NaN in E. rewrite adultFareOf_NaN in E.
        now destruct (hasDigit (adult_fare r0)).
      * right. exists r. repeat split; auto.
Qed.

(** The running minimum does not depend on the order of the rows. *)
Lemma runningMin_Permutation (rows rows' : list FerryRoute) :
  Permutation rows rows' ->
  forall start, runningMin rows start = runningMin rows' start.
Proof.
  unfold runningMin.
  induction 1 as [ | x l l' _ IH | x y l | l l' l'' _ IH1 _ IH2]; intros start; simpl.
  - reflexivity.
  - apply IH.
  - f_equal.
    destruct (adultFareOf x) as [fx| |], (adultFareOf y) as [fy| |],
             start as [s| |]; simpl; trivial;
      repeat match goal with
             | |- context [?a <? ?b] => destruct (Z.ltb_spec a b); simpl
             end; trivial; try (f_equal; lia); try lia.
  - now rewrite IH1.
Qed.

(** ** Rounding to a double *)

Lemma toDouble_rounded (z : Z) :
  toDouble z = if z <? maxExact then Num z
               else if 2 ^ 1024 <=? rounded z then Infinity else Num (rounded z).
Proof. reflexivity. Qed.

Lemma toDouble_small (z : Z) : z < maxExact -> toDouble z = Num z.
Proof.
  intros H. rewrite toDouble_rounded. apply Z.ltb_lt in H. now rewrite H.
Qed.

(** An integer of 2^53 or more is rounded to a multiple of a power of two:
    the quotient has 53 bits and goes up by one at most. *)
Lemma rounded_spec (z : Z) :
  maxExact <= z ->
  let e := Z.log2 z - 52 in
  1 <= e
  /\ exists q q', 2 ^ 52 <= q < 2 ^ 53
       /\ q <= q' <= q + 1 /\ rounded z = q' * 2 ^ e
       /\ q = z / 2 ^ e
       /\ q' = (if z - q * 2 ^ e <? 2 ^ (e - 1) then q
                else if 2 ^ (e - 1) <? z - q * 2 ^ e then q + 1
                else if Z.even q then q else q + 1).
Proof.
  intros Hz e. unfold maxExact in Hz.
  assert (Hpos : 0 < z) by lia.
  pose proof (Z.log2_spec z Hpos) as [Hlo Hhi].
  assert (Hl : 53 <= Z.log2 z) by (apply Z.log2_le_pow2; assumption).
  assert (He : 1 <= e) by (unfold e; lia).
  split; [exact He | ].
  assert (Hp : 0 < 2 ^ e) by (apply Z.pow_pos_nonneg; lia).
  assert (E1 : 2 ^ Z.log2 z = 2 ^ 52 * 2 ^ e).
  { rewrite <- Z.pow_add_r by lia. f_equal. unfold e. lia. }
  assert (E2 : 2 ^ Z.succ (Z.log2 z) = 2 ^ 53 * 2 ^ e).
  { rewrite <- Z.pow_add_r by lia. f_equal. unfold e. lia. }
  set (q := z / 2 ^ e).
  assert (Hq : 2 ^ 52 <= q < 2 ^ 53).
  { split.
    - apply Z.div_le_lower_bound; [assumption | ]. rewrite Z.mul_comm. lia.
    - apply Z.div_lt_upper_bound; [assumption | ]. rewrite Z.mul_comm. lia. }
  exists q. eexists. split; [exact Hq | ].
  split; [ | split; [ | split; reflexivity]].
  - destruct (_ <? _); [lia | ]. destruct (_ <? _); [lia | ].
    destruct (Z.even q); lia.
  - unfold rounded. fold e. rewrite !Z.shiftr_div_pow2, !Z.shiftl_mul_pow2 by lia.
    fold q. rewrite Z.mul_1_l. reflexivity.
Qed.

Lemma rounded_mono (z1 z2 : Z) :
  maxExact <= z1 -> z1 <= z2 -> rounded z1 <= rounded z2.
Proof.
  intros H1 H12.
  assert (H2 : maxExact <= z2) by lia.
  destruct (rounded_spec z1 H1) as (He1 & q1 & q1' & Hq1 & Hq1' & -> & Eq1 & Eq1').
  destruct (rounded_spec z2 H2) as (He2 & q2 & q2' & Hq2 & Hq2' & -> & Eq2 & Eq2').
  assert (Hle : Z.log2 z1 - 52 <= Z.log2 z2 - 52).
  { pose proof (Z.log2_le_mono z1 z2 H12). lia. }
  set (e1 := Z.log2 z1 - 52) in *. set (e2 := Z.log2 z2 - 52) in *.
  assert (Hp1 : 0 < 2 ^ e1) by (apply Z.pow_pos_nonneg; lia).
  destruct (Z.eq_dec e1 e2) as [E | Hne].
  - rewrite <- E in *. apply Z.mul_le_mono_nonneg_r; [lia | ].
    assert (q1 <= q2) by (rewrite Eq1, Eq2; apply Z.div_le_mono; lia).
    destruct (Z.eq_dec q1 q2) as [Eq | Hq]; [ | lia].
    subst q1' q2'. rewrite <- Eq in *.
    set (h := 2 ^ (e1 - 1)) in *.
    destruct (Z.ltb_spec (z1 - q1 * 2 ^ e1) h), (Z.ltb_spec h (z1 - q1 * 2 ^ e1)),
             (Z.ltb_spec (z2 - q1 * 2 ^ e1) h), (Z.ltb_spec h (z2 - q1 * 2 ^ e1)),
             (Z.even q1); lia.
  - assert (Hlt : e1 + 1 <= e2) by lia.
    assert (2 ^ (e1 + 1) <= 2 ^ e2) by (apply Z.pow_le_mono_r; lia).
    rewrite Z.pow_add_r in * by lia.
    change (2 ^ 1) with 2 in *.
    assert (q1' * 2 ^ e1 <= 2 ^ 53 * 2 ^ e1) by (apply Z.mul_le_mono_nonneg_r; lia).
    assert (2 ^ 52 * 2 ^ e2 <= q2' * 2 ^ e2) by (apply Z.mul_le_mono_nonneg_r; lia).
    lia.
Qed.

Lemma rounded_lower (z : Z) : maxExact <= z -> maxExact <= rounded z.
Proof.
  intros H.
  destruct (rounded_spec z H) as (He & q & q' & Hq & Hq' & -> & _).
  set (e := Z.log2 z - 52) in *.
  assert (2 ^ 1 <= 2 ^ e) by (apply Z.pow_le_mono_r; lia).
  change (2 ^ 1) with 2 in *.
  assert (2 ^ 52 * 2 ^ e <= q' * 2 ^ e) by (apply Z.mul_le_mono_nonneg_r; lia).
  unfold maxExact. lia.
Qed.

(** Rounding to a double keeps the order of integers. *)
Lemma toDouble_mono (z1 z2 : Z) :
  z1 <= z2 -> lessThan (toDouble z2) (toDouble z1) = false.
Proof.
  intros H. rewrite !toDouble_rounded.
  destruct (Z.ltb_spec z2 maxExact) as [H2 | H2].
  - destruct (Z.ltb_spec z1 maxExact); [ | lia]. cbn [lessThan]. apply Z.ltb_ge. lia.
  - destruct (Z.leb_spec (2 ^ 1024) (rounded z2)) as [Hi | Hi]; [reflexivity | ].
    destruct (Z.ltb_spec z1 maxExact) as [H1 | H1].
    + cbn [lessThan]. apply Z.ltb_ge. pose proof (rounded_lower z2 H2). lia.
    + pose proof (rounded_mono z1 z2 H1 H).
      destruct (Z.leb_spec (2 ^ 1024) (rounded z1)); [lia | ].
      cbn [lessThan]. apply Z.ltb_ge. lia.
Qed.

(** Two numbers neither of which is below the other are the same number. *)
Lemma lessThan_antisym (a b : number) :
  a <> NaN -> b <> NaN -> lessThan a b = false -> lessThan b a = false -> a = b.
Proof.
  intros Ha Hb H1 H2.
  destruct a as [x | | ], b as [y | | ]; cbn [lessThan] in *;
    try congruence.
  apply Z.ltb_ge in H1, H2. f_equal. lia.
Qed.

(** A fare with a digit reads as the double nearest to the whole number
    its digits write. *)
Lemma adultFareOf_value (route : FerryRoute) :
  hasDigit (adult_fare route) = true ->
  adultFareOf route = toDouble (fareValue route) /\ 0 <= fareValue route.
Proof.
  intros H. unfold adultFareOf, parseInt, fareValue.
  destruct (String.eqb_spec (Str.stripNonDigits (adult_fare route)) "") as [E | _].
  - apply stripNonDigits_empty in E. congruence.
  - split; [reflexivity | ].
    unfold Str.decimal. apply decimalFrom_bounds; [lia | ].
    unfold Str.stripNonDigits. clear H.
    induction (adult_fare route) as [|c t IH]; [reflexivity | ].
    cbn [Str.filter]. destruct (Str.isDigit c) eqn:Hc; [ | exact IH].
    cbn [Str.all]. now rewrite Hc, IH.
Qed.

(** Among rows one of which has a digit in its fare, one writes the least
    whole number. *)
Lemma least_fare_exists (rows : list FerryRoute) :
  (exists s, In s rows /\ hasDigit (adult_fare s) = true) ->
  exists least, In least rows /\ hasDigit (adult_fare least) = true
                /\ forall s, In s rows -> hasDigit (adult_fare s) = true ->
                             fareValue least <= fareValue s.
Proof.
  induction rows as [|r rows IH]; intros (s & Hs & Hd); [contradiction | ].
  destruct (existsb (fun x => hasDigit (adult_fare x)) rows) eqn:Hex.
  - apply existsb_exists in Hex.
    destruct (IH Hex) as (m & Hm & Hdm & Hmin).
    destruct (hasDigit (adult_fare r)) eqn:Hr.
    + destruct (Z_le_gt_dec (fareValue r) (fareValue m)) as [Hle | Hgt].
      * exists r. repeat split; [now left | assumption | ].
        intros x [<- | Hx] Hdx; [lia | ]. specialize (Hmin x Hx Hdx). lia.
      * exists m. repeat split; [now right | assumption | ].
        intros x [<- | Hx] Hdx; [lia | now apply Hmin].
    + exists m. repeat split; [now right | assumption | ].
      intros x [<- | Hx] Hdx; [congruence | now apply Hmin].
  - assert (Hnone : forall x, In x rows -> hasDigit (adult_fare x) = false).
    { intros x Hx. destruct (hasDigit (adult_fare x)) eqn:E; [ | reflexivity].
      rewrite <- Hex. symmetry. apply existsb_exists. now exists x. }
    destruct Hs as [<- | Hs]; [ | rewrite (Hnone s Hs) in Hd; discriminate].
    exists r. repeat split; [now left | assumption | ].
    intros x [<- | Hx] Hdx; [lia | ]. rewrite (Hnone x Hx) in Hdx. discriminate.
Qed.

(** The running minimum of the fares is the double of the least whole
    number the fares write. *)
Lemma runningMin_least (rows : list FerryRoute) (least : FerryRoute) :
  In least rows -> hasDigit (adult_fare least) = true ->
  (forall s, In s rows -> hasDigit (adult_fare s) = true ->
             fareValue least <= fareValue s) ->
  runningMin rows Infinity = toDouble (fareValue least).
Proof.
  intros Hin Hd Hmin.
  destruct (runningMin_spec rows Infinity) as (Hn & _ & Hlow & Hatt); [discriminate | ].
  cbv zeta in *.
  destruct (adultFareOf_value least Hd) as (El & _).
  assert (Hl := Hlow least Hin). rewrite El in Hl.
  destruct Hatt as [E | (r & Hr & Hdr & E)].
  - rewrite E in *. pose proof (toDouble_not_NaN (fareValue least)).
    destruct (toDouble (fareValue least)); cbn [lessThan] in Hl; congruence.
  - destruct (adultFareOf_value r Hdr) as (Er & _).
    rewrite E, Er in *.
    apply lessThan_antisym; trivial using toDouble_not_NaN.
    apply toDouble_mono. now apply Hmin.
Qed.

(** ** The sort *)

Section SortFacts.

Context {A : Type} (comparefn : A -> A -> Z).

Lemma insert_Permutation (x : A) (l : list A) :
  Permutation (insert comparefn x l) (x :: l).
Proof.
  induction l as [|y l IH]; simpl; [reflexivity | ].
  destruct (comparefn x y <=? 0); [reflexivity | ].
  rewrite IH. apply perm_swap.
Qed.

Lemma sort_Permutation (l : list A) : Permutation (sort comparefn l) l.
Proof.
  induction l as [|x l IH]; simpl; [reflexivity | ].
  rewrite insert_Permutation. now constructor.
Qed.

Lemma sort_In (x : A) (l : list A) : In x (sort comparefn l) <-> In x l.
Proof.
  split; apply Permutation_in;
    [apply sort_Permutation | apply Permutation_sym, sort_Permutation].
Qed.

Lemma sort_length (l : list A) : List.length (sort comparefn l) = List.length l.
Proof. apply Permutation_length, sort_Permutation. Qed.

(** Where the comparator follows a numeric key, insertion keeps a list
    sorted by that key and the sort arranges by it. *)
Variable key : A -> Z.

Lemma insert_sorted (x : A) (l : list A) :
  (forall y, In y l -> ((comparefn x y <=? 0) = true <-> key x <= key y)) ->
  StronglySorted (fun a b => key a <= key b) l ->
  StronglySorted (fun a b => key a <= key b) (insert comparefn x l).
Proof.
  induction l as [|y l IH]; intros Hc Hs; simpl.
  - repeat constructor.
  - inversion_clear Hs as [|? ? Hl Hy].
    destruct (comparefn x y <=? 0) eqn:E.
    + apply (Hc y (or_introl eq_refl)) in E.
      constructor; [now constructor | ].
      constructor; [exact E | ].
      rewrite Forall_forall in *. intros z Hz. specialize (Hy z Hz).
      cbv beta in *. lia.
    + assert (key y <= key x).
      { destruct (Z.le_gt_cases (key x) (key y)) as [Hle | Hgt]; [ | lia].
        apply (Hc y (or_introl eq_refl)) in Hle. congruence. }
      constructor.
      * apply IH; [ | assumption]. intros z Hz. apply Hc. now right.
      * rewrite Forall_forall in *. intros z Hz.
        apply (Permutation_in _ (insert_Permutation x l)) in Hz.
        destruct Hz as [<- | Hz]; [assumption | now apply Hy].
Qed.

Lemma sort_sorted (l : list A) :
  (forall x y, In x l -> In y l ->
               ((comparefn x y <=? 0) = true <-> key x <= key y)) ->
  StronglySorted (fun a b => key a <= key b) (sort comparefn l).
Proof.
  induction l as [|x l IH]; intros Hc; simpl.
  - constructor.
  - apply insert_sorted.
    + intros y Hy. apply (proj1 (sort_In y l)) in Hy.
      apply Hc; [now left | now right].
    + apply IH. intros a b Ha Hb. apply Hc; now right.
Qed.

(** The sort is stable: the elements of one key keep their order. *)
Lemma insert_stable (m : Z) (x : A) (l : list A) :
  (forall y, In y l -> ((comparefn x y <=? 0) = true <-> key x <= key y)) ->
  filter (fun a => key a =? m) (insert comparefn x l)
  = filter (fun a => key a =? m) (x :: l).
Proof.
  induction l as [|y l IH]; intros Hc; [reflexivity | ].
  cbn [insert]. destruct (comparefn x y <=? 0) eqn:E; [reflexivity | ].
  assert (Hlt : key y < key x).
  { destruct (Z.le_gt_cases (key x) (key y)) as [Hle | Hgt]; [ | lia].
    apply (Hc y (or_introl eq_refl)) in Hle. congruence. }
  cbn [filter]. rewrite IH by (intros z Hz; apply Hc; now right).
  cbn [filter].
  destruct (Z.eqb_spec (key x) m), (Z.eqb_spec (key y) m); try reflexivity. lia.
Qed.

Lemma sort_stable (m : Z) (l : list A) :
  (forall x y, In x l -> In y l ->
               ((comparefn x y <=? 0) = true <-> key x <= key y)) ->
  filter (fun a => key a =? m) (sort comparefn l) = filter (fun a => key a =? m) l.
Proof.
  induction l as [|x l IH]; intros Hc; [reflexivity | ].
  cbn [sort]. rewrite insert_stable.
  - cbn [filter]. rewrite IH by (intros a b Ha Hb; apply Hc; now right).
    reflexivity.
  - intros y Hy. apply (proj1 (sort_In y l)) in Hy.
    apply Hc; [now left | now right].
Qed.

End SortFacts.

Lemma sorted_unique {A : Type} (key : A -> Z) (l : list A) :
  forall l', StronglySorted (fun a b => key a <= key b) l ->
             StronglySorted (fun a b => key a <= key b) l' ->
             Permutation l l' -> NoDup (map key l) -> l = l'.
Proof.
  induction l as [|x t IH]; intros l' Hs Hs' Hp Hnd.
  - apply Permutation_nil in Hp. now subst.
  - destruct l' as [|y t'].
    { apply Permutation_sym, Permutation_nil in Hp. discriminate. }
    inversion_clear Hs as [|? ? Hst Hx]. inversion_clear Hs' as [|? ? Hst' Hy].
    rewrite Forall_forall in Hx, Hy.
    assert (Hxy : x = y).
    { assert (Hin : In x (y :: t')) by (apply (Permutation_in _ Hp); now left).
      assert (Hin' : In y (x :: t))
        by (apply (Permutation_in _ (Permutation_sym Hp)); now left).
      destruct Hin as [-> | Hxt']; [reflexivity | ].
      destruct Hin' as [-> | Hyt]; [reflexivity | ].
      assert (Hkey : key x = key y)
        by (specialize (Hx y Hyt); specialize (Hy x Hxt'); lia).
      simpl in Hnd. inversion_clear Hnd as [|? ? Hnot _].
      exfalso. apply Hnot. rewrite Hkey. now apply in_map. }
    subst y. f_equal. apply IH; trivial.
    + now apply Permutation_cons_inv in Hp.
    + simpl in Hnd. now inversion Hnd.
Qed.

(** ** The groups of an input *)

Lemma list_sum_members (routes : list FerryRoute) (keys : list string) :
  NoDup keys ->
  list_sum (map (fun k => List.length (membersOf k routes)) keys)
  = List.length (filter (fun r => existsb (String.eqb (routeKeyOf r)) keys) routes).
Proof.
  induction 1 as [|a keys Ha Hnd IH]; simpl.
  - induction routes; simpl; auto.
  - rewrite IH. clear IH Hnd. unfold membersOf.
    induction routes as [|r routes IHr]; simpl; [reflexivity | ].
    rewrite (String.eqb_sym (routeKeyOf r) a).
    destruct (String.eqb a (routeKeyOf r)) eqn:E; simpl.
    + apply String.eqb_eq in E. subst a.
      destruct (existsb (String.eqb (routeKeyOf r)) keys) eqn:Ex.
      * apply (existsb_eqb String.eqb String.eqb_eq) in Ex. contradiction.
      * simpl. now rewrite <- IHr.
    + destruct (existsb (String.eqb (routeKeyOf r)) keys); simpl; rewrite <- IHr; lia.
Qed.

Lemma filter_all {A : Type} (p : A -> bool) (l : list A) :
  (forall x, In x l -> p x = true) -> filter p l = l.
Proof.
  induction l as [|a l IH]; simpl; intros H; [reflexivity | ].
  rewrite (H a (or_introl eq_refl)), IH; auto.
Qed.

Section GroupingFacts.

Variable localeCompare : string -> string -> Z.

Lemma groupRoutesByPath_eq (routes : list FerryRoute) :
  groupRoutesByPath localeCompare routes
  = map (fun k => sortSchedules localeCompare (groupOf routes k))
        (firstSeen String.eqb (map routeKeyOf routes)).
Proof.
  unfold groupRoutesByPath, GroupMap.values.
  rewrite fold_addRoute, !map_map. reflexivity.
Qed.

(** Each group of the result is the group of a key of the input, sorted. *)
Lemma group_inv (routes : list FerryRoute) (g : RouteGroup) :
  In g (groupRoutesByPath localeCompare routes) ->
  exists k, In k (map routeKeyOf routes)
            /\ g = sortSchedules localeCompare (groupOf routes k).
Proof.
  rewrite groupRoutesByPath_eq, in_map_iff.
  intros (k & <- & Hk). exists k. split; [ | reflexivity].
  exact (proj1 (firstSeen_In String.eqb String.eqb_eq k _) Hk).
Qed.

(** C7, as the code has it: the schedule counts of the groups add up to
    the number of input rows, as lengths of the schedule lists and as
    [totalSchedules].  On the search page the input is [response.data],
    the rows of one page, and the total shown is [response.total] (0 when
    there is none): the counts add up to the total exactly when the
    response carries as many rows as its total says. *)
Theorem schedule_counts_sum_to_input (routes : list FerryRoute) :
  list_sum (map (fun g => List.length (schedules g))
                (groupRoutesByPath localeCompare routes))
  = List.length routes
  /\ list_sum (map totalSchedules (groupRoutesByPath localeCompare routes))
     = List.length routes
  /\ forall state response,
       Home.success response = true -> Home.data response = routes ->
       list_sum (map totalSchedules
                     (Home.routeGroups (Home.handleSearch localeCompare state response)))
       = List.length routes
       /\ Home.total (Home.pagination (Home.handleSearch localeCompare state response))
          = Home.orNumber (Home.responseTotal (Home.counts response)) 0
       /\ (Z.of_nat (list_sum (map totalSchedules
                                 (Home.routeGroups
                                    (Home.handleSearch localeCompare state response))))
           = Home.total (Home.pagination (Home.handleSearch localeCompare state response))
           <-> Home.orNumber (Home.responseTotal (Home.counts response)) 0
               = Z.of_nat (List.length routes)).
Proof.
  assert (E : list_sum (map (fun k => List.length (membersOf k routes))
                            (firstSeen String.eqb (map routeKeyOf routes)))
              = List.length routes).
  { rewrite list_sum_members by apply (firstSeen_NoDup String.eqb String.eqb_eq).
    rewrite filter_all; [reflexivity | ].
    intros r Hr. apply (existsb_eqb String.eqb String.eqb_eq).
    apply (firstSeen_In String.eqb String.eqb_eq). now apply in_map. }
  assert (T : list_sum (map totalSchedules (groupRoutesByPath localeCompare routes))
              = List.length routes).
  { rewrite groupRoutesByPath_eq, !map_map. exact E. }
  split; [ | split; [exact T | ]].
  - rewrite groupRoutesByPath_eq, !map_map. cbn [schedules sortSchedules groupOf].
    rewrite <- E. f_equal. apply map_ext. intros k. apply sort_length.
  - intros state response Hs Hd. unfold Home.handleSearch. rewrite Hs, Hd.
    cbn [Home.routeGroups Home.pagination Home.paginationOf Home.total].
    rewrite T. split; [reflexivity | split; [reflexivity | ]].
    split; intros H; congruence.
Qed.

(** C10: in every group [totalSchedules] is the length of [schedules],
    and [companies] has no duplicate and is the list of the distinct
    companies of the rows of the group, in the order in which the input
    first shows them. *)
Theorem group_counts_and_companies (routes : list FerryRoute) :
  Forall (fun g =>
            totalSchedules g = List.length (schedules g)
            /\ NoDup (companies g)
            /\ (forall c, In c (companies g)
                          <-> exists s, In s (schedules g) /\ company s = c)
            /\ Permutation (schedules g) (membersOf (routeKey g) routes)
            /\ companies g
               = firstSeen String.eqb
                   (map company (membersOf (routeKey g) routes)))
         (groupRoutesByPath localeCompare routes).
Proof.
  apply Forall_forall. intros g Hg.
  destruct (group_inv _ _ Hg) as (k & _ & ->). simpl.
  repeat split.
  - symmetry. apply sort_length.
  - apply (firstSeen_NoDup String.eqb String.eqb_eq).
  - intros H. apply (proj1 (firstSeen_In String.eqb String.eqb_eq _ _)) in H.
    apply in_map_iff in H as (s & E & Hs). exists s.
    split; [now apply sort_In | assumption].
  - intros (s & Hs & <-). apply (firstSeen_In String.eqb String.eqb_eq).
    apply in_map. exact (proj1 (sort_In _ _ _) Hs).
  - apply sort_Permutation.
Qed.

(** Every row of the input is among the schedules of a group. *)
Lemma every_row_grouped (routes : list FerryRoute) (r : FerryRoute) :
  In r routes ->
  exists g, In g (groupRoutesByPath localeCompare routes) /\ In r (schedules g).
Proof.
  intros Hr. exists (sortSchedules localeCompare (groupOf routes (routeKeyOf r))).
  split.
  - rewrite groupRoutesByPath_eq. apply in_map_iff.
    exists (routeKeyOf r). split; [reflexivity | ].
    apply (firstSeen_In String.eqb String.eqb_eq). now apply in_map.
  - cbn [schedules sortSchedules groupOf]. apply sort_In.
    apply filter_In. split; [assumption | apply String.eqb_refl].
Qed.

(** A fare without a digit leaves the least price of its group as it is. *)
Lemma accumulate_no_digit (route : FerryRoute) (group : RouteGroup) :
  hasDigit (adult_fare route) = false ->
  minPrice (accumulate route group) = minPrice group.
Proof.
  intros H. apply adultFareOf_NaN in H. simpl. now rewrite H.
Qed.

(** C3: in every group [minPrice] is the least of the whole numbers that
    the fares of the rows with a digit write (every non-digit stripped,
    the digits parsed): it is the number of one of these rows, no such row
    writes a smaller one, and it is that whole number itself below 2^53
    (the double nearest to it otherwise).  None of the parsed values is
    below it; it is [Infinity], the value a group starts with, when no row
    of the group has a digit, and never [NaN] or 0 for that reason.  A row
    whose fare has no digit leaves [minPrice] alone and is grouped like any
    other. *)
Theorem minPrice_is_least_parsed_fare (routes : list FerryRoute) :
  Forall (fun g =>
            (forall s, In s (schedules g) -> hasDigit (adult_fare s) = true ->
                       lessThan (parseInt (Str.stripNonDigits (adult_fare s)))
                          (minPrice g) = false)
            /\ ((exists s, In s (schedules g) /\ hasDigit (adult_fare s) = true) ->
                exists s, In s (schedules g) /\ hasDigit (adult_fare s) = true
                          /\ minPrice g
                             = parseInt (Str.stripNonDigits (adult_fare s)))
            /\ ((forall s, In s (schedules g) -> hasDigit (adult_fare s) = false) ->
                minPrice g = Infinity)
            /\ minPrice g <> NaN
            /\ ((exists s, In s (schedules g) /\ hasDigit (adult_fare s) = true) ->
                exists least,
                  In least (schedules g) /\ hasDigit (adult_fare least) = true
                  /\ (forall s, In s (schedules g) ->
                                hasDigit (adult_fare s) = true ->
                                fareValue least <= fareValue s)
                  /\ minPrice g = toDouble (fareValue least)
                  /\ (fareValue least < maxExact ->
                      minPrice g = Num (fareValue least))))
         (groupRoutesByPath localeCompare routes)
  /\ (forall fare, hasDigit fare = true ->
                   parseInt (Str.stripNonDigits fare)
                   = toDouble (Str.decimal (Str.stripNonDigits fare))
                   /\ 0 <= Str.decimal (Str.stripNonDigits fare)
                   /\ (Str.decimal (Str.stripNonDigits fare) < maxExact ->
                       parseInt (Str.stripNonDigits fare)
                       = Num (Str.decimal (Str.stripNonDigits fare))))
  /\ parseInt (Str.stripNonDigits "¥1,220") = Num 1220
  /\ (forall route group, hasDigit (adult_fare route) = false ->
                          minPrice (accumulate route group) = minPrice group)
  /\ (forall r, In r routes ->
                exists g, In g (groupRoutesByPath localeCompare routes)
                          /\ In r (schedules g)).
Proof.
  split; [ | split; [ | split; [reflexivity | split;
    [exact accumulate_no_digit | exact (every_row_grouped routes)]]]].
  2:{ intros fare Hd.
      set (route := sailing "" "" "" "" "" fare).
      destruct (adultFareOf_value route Hd) as (E & Hpos).
      split; [exact E | split; [exact Hpos | ]].
      intros Hb. change (adultFareOf route = Num (fareValue route)).
      rewrite E. now apply toDouble_small. }
  apply Forall_forall. intros g Hg.
  destruct (group_inv _ _ Hg) as (k & _ & ->). simpl.
  destruct (runningMin_spec (membersOf k routes) Infinity)
    as (Hn & _ & Hlow & Hatt); [discriminate | ].
  assert (Hin : forall s, In s (sort (compareDeparture localeCompare)
                                     (membersOf k routes))
                          <-> In s (membersOf k routes)) by (intro; apply sort_In).
  repeat split.
  - intros s Hs _. apply Hlow. now apply Hin.
  - intros (s & Hs & Hd).
    destruct Hatt as [E | (r & Hr & Hdr & E)].
    + exists s. repeat split; trivial.
      assert (Hs' : lessThan (adultFareOf s) (runningMin (membersOf k routes) Infinity)
                    = false) by (apply Hlow; now apply Hin).
      assert (adultFareOf s <> NaN).
      { rewrite adultFareOf_NaN. congruence. }
      rewrite E in *.
      change (parseInt (Str.stripNonDigits (adult_fare s))) with (adultFareOf s).
      destruct (adultFareOf s); simpl in *; congruence.
    + exists r. repeat split; trivial. now apply Hin.
  - intros Hnone. destruct Hatt as [E | (r & Hr & Hdr & E)]; [assumption | ].
    apply Hin in Hr. apply Hnone in Hr. congruence.
  - assumption.
  - intros (s & Hs & Hd).
    destruct (least_fare_exists (membersOf k routes)) as (m & Hm & Hdm & Hmin).
    { exists s. split; [now apply Hin | assumption]. }
    pose proof (runningMin_least _ _ Hm Hdm Hmin) as E.
    exists m. split; [now apply Hin | ]. split; [assumption | ].
    split; [intros x Hx; apply Hmin; now apply Hin | ].
    split; [exact E | ].
    intros Hb. rewrite E. now apply toDouble_small.
Qed.

End GroupingFacts.

(** C7, as stated, fails: the first page of a result of 45 sailings, 20 to
    the page, gives groups whose schedule counts add up to 20 under a total
    of 45, with the pager on screen. *)
Lemma paged_response_counts_below_total :
  Home.success firstPageOf45 = true
  /\ List.length (Home.data firstPageOf45) = 20%nat
  /\ list_sum (map totalSchedules
                   (Home.routeGroups
                      (Home.handleSearch codeUnitCompare Home.initialState
                                         firstPageOf45)))
     = 20%nat
  /\ Home.total (Home.pagination
                   (Home.handleSearch codeUnitCompare Home.initialState
                                      firstPageOf45))
     = 45
  /\ Home.pagerShown (Home.pagination
                        (Home.handleSearch codeUnitCompare Home.initialState
                                           firstPageOf45))
     = true
  /\ ~ (forall localeCompare state response,
          Home.success response = true ->
          Z.of_nat (list_sum (map totalSchedules
                                (Home.routeGroups
                                   (Home.handleSearch localeCompare state response))))
          = Home.total (Home.pagination
                          (Home.handleSearch localeCompare state response))).
Proof.
  repeat (split; [reflexivity | ]).
  intros H.
  specialize (H codeUnitCompare Home.initialState firstPageOf45 eq_refl).
  vm_compute in H. discriminate H.
Qed.

(** The scenario of the specification: the two sailings from Takamatsu to
    Naoshima make one group, sorted, with the least fare 1220. *)
Example takamatsu_naoshima :
  map (fun g => (routeKey g, map departure_time (schedules g), minPrice g,
                 totalSchedules g))
      (groupRoutesByPath codeUnitCompare [night; morning])
  = [("Takamatsu-Naoshima", ["08:00"; "23:50"], Num 1220, 2%nat)].
Proof. reflexivity. Qed.

(** A group whose only fare has no digit keeps [Infinity]. *)
Example enquire_has_no_price :
  map minPrice (groupRoutesByPath codeUnitCompare [enquire]) = [Infinity].
Proof. reflexivity. Qed.

(** ** Groups and pairs of ports *)

Lemma pathEqb_eq (p q : string * string) : pathEqb p q = true <-> p = q.
Proof.
  destruct p as [a b], q as [c d]. unfold pathEqb. simpl.
  rewrite andb_true_iff, !String.eqb_eq. split.
  - intros [-> ->]. reflexivity.
  - intros [= -> ->]. split; reflexivity.
Qed.

Lemma firstSeen_map_inj {A B : Type} (eqbA : A -> A -> bool) (eqbB : B -> B -> bool)
      (f : A -> B) (l : list A) :
  (forall x y, eqbA x y = true <-> x = y) ->
  (forall x y, eqbB x y = true <-> x = y) ->
  (forall x y, In x l -> In y l -> f x = f y -> x = y) ->
  firstSeen eqbB (map f l) = map f (firstSeen eqbA l).
Proof.
  intros HA HB. induction l as [|a l IH]; intros Hinj; simpl; [reflexivity | ].
  f_equal. rewrite IH by (intros x y Hx Hy; apply Hinj; now right).
  clear IH.
  assert (Hsub : forall x, In x (firstSeen eqbA l) -> In x l)
    by (intros x Hx; exact (proj1 (firstSeen_In eqbA HA x l) Hx)).
  induction (firstSeen eqbA l) as [|b t IHt]; simpl; [reflexivity | ].
  assert (E : eqbB (f b) (f a) = eqbA b a).
  { apply eq_true_iff_eq. rewrite HA, HB. split; [ | now intros ->].
    apply Hinj; [right; apply Hsub; now left | now left]. }
  rewrite E. destruct (eqbA b a); simpl;
    rewrite IHt by (intros x Hx; apply Hsub; now right); reflexivity.
Qed.

(** Where no two pairs of ports of the input share a route key, the groups
    are the pairs of ports in the order of their first occurrence, and the
    schedules of a group are the rows of its pair. *)
Lemma groups_follow_paths (localeCompare : string -> string -> Z)
      (routes : list FerryRoute) :
  keysTellPaths routes ->
  map pathOfGroup (groupRoutesByPath localeCompare routes)
  = firstSeen pathEqb (map pathOf routes)
  /\ Forall (fun g => forall s, In s (schedules g)
                                <-> In s routes /\ pathOf s = pathOfGroup g)
            (groupRoutesByPath localeCompare routes).
Proof.
  intros Hkeys.
  assert (Hhead : forall k, In k (map routeKeyOf routes) ->
            exists r0, In r0 routes /\ routeKeyOf r0 = k
                       /\ pathOfGroup (sortSchedules localeCompare (groupOf routes k))
                          = pathOf r0).
  { intros k Hk. destruct (membersOf_cons _ _ Hk) as (r0 & l & E).
    assert (Hin : In r0 (membersOf k routes)) by (rewrite E; now left).
    apply filter_In in Hin as [Hin Hkey]. apply String.eqb_eq in Hkey.
    exists r0. repeat split; trivial.
    unfold pathOfGroup, groupOf. simpl. now rewrite E. }
  split.
  - rewrite groupRoutesByPath_eq, map_map.
    replace (map routeKeyOf routes) with (map keyOfPath (map pathOf routes))
      by (rewrite map_map; reflexivity).
    rewrite (firstSeen_map_inj pathEqb String.eqb keyOfPath _ pathEqb_eq String.eqb_eq).
    + rewrite map_map.
      transitivity (map (fun p => p) (firstSeen pathEqb (map pathOf routes)));
        [ | apply map_id].
      apply map_ext_in. intros p Hp.
      apply (proj1 (firstSeen_In pathEqb pathEqb_eq _ _)) in Hp.
      apply in_map_iff in Hp as (r & <- & Hr).
      change (keyOfPath (pathOf r)) with (routeKeyOf r).
      destruct (Hhead (routeKeyOf r) (in_map _ _ _ Hr)) as (r0 & Hr0 & Hk0 & ->).
      now apply Hkeys.
    + intros p q Hp Hq. apply in_map_iff in Hp as (r & <- & Hr).
      apply in_map_iff in Hq as (r' & <- & Hr'). now apply Hkeys.
  - apply Forall_forall. intros g Hg.
    destruct (group_inv _ _ _ Hg) as (k & Hk & ->).
    destruct (Hhead k Hk) as (r0 & Hr0 & Hk0 & ->).
    intros s. cbn [schedules sortSchedules groupOf]. rewrite sort_In.
    unfold membersOf. rewrite filter_In, String.eqb_eq. subst k. split.
    + intros [Hs E]. split; [assumption | now apply Hkeys].
    + intros [Hs E]. split; [assumption | ].
      change (keyOfPath (pathOf s) = keyOfPath (pathOf r0)). now rewrite E.
Qed.

Example groups_follow_paths_sample :
  map pathOfGroup (groupRoutesByPath codeUnitCompare [midmorning; night; unpadded; morning])
  = [("Uno", "Naoshima"); ("Takamatsu", "Naoshima")].
Proof. reflexivity. Qed.

(** C1: the rows of the paths (A-B, C) and (A, B-C) have the same route
    key: the code returns one group for the two paths, labelled with
    the first path and holding the row of the second. *)
Theorem hyphenated_ports_share_a_group (localeCompare : string -> string -> Z) :
  pathOf hyphenLeft <> pathOf hyphenRight
  /\ exists g, groupRoutesByPath localeCompare [hyphenLeft; hyphenRight] = [g]
               /\ routeKey g = "A-B-C"
               /\ pathOfGroup g = pathOf hyphenLeft
               /\ In hyphenRight (schedules g)
               /\ totalSchedules g = 2%nat.
Proof.
  split; [discriminate | ].
  eexists. split; [reflexivity | ].
  repeat split. cbn.
  destruct (compareDeparture localeCompare hyphenLeft hyphenRight <=? 0);
    simpl; auto.
Qed.

(** ** Departure times written [HH:MM] *)

Lemma isDigit_not_colon (c : ascii) : Str.isDigit c = true -> Ascii.eqb c ":" = false.
Proof.
  intros H. apply Ascii.eqb_neq. intros ->. discriminate.
Qed.

Lemma ascii_compare_digitValue (a b : ascii) :
  Ascii.compare a b = Z.compare (Str.digitValue a) (Str.digitValue b).
Proof.
  unfold Ascii.compare, Str.digitValue. rewrite <- N2Z.inj_compare.
  destruct (Z.compare_spec (Z.of_N (N_of_ascii a)) (Z.of_N (N_of_ascii b)));
    symmetry;
    [apply Z.compare_eq_iff | apply Z.compare_lt_iff | apply Z.compare_gt_iff]; lia.
Qed.

(** The shape of a time written [HH:MM] and its minute of the day. *)
Lemma zeroPadded_inv (time : string) :
  zeroPadded time = true ->
  exists a b c d : ascii,
    time = String a (String b (String ":" (String c (String d EmptyString))))
    /\ Str.isDigit a = true /\ Str.isDigit b = true
    /\ Str.isDigit c = true /\ Str.isDigit d = true
    /\ 10 * Str.digitValue c + Str.digitValue d < 60
    /\ minuteOfDay time
       = Some ((10 * Str.digitValue a + Str.digitValue b) * 60
               + (10 * Str.digitValue c + Str.digitValue d)).
Proof.
  unfold zeroPadded.
  destruct time as [|a [|b [|x [|c [|d [|y t]]]]]]; try discriminate.
  rewrite !andb_true_iff. intros [[Hx Hh] Hm].
  apply Ascii.eqb_eq in Hx. subst x.
  destruct (clockField_spec _ _ Hh) as (_ & Dh & Rh).
  destruct (clockField_spec _ _ Hm) as (_ & Dm & Rm).
  simpl in Dh, Dm. rewrite !andb_true_iff in Dh, Dm.
  destruct Dh as (Da & Db & _), Dm as (Dc & Dd & _).
  unfold Str.decimal in Rh, Rm. simpl in Rh, Rm.
  exists a, b, c, d. repeat split; trivial; try lia.
  unfold minuteOfDay. simpl Str.split.
  rewrite (isDigit_not_colon a Da), (isDigit_not_colon b Db),
          (isDigit_not_colon c Dc), (isDigit_not_colon d Dd).
  rewrite Hh, Hm. cbn [andb]. unfold Str.decimal. cbn [Str.decimalFrom].
  f_equal. lia.
Qed.

Lemma compareDeparture_padded (localeCompare : string -> string -> Z)
      (x y : FerryRoute) :
  digitOrder localeCompare ->
  zeroPadded (departure_time x) = true -> zeroPadded (departure_time y) = true ->
  ((compareDeparture localeCompare x y <=? 0) = true
   <-> departureMinute x <= departureMinute y).
Proof.
  intros Hlc Hx Hy. unfold compareDeparture, departureMinute.
  destruct (zeroPadded_inv _ Hx) as (a & b & c & d & -> & Da & Db & Dc & Dd & Mx & ->).
  destruct (zeroPadded_inv _ Hy) as (e & f & g & h & -> & De & Df & Dg & Dh & My & ->).
  simpl Str.removeFirst.
  rewrite (isDigit_not_colon a Da), (isDigit_not_colon b Db),
          (isDigit_not_colon e De), (isDigit_not_colon f Df).
  set (ta := String a _). set (tb := String e _).
  assert (Hcmp := Hlc ta tb). unfold ta, tb in Hcmp. simpl in Hcmp.
  rewrite Da, Db, Dc, Dd, De, Df, Dg, Dh in Hcmp.
  specialize (Hcmp eq_refl eq_refl).
  rewrite !ascii_compare_digitValue in Hcmp.
  pose proof (digitValue_range a Da). pose proof (digitValue_range b Db).
  pose proof (digitValue_range c Dc). pose proof (digitValue_range d Dd).
  pose proof (digitValue_range e De). pose proof (digitValue_range f Df).
  pose proof (digitValue_range g Dg). pose proof (digitValue_range h Dh).
  fold ta tb in Hcmp |- *.
  rewrite Z.leb_le.
  destruct (Z.compare_spec (localeCompare ta tb) 0) as [E | E | E];
    destruct (Z.compare_spec (Str.digitValue a) (Str.digitValue e));
    destruct (Z.compare_spec (Str.digitValue b) (Str.digitValue f));
    destruct (Z.compare_spec (Str.digitValue c) (Str.digitValue g));
    destruct (Z.compare_spec (Str.digitValue d) (Str.digitValue h));
    try discriminate Hcmp; lia.
Qed.

Lemma StronglySorted_impl_In {A : Type} (R R' : A -> A -> Prop) (l : list A) :
  (forall a b, In a l -> In b l -> R a b -> R' a b) ->
  StronglySorted R l -> StronglySorted R' l.
Proof.
  induction l as [|x l IH]; intros Himp Hs; [constructor | ].
  inversion_clear Hs as [|? ? Hl Hx]. constructor.
  - apply IH; [ | assumption]. intros a b Ha Hb. apply Himp; now right.
  - rewrite Forall_forall in *. intros y Hy.
    apply Himp; [now left | now right | now apply Hx].
Qed.

Lemma departsNoLater_padded (x y : FerryRoute) :
  zeroPadded (departure_time x) = true -> zeroPadded (departure_time y) = true ->
  departureMinute x <= departureMinute y -> departsNoLater x y.
Proof.
  intros Hx Hy. unfold departureMinute, departsNoLater.
  destruct (zeroPadded_inv _ Hx) as (? & ? & ? & ? & _ & _ & _ & _ & _ & _ & ->).
  destruct (zeroPadded_inv _ Hy) as (? & ? & ? & ? & _ & _ & _ & _ & _ & _ & ->).
  trivial.
Qed.

(** With every departure time written [HH:MM], the sort puts the schedules
    of each group in the order of the minute of departure. *)
Lemma sorted_minutes_when_padded (localeCompare : string -> string -> Z)
      (routes : list FerryRoute) (k : string) :
  digitOrder localeCompare ->
  Forall (fun r => zeroPadded (departure_time r) = true) routes ->
  StronglySorted (fun a b => departureMinute a <= departureMinute b)
                 (sort (compareDeparture localeCompare) (membersOf k routes)).
Proof.
  intros Hlc Hpad. rewrite Forall_forall in Hpad.
  apply sort_sorted. intros x y Hx Hy.
  apply filter_In in Hx as [Hx _]. apply filter_In in Hy as [Hy _].
  apply compareDeparture_padded; auto.
Qed.

Lemma sorted_when_padded (localeCompare : string -> string -> Z)
      (routes : list FerryRoute) :
  digitOrder localeCompare ->
  Forall (fun r => zeroPadded (departure_time r) = true) routes ->
  sortedByDeparture (groupRoutesByPath localeCompare routes).
Proof.
  intros Hlc Hpad.
  apply Forall_forall. intros g Hg.
  destruct (group_inv _ _ _ Hg) as (k & _ & ->). simpl.
  apply StronglySorted_impl_In
    with (R := fun a b => departureMinute a <= departureMinute b);
    [ | now apply sorted_minutes_when_padded].
  rewrite Forall_forall in Hpad.
  intros a b Ha Hb. apply departsNoLater_padded; apply Hpad.
  - apply (proj1 (sort_In _ _ _)) in Ha. now apply filter_In in Ha.
  - apply (proj1 (sort_In _ _ _)) in Hb. now apply filter_In in Hb.
Qed.

Lemma filter_Permutation {A : Type} (p : A -> bool) (l l' : list A) :
  Permutation l l' -> Permutation (filter p l) (filter p l').
Proof.
  induction 1 as [ | x l l' _ IH | x y l | l l' l'' _ IH1 _ IH2]; simpl.
  - constructor.
  - destruct (p x); [now constructor | assumption].
  - destruct (p x), (p y); try reflexivity. apply perm_swap.
  - now transitivity (filter p l').
Qed.

(** Comparison by code unit orders digits as assumed of a collation. *)
Lemma codeUnitCompare_digitOrder : digitOrder codeUnitCompare.
Proof.
  intros a b _ _. unfold codeUnitCompare. now destruct (String.compare a b).
Qed.

(** ** The order of the schedules of a group *)

(** C4: the comment of line 57 has the schedules of each group sorted by
    time, and the comparator takes the departure times as they are written,
    the colon removed.  9:05 and 10:00 are clock times of one path, and the
    group lists 10:00 before 9:05 under every collation that orders digits
    as code units do: nothing pads the hour, and ["905"] comes after
    ["1000"].  With every departure time written [HH:MM] the schedules of
    each group are in the order of the minute of departure. *)
Lemma single_digit_hour_sorts_last :
  minuteOfDay (departure_time unpadded) = Some 545
  /\ minuteOfDay (departure_time midmorning) = Some 600
  /\ map (fun g => map departure_time (schedules g))
         (groupRoutesByPath codeUnitCompare [unpadded; midmorning])
     = [["10:00"; "9:05"]]
  /\ ~ (exists localeCompare,
          digitOrder localeCompare
          /\ Forall (fun g => StronglySorted departsNoLater (schedules g))
                    (groupRoutesByPath localeCompare [unpadded; midmorning]))
  /\ (forall localeCompare routes,
        digitOrder localeCompare ->
        Forall (fun r => zeroPadded (departure_time r) = true) routes ->
        Forall (fun g => StronglySorted departsNoLater (schedules g))
               (groupRoutesByPath localeCompare routes)).
Proof.
  split; [reflexivity | split; [reflexivity | split; [reflexivity | split]]].
  - intros (lc & Hlc & Hs).
    rewrite groupRoutesByPath_eq in Hs. cbn in Hs.
    assert (Hcmp := Hlc "905" "1000" eq_refl eq_refl). cbn in Hcmp.
    apply Z.compare_gt_iff in Hcmp.
    inversion_clear Hs as [|? ? Hg _].
    unfold sortSchedules, groupOf, membersOf in Hg. cbn in Hg.
    unfold compareDeparture in Hg. cbn in Hg.
    rewrite (proj2 (Z.leb_gt _ _) Hcmp) in Hg.
    inversion_clear Hg as [|? ? _ Hfirst].
    inversion_clear Hfirst as [|? ? Hle _].
    unfold departsNoLater in Hle. cbn in Hle. lia.
  - intros lc routes Hlc Hpad. now apply sorted_when_padded.
Qed.

(** Sailings written [HH:MM], sorted within their groups. *)
Example padded_schedules_sorted :
  map (fun g => map departure_time (schedules g))
      (groupRoutesByPath codeUnitCompare [night; midmorning; morning; rival])
  = [["08:00"; "08:00"; "23:50"]; ["10:00"]].
Proof. reflexivity. Qed.

(** ** Shuffled input *)

Lemma groupOf_Permutation (routes routes' : list FerryRoute) (k : string) :
  Permutation routes routes' ->
  Permutation (schedules (groupOf routes' k)) (schedules (groupOf routes k))
  /\ Permutation (companies (groupOf routes' k)) (companies (groupOf routes k))
  /\ minPrice (groupOf routes' k) = minPrice (groupOf routes k)
  /\ totalSchedules (groupOf routes' k) = totalSchedules (groupOf routes k).
Proof.
  intros H. simpl.
  assert (Hm : Permutation (membersOf k routes') (membersOf k routes)).
  { apply filter_Permutation. now apply Permutation_sym. }
  repeat split.
  - assumption.
  - apply (firstSeen_Permutation String.eqb String.eqb_eq).
    now apply Permutation_map.
  - now apply runningMin_Permutation.
  - now apply Permutation_length.
Qed.

Lemma sameGroupsUpToOrder_shuffle (localeCompare : string -> string -> Z)
      (routes routes' : list FerryRoute) :
  Permutation routes routes' ->
  sameGroupsUpToOrder (groupRoutesByPath localeCompare routes)
                      (groupRoutesByPath localeCompare routes').
Proof.
  intros H g Hg.
  destruct (group_inv _ _ _ Hg) as (k & Hk & ->).
  exists (sortSchedules localeCompare (groupOf routes' k)).
  destruct (groupOf_Permutation routes routes' k H) as (Hs & Hc & Hp & Ht).
  repeat split; trivial.
  - rewrite groupRoutesByPath_eq. apply in_map_iff.
    exists k. split; [reflexivity | ].
    apply (firstSeen_In String.eqb String.eqb_eq).
    apply Permutation_in with (map routeKeyOf routes); [ | assumption].
    now apply Permutation_map.
  - cbn [schedules sortSchedules]. rewrite !sort_Permutation. exact Hs.
Qed.

(** With departure times written [HH:MM] and no two rows of a group
    leaving at the same minute, the group has the same list of schedules
    for both orders of the input. *)
Lemma same_schedules_when_times_differ (localeCompare : string -> string -> Z)
      (routes routes' : list FerryRoute) (g g' : RouteGroup) :
  digitOrder localeCompare ->
  Permutation routes routes' ->
  Forall (fun r => zeroPadded (departure_time r) = true) routes ->
  In g (groupRoutesByPath localeCompare routes) ->
  In g' (groupRoutesByPath localeCompare routes') ->
  routeKey g' = routeKey g ->
  NoDup (map departureMinute (schedules g)) ->
  schedules g' = schedules g.
Proof.
  intros Hlc Hp Hpad Hg Hg' Hkey Hnd.
  destruct (group_inv _ _ _ Hg) as (k & _ & ->).
  destruct (group_inv _ _ _ Hg') as (k' & _ & ->).
  cbn [routeKey sortSchedules groupOf] in Hkey. subst k'.
  cbn [schedules sortSchedules groupOf] in *.
  symmetry. apply sorted_unique with (key := departureMinute); trivial.
  - now apply sorted_minutes_when_padded.
  - apply sorted_minutes_when_padded; [assumption | ].
    rewrite Forall_forall in *. intros r Hr. apply Hpad.
    apply Permutation_in with routes'; [now apply Permutation_sym | assumption].
  - rewrite !sort_Permutation. now apply filter_Permutation.
Qed.

(** The schedules of a group that leave at one minute are the rows of
    the input with the key of the group that leave at that minute, in the
    order of the input. *)
Lemma same_minute_keeps_input_order (localeCompare : string -> string -> Z)
      (routes : list FerryRoute) :
  digitOrder localeCompare ->
  Forall (fun r => zeroPadded (departure_time r) = true) routes ->
  Forall (fun g => forall m,
            leavingAt m (schedules g) = leavingAt m (membersOf (routeKey g) routes))
         (groupRoutesByPath localeCompare routes).
Proof.
  intros Hlc Hpad. rewrite Forall_forall in Hpad.
  apply Forall_forall. intros g Hg m.
  destruct (group_inv _ _ _ Hg) as (k & _ & ->).
  cbn [schedules routeKey sortSchedules groupOf]. unfold leavingAt.
  apply sort_stable. intros x y Hx Hy.
  apply filter_In in Hx as [Hx _]. apply filter_In in Hy as [Hy _].
  apply compareDeparture_padded; auto.
Qed.

Lemma companies_first_seen (localeCompare : string -> string -> Z)
      (routes : list FerryRoute) :
  Forall (fun g => companies g
                   = firstSeen String.eqb
                       (map company (membersOf (routeKey g) routes)))
         (groupRoutesByPath localeCompare routes).
Proof.
  apply Forall_forall. intros g Hg.
  destruct (group_inv _ _ _ Hg) as (k & _ & ->). reflexivity.
Qed.

Lemma routeKeys_first_seen (localeCompare : string -> string -> Z)
      (routes : list FerryRoute) :
  map routeKey (groupRoutesByPath localeCompare routes)
  = firstSeen String.eqb (map routeKeyOf routes).
Proof.
  rewrite groupRoutesByPath_eq, map_map. cbn [routeKey sortSchedules groupOf].
  apply map_id.
Qed.

(** C6, as the code has it: for a permutation of the input, each route key
    has in both results a group with the same [minPrice] and
    [totalSchedules], the same schedules and the same companies up to
    their order.  Each result has its route keys, and each group its
    companies, in the order in which its own input first shows them.
    When every departure time is written [HH:MM] (and the collation orders
    digits as code units do), every group of both results is sorted by the
    minute of departure, the schedules that leave at one minute keep the
    order of the input they come from, and a group whose rows leave at
    different minutes has the same list of schedules in both. *)
Theorem grouping_of_shuffled_input
        (localeCompare : string -> string -> Z) (routes routes' : list FerryRoute) :
  Permutation routes routes' ->
  sameGroupsUpToOrder (groupRoutesByPath localeCompare routes)
                      (groupRoutesByPath localeCompare routes')
  /\ sameGroupsUpToOrder (groupRoutesByPath localeCompare routes')
                         (groupRoutesByPath localeCompare routes)
  /\ map routeKey (groupRoutesByPath localeCompare routes)
     = firstSeen String.eqb (map routeKeyOf routes)
  /\ map routeKey (groupRoutesByPath localeCompare routes')
     = firstSeen String.eqb (map routeKeyOf routes')
  /\ Permutation (map routeKey (groupRoutesByPath localeCompare routes))
                 (map routeKey (groupRoutesByPath localeCompare routes'))
  /\ Forall (fun g => companies g
                      = firstSeen String.eqb
                          (map company (membersOf (routeKey g) routes)))
            (groupRoutesByPath localeCompare routes)
  /\ Forall (fun g' => companies g'
                       = firstSeen String.eqb
                           (map company (membersOf (routeKey g') routes')))
            (groupRoutesByPath localeCompare routes')
  /\ (digitOrder localeCompare ->
      Forall (fun r => zeroPadded (departure_time r) = true) routes ->
      sortedByDeparture (groupRoutesByPath localeCompare routes)
      /\ sortedByDeparture (groupRoutesByPath localeCompare routes')
      /\ Forall (fun g => forall m,
                   leavingAt m (schedules g)
                   = leavingAt m (membersOf (routeKey g) routes))
                (groupRoutesByPath localeCompare routes)
      /\ Forall (fun g' => forall m,
                   leavingAt m (schedules g')
                   = leavingAt m (membersOf (routeKey g') routes'))
                (groupRoutesByPath localeCompare routes')
      /\ forall g g',
           In g (groupRoutesByPath localeCompare routes) ->
           In g' (groupRoutesByPath localeCompare routes') ->
           routeKey g' = routeKey g ->
           NoDup (map departureMinute (schedules g)) ->
           schedules g' = schedules g).
Proof.
  intros Hp.
  split; [now apply sameGroupsUpToOrder_shuffle | ].
  split; [now apply sameGroupsUpToOrder_shuffle, Permutation_sym | ].
  split; [apply routeKeys_first_seen | ].
  split; [apply routeKeys_first_seen | ].
  split.
  { rewrite !routeKeys_first_seen.
    apply (firstSeen_Permutation String.eqb String.eqb_eq).
    now apply Permutation_map. }
  split; [apply companies_first_seen | ].
  split; [apply companies_first_seen | ].
  intros Hlc Hpad.
  assert (Hpad' : Forall (fun r => zeroPadded (departure_time r) = true) routes').
  { rewrite Forall_forall in *. intros r Hr. apply Hpad.
    apply Permutation_in with routes'; [now apply Permutation_sym | assumption]. }
  split; [now apply sorted_when_padded | ].
  split; [now apply sorted_when_padded | ].
  split; [now apply same_minute_keeps_input_order | ].
  split; [now apply same_minute_keeps_input_order | ].
  intros g g'. now apply same_schedules_when_times_differ.
Qed.

Lemma grouping_of_shuffled_input_witness :
  Permutation [night; enquire; morning; midmorning]
              [midmorning; morning; enquire; night]
  /\ digitOrder codeUnitCompare
  /\ Forall (fun r => zeroPadded (departure_time r) = true)
            [night; enquire; morning; midmorning]
  /\ map (fun g => (map departure_time (schedules g), map adult_fare (schedules g)))
         (groupRoutesByPath codeUnitCompare [night; enquire; morning; midmorning])
     = [(["08:00"; "23:50"], ["¥1,220"; "¥1,220"]);
        (["10:00"; "10:00"], ["お問い合わせください"; "¥300"])]
  /\ map (fun g => (map departure_time (schedules g), map adult_fare (schedules g)))
         (groupRoutesByPath codeUnitCompare [midmorning; morning; enquire; night])
     = [(["10:00"; "10:00"], ["¥300"; "お問い合わせください"]);
        (["08:00"; "23:50"], ["¥1,220"; "¥1,220"])]
  /\ (sameGroupsUpToOrder
        (groupRoutesByPath codeUnitCompare [night; enquire; morning; midmorning])
        (groupRoutesByPath codeUnitCompare [midmorning; morning; enquire; night])
      /\ sameGroupsUpToOrder
           (groupRoutesByPath codeUnitCompare [midmorning; morning; enquire; night])
           (groupRoutesByPath codeUnitCompare [night; enquire; morning; midmorning])
      /\ map routeKey
             (groupRoutesByPath codeUnitCompare [night; enquire; morning; midmorning])
         = firstSeen String.eqb
             (map routeKeyOf [night; enquire; morning; midmorning])
      /\ map routeKey
             (groupRoutesByPath codeUnitCompare [midmorning; morning; enquire; night])
         = firstSeen String.eqb
             (map routeKeyOf [midmorning; morning; enquire; night])
      /\ Permutation
           (map routeKey
                (groupRoutesByPath codeUnitCompare [night; enquire; morning; midmorning]))
           (map routeKey
                (groupRoutesByPath codeUnitCompare [midmorning; morning; enquire; night]))
      /\ Forall (fun g => companies g
                          = firstSeen String.eqb
                              (map company
                                   (membersOf (routeKey g)
                                              [night; enquire; morning; midmorning])))
                (groupRoutesByPath codeUnitCompare [night; enquire; morning; midmorning])
      /\ Forall (fun g' => companies g'
                           = firstSeen String.eqb
                               (map company
                                    (membersOf (routeKey g')
                                               [midmorning; morning; enquire; night])))
                (groupRoutesByPath codeUnitCompare [midmorning; morning; enquire; night])
      /\ (digitOrder codeUnitCompare ->
          Forall (fun r => zeroPadded (departure_time r) = true)
                 [night; enquire; morning; midmorning] ->
          sortedByDeparture
            (groupRoutesByPath codeUnitCompare [night; enquire; morning; midmorning])
          /\ sortedByDeparture
               (groupRoutesByPath codeUnitCompare [midmorning; morning; enquire; night])
          /\ Forall (fun g => forall m,
                       leavingAt m (schedules g)
                       = leavingAt m (membersOf (routeKey g)
                                                [night; enquire; morning; midmorning]))
                    (groupRoutesByPath codeUnitCompare
                                       [night; enquire; morning; midmorning])
          /\ Forall (fun g' => forall m,
                       leavingAt m (schedules g')
                       = leavingAt m (membersOf (routeKey g')
                                                [midmorning; morning; enquire; night]))
                    (groupRoutesByPath codeUnitCompare
                                       [midmorning; morning; enquire; night])
          /\ forall g g',
               In g (groupRoutesByPath codeUnitCompare
                                       [night; enquire; morning; midmorning]) ->
               In g' (groupRoutesByPath codeUnitCompare
                                        [midmorning; morning; enquire; night]) ->
               routeKey g' = routeKey g ->
               NoDup (map departureMinute (schedules g)) ->
               schedules g' = schedules g)).
Proof.
  split; [exact (Permutation_rev [night; enquire; morning; midmorning]) | ].
  split; [exact codeUnitCompare_digitOrder | ].
  split; [repeat constructor | ].
  split; [reflexivity | split; [reflexivity | ]].
  apply (grouping_of_shuffled_input codeUnitCompare
           [night; enquire; morning; midmorning]
           [midmorning; morning; enquire; night]).
  exact (Permutation_rev [night; enquire; morning; midmorning]).
Defined.

(** C6, as stated, fails: two sailings of one path that leave at 08:00 with
    different companies give, in the two orders of the input, groups whose
    company lists (and schedule lists) are in opposite orders. *)
Lemma shuffled_input_reorders_companies :
  Permutation [morning; rival] [rival; morning]
  /\ map companies (groupRoutesByPath codeUnitCompare [morning; rival])
     = [["Shikoku Kisen"; "Jumbo Ferry"]]
  /\ map companies (groupRoutesByPath codeUnitCompare [rival; morning])
     = [["Jumbo Ferry"; "Shikoku Kisen"]]
  /\ map (fun g => map company (schedules g))
         (groupRoutesByPath codeUnitCompare [morning; rival])
     = [["Shikoku Kisen"; "Jumbo Ferry"]]
  /\ map (fun g => map company (schedules g))
         (groupRoutesByPath codeUnitCompare [rival; morning])
     = [["Jumbo Ferry"; "Shikoku Kisen"]]
  /\ ~ (exists localeCompare,
          sameGroups (groupRoutesByPath localeCompare [morning; rival])
                     (groupRoutesByPath localeCompare [rival; morning])).
Proof.
  split; [apply perm_swap | ].
  repeat split.
  intros (lc & Hsame).
  rewrite !groupRoutesByPath_eq in Hsame. cbn in Hsame.
  destruct (Hsame _ (or_introl eq_refl)) as (g' & [<- | []] & _ & _ & Hc & _).
  discriminate Hc.
Qed.

(** ** The limited-period flag *)

Lemma sort_map {A B : Type} (f : A -> B) (cmpA : A -> A -> Z) (cmpB : B -> B -> Z)
      (l : list A) :
  (forall x y, cmpB (f x) (f y) = cmpA x y) ->
  sort cmpB (map f l) = map f (sort cmpA l).
Proof.
  intros Hc. induction l as [|x l IH]; [reflexivity | ].
  cbn [map sort]. rewrite IH. generalize (sort cmpA l). intros t.
  induction t as [|y t IHt]; [reflexivity | ].
  cbn [map insert]. rewrite Hc.
  destruct (cmpA x y <=? 0); [reflexivity | ]. cbn [map]. now rewrite IHt.
Qed.

Lemma filter_map_comm {A B : Type} (f : A -> B) (p : B -> bool) (l : list A) :
  filter p (map f l) = map f (filter (fun x => p (f x)) l).
Proof.
  induction l as [|x l IH]; [reflexivity | ].
  cbn [map filter]. destruct (p (f x)); cbn [map]; now rewrite IH.
Qed.

Lemma runningMin_withOperatingDays (days : string -> string) (rows : list FerryRoute) :
  forall start,
    runningMin (map (withOperatingDays days) rows) start = runningMin rows start.
Proof.
  unfold runningMin. induction rows as [|r rows IH]; intros start; [reflexivity | ].
  cbn [map fold_left]. apply IH.
Qed.

(** The grouping does not read the operating days: rewriting them in the
    input rewrites them in the schedules of the groups and changes nothing
    else. *)
Lemma grouping_ignores_operating_days (localeCompare : string -> string -> Z)
      (days : string -> string) (routes : list FerryRoute) :
  groupRoutesByPath localeCompare (map (withOperatingDays days) routes)
  = map (groupWithOperatingDays days) (groupRoutesByPath localeCompare routes).
Proof.
  rewrite !groupRoutesByPath_eq, !map_map.
  replace (map (fun x => routeKeyOf (withOperatingDays days x)) routes)
    with (map routeKeyOf routes) by (apply map_ext; reflexivity).
  apply map_ext. intros k.
  assert (Em : membersOf k (map (withOperatingDays days) routes)
               = map (withOperatingDays days) (membersOf k routes)).
  { unfold membersOf. apply filter_map_comm. }
  unfold sortSchedules, groupWithOperatingDays, groupOf.
  cbn [routeKey departure arrival schedules companies minPrice totalSchedules].
  rewrite Em. f_equal.
  - now destruct (membersOf k routes).
  - now destruct (membersOf k routes).
  - apply sort_map. reflexivity.
  - rewrite map_map. reflexivity.
  - apply runningMin_withOperatingDays.
  - apply length_map.
Qed.

(** C9: the flag of a group is set exactly when one of its schedules has
    ["期間限定"] as [operating_days], the whole field and nothing else.  For
    the groups of an input it is set exactly when a row of the input with
    the route key of the group has it, and the timetable of the card has
    one row for each row of the input with that key, marked or not.  The
    grouping does not read the field: with other operating days in the
    input the groups, their order, prices and counts are the same. *)
Theorem limited_period_flag (localeCompare : string -> string -> Z)
        (routes : list FerryRoute) :
  (forall routeGroup,
      (isLimitedPeriod routeGroup = true
       <-> exists schedule, In schedule (schedules routeGroup)
                            /\ operating_days schedule = "期間限定")
      /\ List.length (timetableRows routeGroup) = List.length (schedules routeGroup)
      /\ map rowDeparture (timetableRows routeGroup)
         = map departure_time (schedules routeGroup))
  /\ Forall (fun g =>
               (isLimitedPeriod g = true
                <-> exists r, In r routes /\ routeKeyOf r = routeKey g
                              /\ operating_days r = "期間限定")
               /\ Permutation (timetableRows g)
                              (map timetableRow (membersOf (routeKey g) routes))
               /\ List.length (timetableRows g) = totalSchedules g)
            (groupRoutesByPath localeCompare routes)
  /\ (forall days,
        groupRoutesByPath localeCompare (map (withOperatingDays days) routes)
        = map (groupWithOperatingDays days) (groupRoutesByPath localeCompare routes)).
Proof.
  assert (Hflag : forall routeGroup,
             isLimitedPeriod routeGroup = true
             <-> exists schedule, In schedule (schedules routeGroup)
                                  /\ operating_days schedule = "期間限定").
  { intros routeGroup. unfold isLimitedPeriod. rewrite existsb_exists.
    split; intros (x & Hx & E); exists x; (split; [assumption | ]);
      now apply String.eqb_eq. }
  split; [ | split].
  - intros routeGroup. split; [apply Hflag | ]. unfold timetableRows.
    split; [apply length_map | now rewrite map_map].
  - apply Forall_forall. intros g Hg.
    destruct (group_inv _ _ _ Hg) as (k & _ & ->).
    rewrite Hflag. unfold timetableRows.
    cbn [schedules routeKey totalSchedules sortSchedules groupOf].
    split; [ | split].
    + split.
      * intros (x & Hx & E). apply (proj1 (sort_In _ _ _)) in Hx.
        apply filter_In in Hx as [Hx Hk]. apply String.eqb_eq in Hk.
        now exists x.
      * intros (r & Hr & Hk & E). exists r. split; [ | assumption].
        apply sort_In. apply filter_In. split; [assumption | ].
        now apply String.eqb_eq.
    + apply Permutation_map, sort_Permutation.
    + rewrite length_map. apply sort_length.
  - intros days. apply grouping_ignores_operating_days.
Qed.

(** * Further properties of the grouping *)

Lemma filter_disjoint_app {A : Type} (p q : A -> bool) (l : list A) :
  (forall x, In x l -> p x = true -> q x = false) ->
  Permutation (filter p l ++ filter q l) (filter (fun x => p x || q x) l).
Proof.
  induction l as [|a l IH]; intros Hdis; simpl; [constructor | ].
  assert (IH' := IH (fun x Hx => Hdis x (or_intror Hx))).
  destruct (p a) eqn:Ep; simpl.
  - rewrite (Hdis a (or_introl eq_refl) Ep). now constructor.
  - destruct (q a); [ | exact IH'].
    apply Permutation_sym, Permutation_cons_app, Permutation_sym, IH'.
Qed.

Lemma flat_map_members (routes : list FerryRoute) (keys : list string) :
  NoDup keys ->
  Permutation (flat_map (fun k => membersOf k routes) keys)
              (filter (fun r => existsb (String.eqb (routeKeyOf r)) keys) routes).
Proof.
  induction 1 as [|a keys Ha Hnd IH]; simpl.
  - induction routes; simpl; auto.
  - rewrite IH. unfold membersOf.
    rewrite filter_disjoint_app.
    + apply Permutation_refl'. apply filter_ext. intros r.
      now rewrite (String.eqb_sym (routeKeyOf r) a).
    + intros r _ E. apply String.eqb_eq in E. subst a.
      destruct (existsb (String.eqb (routeKeyOf r)) keys) eqn:Ex; [ | reflexivity].
      apply (existsb_eqb String.eqb String.eqb_eq) in Ex. contradiction.
Qed.

Lemma flat_map_Permutation {A B : Type} (f g : A -> list B) (l : list A) :
  (forall x, Permutation (f x) (g x)) ->
  Permutation (flat_map f l) (flat_map g l).
Proof.
  intros H. induction l as [|a l IH]; simpl; [constructor | ].
  now apply Permutation_app.
Qed.

(** X1: the schedules of the groups, put end to end, are the rows of the
    input, each as many times as the input has it: the grouping loses no
    row, repeats none and invents none. *)
Theorem groups_partition_input (localeCompare : string -> string -> Z)
        (routes : list FerryRoute) :
  Permutation (List.concat (map schedules (groupRoutesByPath localeCompare routes)))
              routes.
Proof.
  rewrite groupRoutesByPath_eq, map_map, <- flat_map_concat_map.
  cbn [schedules sortSchedules groupOf].
  rewrite (flat_map_Permutation _ (fun k => membersOf k routes))
    by (intros k; apply sort_Permutation).
  rewrite flat_map_members by apply (firstSeen_NoDup String.eqb String.eqb_eq).
  rewrite filter_all; [reflexivity | ].
  intros r Hr. apply (existsb_eqb String.eqb String.eqb_eq).
  apply (firstSeen_In String.eqb String.eqb_eq). now apply in_map.
Qed.

Lemma routeKeys_of_result (localeCompare : string -> string -> Z)
      (routes : list FerryRoute) :
  map routeKey (groupRoutesByPath localeCompare routes)
  = firstSeen String.eqb (map routeKeyOf routes).
Proof.
  rewrite groupRoutesByPath_eq, map_map. simpl. apply map_id.
Qed.

(** X2: no two groups of a result have the same route key, and every
    schedule of a group has the route key of the group. *)
Theorem groups_have_distinct_keys (localeCompare : string -> string -> Z)
        (routes : list FerryRoute) :
  NoDup (map routeKey (groupRoutesByPath localeCompare routes))
  /\ Forall (fun g => Forall (fun s => routeKeyOf s = routeKey g) (schedules g))
            (groupRoutesByPath localeCompare routes).
Proof.
  split.
  - rewrite routeKeys_of_result. apply (firstSeen_NoDup String.eqb String.eqb_eq).
  - apply Forall_forall. intros g Hg.
    destruct (group_inv _ _ _ Hg) as (k & _ & ->).
    cbn [schedules routeKey sortSchedules groupOf].
    apply Forall_forall. intros s Hs.
    apply (proj1 (sort_In _ _ _)) in Hs.
    apply filter_In in Hs as [_ E]. now apply String.eqb_eq.
Qed.

(** X3: every group of a result has at least one schedule; the result is
    empty exactly when the input is, and has no more groups than the input
    has rows. *)
Theorem groups_are_not_empty (localeCompare : string -> string -> Z)
        (routes : list FerryRoute) :
  Forall (fun g => schedules g <> [] /\ (1 <= totalSchedules g)%nat)
         (groupRoutesByPath localeCompare routes)
  /\ (groupRoutesByPath localeCompare routes = [] <-> routes = [])
  /\ (List.length (groupRoutesByPath localeCompare routes)
      <= List.length routes)%nat.
Proof.
  split; [ | split].
  - apply Forall_forall. intros g Hg.
    destruct (group_inv _ _ _ Hg) as (k & Hk & ->).
    destruct (membersOf_cons _ _ Hk) as (r & l & E).
    cbn [schedules totalSchedules sortSchedules groupOf]. rewrite E. split.
    + intros Hnil.
      pose proof (sort_length (compareDeparture localeCompare) (r :: l)) as Hlen.
      rewrite Hnil in Hlen. discriminate.
    + simpl. lia.
  - split.
    + intros Hnil. destruct routes as [|r routes]; [reflexivity | ].
      destruct (every_row_grouped localeCompare (r :: routes) r (or_introl eq_refl))
        as (g & Hg & _).
      rewrite Hnil in Hg. contradiction.
    + intros ->. reflexivity.
  - rewrite <- (length_map routeKey), routeKeys_of_result.
    rewrite <- (length_map routeKeyOf routes).
    apply NoDup_incl_length.
    + apply (firstSeen_NoDup String.eqb String.eqb_eq).
    + intros k Hk. exact (proj1 (firstSeen_In String.eqb String.eqb_eq k _) Hk).
Qed.

(** X4: the departure and the arrival a group shows are the ports of the
    first row of the input that has the key of the group, whatever place
    the sort gives that row among the schedules. *)
Theorem group_label_is_first_row (localeCompare : string -> string -> Z)
        (routes : list FerryRoute) :
  Forall (fun g =>
            exists r rest,
              membersOf (routeKey g) routes = r :: rest
              /\ departure g = departure_port r
              /\ arrival g = arrival_port r
              /\ routeKey g = departure_port r ++ "-" ++ arrival_port r)
         (groupRoutesByPath localeCompare routes).
Proof.
  apply Forall_forall. intros g Hg.
  destruct (group_inv _ _ _ Hg) as (k & Hk & ->).
  destruct (membersOf_cons _ _ Hk) as (r & l & E).
  exists r, l. cbn [routeKey departure arrival sortSchedules groupOf].
  rewrite E. repeat split.
  assert (Hin : In r (membersOf k routes)) by (rewrite E; now left).
  apply filter_In in Hin as [_ Hkey]. apply String.eqb_eq in Hkey.
  now rewrite <- Hkey.
Qed.

(** X5: a row added at the end of the input changes the group of its own
    route key only: the groups of the other keys are the same, in the same
    order, with and without the row. *)
Theorem appended_row_touches_one_group (localeCompare : string -> string -> Z)
        (routes : list FerryRoute) (route : FerryRoute) :
  filter (fun g => negb (String.eqb (routeKey g) (routeKeyOf route)))
         (groupRoutesByPath localeCompare (routes ++ [route]))
  = filter (fun g => negb (String.eqb (routeKey g) (routeKeyOf route)))
           (groupRoutesByPath localeCompare routes).
Proof.
  rewrite !groupRoutesByPath_eq.
  assert (Hfm : forall (f : string -> RouteGroup) (ks : list string),
             (forall k, routeKey (f k) = k) ->
             filter (fun g => negb (String.eqb (routeKey g) (routeKeyOf route)))
                    (map f ks)
             = map f (filter (fun k => negb (String.eqb k (routeKeyOf route))) ks)).
  { intros f ks Hf. induction ks as [|a ks IH]; simpl; [reflexivity | ].
    rewrite Hf, IH. now destruct (String.eqb a (routeKeyOf route)). }
  rewrite !Hfm by reflexivity.
  rewrite map_app. cbn [map].
  rewrite (firstSeen_snoc String.eqb).
  assert (Hks : filter (fun k => negb (String.eqb k (routeKeyOf route)))
                       (if existsb (String.eqb (routeKeyOf route)) (map routeKeyOf routes)
                        then firstSeen String.eqb (map routeKeyOf routes)
                        else (firstSeen String.eqb (map routeKeyOf routes)
                              ++ [routeKeyOf route])%list)
                = filter (fun k => negb (String.eqb k (routeKeyOf route)))
                         (firstSeen String.eqb (map routeKeyOf routes))).
  { destruct (existsb _ _); [reflexivity | ].
    rewrite filter_app. simpl. rewrite String.eqb_refl. simpl. apply app_nil_r. }
  rewrite Hks. apply map_ext_in. intros k Hk.
  apply filter_In in Hk as [_ Hne]. apply negb_true_iff in Hne.
  now rewrite groupOf_snoc_other.
Qed.

(** * Further properties of the duration *)

Lemma string_length_app (a b : string) :
  String.length (a ++ b) = (String.length a + String.length b)%nat.
Proof. induction a as [|c a IH]; simpl; [reflexivity | now rewrite IH]. Qed.

Lemma string_app_assoc (a b c : string) : (a ++ b) ++ c = a ++ (b ++ c).
Proof. induction a as [|x a IH]; simpl; [reflexivity | now rewrite IH]. Qed.

(** ** What never throws *)

Lemma bind_not_Throw {A B : Type} (m : outcome A) (k : A -> outcome B) :
  m <> Throw -> (forall a, k a <> Throw) -> bind m k <> Throw.
Proof. intros Hm Hk. destruct m; simpl; [apply Hk | now elim Hm | discriminate]. Qed.

Lemma exact_not_Throw (z : Z) : exact z <> Throw.
Proof. unfold exact. destruct (Z.abs z <? maxExact); discriminate. Qed.

Lemma arith_not_Throw (f : Z -> Z -> Z) (a b : number) : arith f a b <> Throw.
Proof.
  destruct a, b; simpl; try discriminate. apply exact_not_Throw.
Qed.

Lemma Number_not_Throw (s : string) : Number s <> Throw.
Proof.
  unfold Number. cbv zeta.
  destruct (String.eqb (trim s) ""); [discriminate | ].
  destruct (integerLiteral (trim s)); [apply exact_not_Throw | ].
  destruct (numericLiteral (trim s)); discriminate.
Qed.

Lemma mapM_Number_not_Throw (l : list string) : mapM Number l <> Throw.
Proof.
  induction l as [|s l IH]; simpl; [discriminate | ].
  apply bind_not_Throw; [apply Number_not_Throw | ]. intros n.
  apply bind_not_Throw; [assumption | discriminate].
Qed.

Lemma hourAndMinute_Text_not_Throw (time : string) :
  hourAndMinute (Text time) <> Throw.
Proof.
  unfold hourAndMinute. simpl.
  apply bind_not_Throw; [apply mapM_Number_not_Throw | discriminate].
Qed.

Lemma durationMinutes_Text_not_Throw (departure arrival : string) :
  durationMinutes (Text departure) (Text arrival) <> Throw.
Proof.
  unfold durationMinutes, times, plus, minus.
  repeat (apply bind_not_Throw;
          [first [ apply hourAndMinute_Text_not_Throw | apply arith_not_Throw
                 | idtac ] | intros ? ]);
    try apply arith_not_Throw.
  destruct (lessThan _ _); [apply arith_not_Throw | discriminate].
Qed.

Lemma floorDiv_not_Throw (a b : number) : floorDiv a b <> Throw.
Proof.
  unfold floorDiv. destruct b as [[| |]| |]; try discriminate; apply arith_not_Throw.
Qed.

Lemma remainder_not_Throw (a b : number) : remainder a b <> Throw.
Proof.
  unfold remainder. destruct b as [[| |]| |]; try discriminate; apply arith_not_Throw.
Qed.

(** Every text [formatDuration] returns ends with the minute sign. *)
Lemma formatDuration_ends_with_minutes (duration : number) (s : string) :
  formatDuration duration = Done s -> exists p, s = p ++ "分".
Proof.
  unfold formatDuration.
  destruct (floorDiv duration (Num 60)) as [hours | | ]; cbn [bind];
    try discriminate.
  destruct (remainder duration (Num 60)) as [minutes | | ]; cbn [bind];
    try discriminate.
  destruct (lessThan (Num 0) hours); cbv iota; intros [= <-].
  - exists (toString hours ++ "时" ++ toString minutes).
    now rewrite !string_app_assoc.
  - now exists (toString minutes).
Qed.

Lemma formatDuration_not_Throw (duration : number) : formatDuration duration <> Throw.
Proof.
  unfold formatDuration.
  apply bind_not_Throw; [apply floorDiv_not_Throw | intros hours].
  apply bind_not_Throw; [apply remainder_not_Throw | intros minutes].
  destruct (lessThan _ _); discriminate.
Qed.

(** With two strings the body of the [try] does not throw, and the
    [catch] is not reached. *)
Lemma calculateDuration_Text_body (departure arrival : string) :
  calculateDuration (Text departure) (Text arrival)
  = (duration <- durationMinutes (Text departure) (Text arrival) ;;
     formatDuration duration).
Proof.
  assert (Hbody : (duration <- durationMinutes (Text departure) (Text arrival) ;;
                   formatDuration duration) <> Throw).
  { apply bind_not_Throw;
      [apply durationMinutes_Text_not_Throw | apply formatDuration_not_Throw]. }
  unfold calculateDuration, tryCatch.
  destruct (duration <- durationMinutes (Text departure) (Text arrival) ;;
            formatDuration duration); congruence.
Qed.

Lemma Number_wholeField (s : string) :
  wholeField s = true -> exists n, Number s = Done n /\ within (10 ^ 13) n.
Proof.
  unfold wholeField, Number. cbv zeta.
  destruct (String.eqb (trim s) ""); cbn [orb].
  - intros _. exists (Num 0). split; [reflexivity | ]. cbn [within]. lia.
  - destruct (integerLiteral (trim s)) as [z | ].
    + rewrite Z.ltb_lt. intros Hz. exists (Num z). split; [ | exact Hz].
      apply exact_small. unfold maxExact. lia.
    + destruct (numericLiteral (trim s)); [discriminate | ].
      intros _. now exists NaN.
Qed.

Lemma mapM_Number_whole (l : list string) :
  forallb wholeField l = true ->
  exists nums, mapM Number l = Done nums
               /\ Forall (within (10 ^ 13)) nums
               /\ List.length nums = List.length l.
Proof.
  induction l as [|s l IH]; cbn [forallb mapM].
  - intros _. exists []. repeat split. constructor.
  - rewrite andb_true_iff. intros [Hs Hl].
    destruct (Number_wholeField s Hs) as (n & En & Hn).
    destruct (IH Hl) as (nums & El & Hnums & Hlen).
    exists (n :: nums). rewrite En, El. cbn [bind]. repeat split.
    + now constructor.
    + cbn [List.length]. now rewrite Hlen.
Qed.

Lemma element_within (bound : Z) (i : nat) (nums : list number) :
  Forall (within bound) nums -> within bound (element i nums).
Proof.
  intros H. unfold element. revert i.
  induction H as [|n nums Hn _ IH]; intros [|i]; cbn [nth within]; auto.
Qed.

Lemma split_noColon (time : string) :
  noColon time = true -> Str.split ":" time = [time].
Proof.
  unfold noColon. rewrite negb_true_iff.
  induction time as [|c s IH]; cbn [Str.any Str.split]; [reflexivity | ].
  intros H. apply orb_false_iff in H as [Hc Hs]. now rewrite Hc, (IH Hs).
Qed.

(** The hour and the minute read from a time of such fields; the minute
    of a time with no colon is [undefined], [NaN] in the sum. *)
Lemma hourAndMinute_whole (time : string) :
  wholeFields time = true ->
  exists h m, hourAndMinute (Text time) = Done (h, m)
              /\ within (10 ^ 13) h /\ within (10 ^ 13) m
              /\ (noColon time = true -> m = NaN).
Proof.
  unfold wholeFields, hourAndMinute. cbn [splitMethod bind]. intros H.
  destruct (mapM_Number_whole _ H) as (nums & E & Hnums & Hlen).
  rewrite E. cbn [bind].
  exists (element 0 nums), (element 1 nums). repeat split.
  - now apply element_within.
  - now apply element_within.
  - intros Hno. rewrite (split_noColon _ Hno) in Hlen.
    destruct nums as [|n [|n' nums]]; try discriminate. reflexivity.
Qed.

Lemma formatDuration_Num (d : Z) :
  Z.abs d < maxExact -> exists s, formatDuration (Num d) = Done s.
Proof.
  intros Hd. unfold formatDuration, floorDiv, remainder, arith.
  assert (Hq : Z.abs (d / 60) < maxExact).
  { pose proof (Z.div_mod d 60 ltac:(lia)).
    pose proof (Z.mod_pos_bound d 60 ltac:(lia)). lia. }
  assert (Hr : Z.abs (Z.rem d 60) < maxExact).
  { pose proof (Z.rem_bound_abs d 60 ltac:(lia)). unfold maxExact. lia. }
  rewrite (exact_small _ Hq). cbn [bind].
  rewrite (exact_small _ Hr). cbn [bind].
  destruct (lessThan (Num 0) (Num (d / 60))); eexists; reflexivity.
Qed.

(** With an hour and a minute on each side that are whole numbers below
    10^13 or [NaN], the code returns a text; the text is ["NaN分"] as soon as
    a minute is [NaN]. *)
Lemma calculateDuration_whole (departure arrival : string) (dh dm ah am : number) :
  hourAndMinute (Text departure) = Done (dh, dm) ->
  hourAndMinute (Text arrival) = Done (ah, am) ->
  within (10 ^ 13) dh -> within (10 ^ 13) dm ->
  within (10 ^ 13) ah -> within (10 ^ 13) am ->
  exists s, calculateDuration (Text departure) (Text arrival) = Done s
            /\ (dm = NaN \/ am = NaN -> s = "NaN分").
Proof.
  intros Ed Ea Hdh Hdm Hah Ham.
  rewrite calculateDuration_Text_body. unfold durationMinutes.
  rewrite Ed, Ea. cbn [bind fst snd].
  destruct dh as [dh | | ], dm as [dm | | ], ah as [ah | | ], am as [am | | ];
    cbn [within] in *; try contradiction;
    unfold times, plus, minus, arith; cbn [bind lessThan];
    repeat (rewrite exact_small by (unfold maxExact; lia); cbn [bind lessThan]);
    try (exists "NaN分"; split; [reflexivity | intros _; reflexivity]).
  destruct (ah * 60 + am <? dh * 60 + dm); cbn [bind];
    repeat (rewrite exact_small by (unfold maxExact; lia); cbn [bind]).
  - destruct (formatDuration_Num (ah * 60 + am + 24 * 60 - (dh * 60 + dm)))
      as (s & E); [unfold maxExact; lia | ].
    exists s. split; [exact E | ]. intros [H | H]; discriminate.
  - destruct (formatDuration_Num (ah * 60 + am - (dh * 60 + dm)))
      as (s & E); [unfold maxExact; lia | ].
    exists s. split; [exact E | ]. intros [H | H]; discriminate.
Qed.

(** X6: given two strings whose fields are each blank, a decimal integer
    below 10^13 in magnitude (with or without a sign and white space around
    it) or no numeric literal at all, [calculateDuration] never reaches its
    [catch]: it returns a text, the text ends with the minute sign and is
    not the sentinel ["-"]. *)
Theorem calculateDuration_of_strings_never_sentinel (departure arrival : string) :
  wholeFields departure = true -> wholeFields arrival = true ->
  exists s, calculateDuration (Text departure) (Text arrival) = Done s
            /\ s <> "-"
            /\ exists p, s = p ++ "分".
Proof.
  intros Hd Ha.
  destruct (hourAndMinute_whole _ Hd) as (dh & dm & Ed & Hdh & Hdm & _).
  destruct (hourAndMinute_whole _ Ha) as (ah & am & Ea & Hah & Ham & _).
  destruct (calculateDuration_whole _ _ _ _ _ _ Ed Ea Hdh Hdm Hah Ham)
    as (s & E & _).
  assert (Hend : exists p, s = p ++ "分").
  { rewrite calculateDuration_Text_body in E.
    destruct (durationMinutes (Text departure) (Text arrival)) as [d | | ];
      cbn [bind] in E; try discriminate.
    now apply formatDuration_ends_with_minutes with d. }
  exists s. split; [exact E | split; [ | exact Hend]].
  intros ->. destruct Hend as (p & Hp).
  apply (f_equal String.length) in Hp. rewrite string_length_app in Hp.
  simpl in Hp. lia.
Qed.

Lemma calculateDuration_of_strings_never_sentinel_witness :
  wholeFields " 8:05" = true /\ wholeFields "-9:30:未定" = true
  /\ exists s, calculateDuration (Text " 8:05") (Text "-9:30:未定") = Done s
               /\ s <> "-"
               /\ exists p, s = p ++ "分".
Proof.
  split; [reflexivity | split; [reflexivity | ]].
  apply (calculateDuration_of_strings_never_sentinel " 8:05" "-9:30:未定");
    reflexivity.
Defined.

(** Times with white space, a sign, a word or no digit at all, as the
    code reads them. *)
Example durations_of_odd_times :
  map (fun t => calculateDuration (Text (fst t)) (Text (snd t)))
      [(" 8:00", "9:30 "); ("-1:00", "0:30"); ("abc", "9:00"); ("-", "-");
       ("未定", "未定"); ("8:00", "noon")]
  = [Done "1时30分"; Done "1时30分"; Done "NaN分"; Done "NaN分";
     Done "NaN分"; Done "NaN分"].
Proof. vm_compute. reflexivity. Qed.

(** ** Times that lack the minute *)

(** X7: a time with no colon in it (an hour alone, a word, the empty
    string) has no minute, the sum of its minutes is [NaN], and the text
    is ["NaN分"] whatever the other time: never a duration, the sentinel or
    an exception.  The fields of the two times are blank, decimal integers
    below 10^13 in magnitude or no numeric literals. *)
Theorem time_without_colon_gives_NaN (departure arrival : string) :
  noColon departure = true \/ noColon arrival = true ->
  wholeFields departure = true -> wholeFields arrival = true ->
  calculateDuration (Text departure) (Text arrival) = Done "NaN分".
Proof.
  intros H Hd Ha.
  destruct (hourAndMinute_whole _ Hd) as (dh & dm & Ed & Hdh & Hdm & Nd).
  destruct (hourAndMinute_whole _ Ha) as (ah & am & Ea & Hah & Ham & Na).
  destruct (calculateDuration_whole _ _ _ _ _ _ Ed Ea Hdh Hdm Hah Ham)
    as (s & E & Hs).
  rewrite E. f_equal. apply Hs. destruct H as [H | H]; auto.
Qed.

Lemma time_without_colon_gives_NaN_witness :
  (noColon "noon" = true \/ noColon "09:30" = true)
  /\ wholeFields "noon" = true /\ wholeFields "09:30" = true
  /\ calculateDuration (Text "noon") (Text "09:30") = Done "NaN分".
Proof.
  split; [left; reflexivity | ].
  split; [reflexivity | split; [reflexivity | ]].
  apply (time_without_colon_gives_NaN "noon" "09:30");
    [left; reflexivity | reflexivity | reflexivity].
Defined.

(** ** Fields out of the range of a clock *)

Lemma decimalFrom_upper (s : string) :
  forall acc, 0 <= acc -> Str.all Str.isDigit s = true ->
  Str.decimalFrom acc s < (acc + 1) * 10 ^ Z.of_nat (String.length s).
Proof.
  induction s as [|c s IH]; intros acc Hacc Hall.
  - simpl. lia.
  - cbn [Str.decimalFrom String.length]. cbn [Str.all] in Hall.
    apply andb_true_iff in Hall as [Hc Hs].
    pose proof (digitValue_range c Hc).
    specialize (IH (acc * 10 + Str.digitValue c) ltac:(lia) Hs).
    rewrite Nat2Z.inj_succ, Z.pow_succ_r by lia.
    assert (0 < 10 ^ Z.of_nat (String.length s)) by (apply Z.pow_pos_nonneg; lia).
    nia.
Qed.

Lemma plainField_spec (s : string) :
  plainField s = true ->
  Str.all Str.isDigit s = true /\ 0 <= Str.decimal s < 10 ^ 13.
Proof.
  unfold plainField. rewrite andb_true_iff, Nat.leb_le. intros [Hd Hlen].
  split; [assumption | ]. unfold Str.decimal. split.
  - apply decimalFrom_bounds; [lia | assumption].
  - pose proof (decimalFrom_upper s 0 ltac:(lia) Hd) as Hup.
    assert (10 ^ Z.of_nat (String.length s) <= 10 ^ 13)
      by (apply Z.pow_le_mono_r; lia).
    lia.
Qed.

Lemma Number_plainField (s : string) :
  plainField s = true -> Number s = Done (Num (Str.decimal s)).
Proof.
  intros H. destruct (plainField_spec s H) as (Hd & Hr).
  apply Number_digits; [assumption | unfold maxExact; lia].
Qed.

Lemma mapM_Number_plain (l : list string) :
  forallb plainField l = true ->
  mapM Number l = Done (map (fun s => Num (Str.decimal s)) l).
Proof.
  induction l as [|s l IH]; simpl; [reflexivity | ].
  rewrite andb_true_iff. intros [Hs Hl].
  now rewrite (Number_plainField s Hs), (IH Hl).
Qed.

Lemma hourAndMinute_numeric (time : string) (h m : Z) :
  numericFields time = Some (h, m) ->
  hourAndMinute (Text time) = Done (Num h, Num m)
  /\ 0 <= h < 10 ^ 13 /\ 0 <= m < 10 ^ 13.
Proof.
  unfold numericFields, hourAndMinute. cbn [splitMethod bind].
  destruct (Str.split ":" time) as [|sh [|sm rest]]; try discriminate.
  destruct (forallb plainField (sh :: sm :: rest)) eqn:Hall; try discriminate.
  intros [= <- <-]. rewrite (mapM_Number_plain _ Hall). cbn.
  cbn [forallb] in Hall. rewrite !andb_true_iff in Hall.
  destruct Hall as (Hh & Hm & _).
  destruct (plainField_spec _ Hh) as (_ & ?).
  destruct (plainField_spec _ Hm) as (_ & ?).
  repeat split; lia.
Qed.

(** X8: the hour and the minute are not checked against a clock, an empty
    field reads as 0, and what follows a second colon is not used.  For
    fields of digits the duration is arrival minus departure in minutes,
    with one day added when that is negative, once: it is below zero when
    the departure is more than a day past the arrival. *)
Theorem duration_of_unchecked_fields (departure arrival : string)
        (dh dm ah am : Z) :
  numericFields departure = Some (dh, dm) ->
  numericFields arrival = Some (ah, am) ->
  let d := dh * 60 + dm in
  let a := ah * 60 + am in
  durationMinutes (Text departure) (Text arrival)
  = Done (Num (if a <? d then a + 24 * 60 - d else a - d))
  /\ (d <= a + 24 * 60 ->
      calculateDuration (Text departure) (Text arrival)
      = Done (durationText (if a <? d then a + 24 * 60 - d else a - d)))
  /\ (a + 24 * 60 < d ->
      exists n, durationMinutes (Text departure) (Text arrival) = Done (Num n)
                /\ n < 0).
Proof.
  intros Hd Ha d a.
  destruct (hourAndMinute_numeric _ _ _ Hd) as (Ed & ? & ?).
  destruct (hourAndMinute_numeric _ _ _ Ha) as (Ea & ? & ?).
  assert (Hdur : durationMinutes (Text departure) (Text arrival)
                 = Done (Num (if a <? d then a + 24 * 60 - d else a - d))).
  { unfold durationMinutes. rewrite Ed, Ea. cbn [bind fst snd].
    unfold times, plus, minus, arith.
    do 4 exact_now. fold d a.
    destruct (a <? d) eqn:Hlt; cbn [bind].
    - do 2 exact_now. reflexivity.
    - exact_now. reflexivity. }
  split; [exact Hdur | split].
  - intros Hle. unfold calculateDuration. rewrite Hdur. cbn [bind].
    rewrite formatDuration_nonneg; [reflexivity | ].
    unfold maxExact. destruct (Z.ltb_spec a d); subst d a; simpl; lia.
  - intros Hlt. eexists. split; [exact Hdur | ].
    destruct (Z.ltb_spec a d); lia.
Qed.

Lemma duration_of_unchecked_fields_witness :
  let d := 100 * 60 + 0 in
  let a := 0 * 60 + 75 in
  durationMinutes (Text "100:00") (Text ":75:30")
  = Done (Num (if a <? d then a + 24 * 60 - d else a - d))
  /\ (d <= a + 24 * 60 ->
      calculateDuration (Text "100:00") (Text ":75:30")
      = Done (durationText (if a <? d then a + 24 * 60 - d else a - d)))
  /\ (a + 24 * 60 < d ->
      exists n, durationMinutes (Text "100:00") (Text ":75:30") = Done (Num n)
                /\ n < 0).
Proof.
  apply (duration_of_unchecked_fields "100:00" ":75:30" 100 0 0 75); reflexivity.
Defined.

(** ** Durations between clock times, together *)

(** X9: between two different clock times, the duration one way and the
    duration back add up to one day, 1440 minutes. *)
Theorem duration_there_and_back (departure arrival : string) (dm am : Z) :
  minuteOfDay departure = Some dm -> minuteOfDay arrival = Some am ->
  dm <> am ->
  exists there back,
    durationMinutes (Text departure) (Text arrival) = Done (Num there)
    /\ durationMinutes (Text arrival) (Text departure) = Done (Num back)
    /\ there + back = 1440 /\ 0 < there /\ 0 < back.
Proof.
  intros Hd Ha Hne.
  pose proof (minuteOfDay_range _ _ Hd). pose proof (minuteOfDay_range _ _ Ha).
  exists ((am - dm) mod 1440), ((dm - am) mod 1440).
  rewrite (durationMinutes_clock _ _ _ _ Hd Ha), (durationMinutes_clock _ _ _ _ Ha Hd).
  split; [reflexivity | split; [reflexivity | ]].
  destruct (Z_lt_le_dec am dm).
  - rewrite <- (Z.mod_unique (am - dm) 1440 (-1) (am + 1440 - dm)) by lia.
    rewrite <- (Z.mod_unique (dm - am) 1440 0 (dm - am)) by lia. lia.
  - rewrite <- (Z.mod_unique (am - dm) 1440 0 (am - dm)) by lia.
    rewrite <- (Z.mod_unique (dm - am) 1440 (-1) (dm + 1440 - am)) by lia. lia.
Qed.

Lemma duration_there_and_back_witness :
  exists there back,
    durationMinutes (Text "23:50") (Text "00:10") = Done (Num there)
    /\ durationMinutes (Text "00:10") (Text "23:50") = Done (Num back)
    /\ there + back = 1440 /\ 0 < there /\ 0 < back.
Proof.
  apply (duration_there_and_back "23:50" "00:10" 1430 10);
    [reflexivity | reflexivity | lia].
Defined.

(** X10: durations chain around the day: from a first clock time to a
    third, the duration is the sum of the durations by way of a second,
    modulo 1440, and the sum itself when that is less than a day. *)
Theorem duration_chain (first second third : string) (m1 m2 m3 : Z) :
  minuteOfDay first = Some m1 -> minuteOfDay second = Some m2 ->
  minuteOfDay third = Some m3 ->
  exists x y z,
    durationMinutes (Text first) (Text second) = Done (Num x)
    /\ durationMinutes (Text second) (Text third) = Done (Num y)
    /\ durationMinutes (Text first) (Text third) = Done (Num z)
    /\ z = (x + y) mod 1440
    /\ (x + y < 1440 -> z = x + y).
Proof.
  intros H1 H2 H3.
  exists ((m2 - m1) mod 1440), ((m3 - m2) mod 1440), ((m3 - m1) mod 1440).
  rewrite (durationMinutes_clock _ _ _ _ H1 H2), (durationMinutes_clock _ _ _ _ H2 H3),
          (durationMinutes_clock _ _ _ _ H1 H3).
  assert (E : (m3 - m1) mod 1440
              = ((m2 - m1) mod 1440 + (m3 - m2) mod 1440) mod 1440).
  { rewrite <- Zplus_mod. f_equal. lia. }
  repeat split; trivial.
  intros Hlt. rewrite E. apply Z.mod_small.
  pose proof (Z.mod_pos_bound (m2 - m1) 1440).
  pose proof (Z.mod_pos_bound (m3 - m2) 1440). lia.
Qed.

Lemma duration_chain_witness :
  exists x y z,
    durationMinutes (Text "23:50") (Text "00:10") = Done (Num x)
    /\ durationMinutes (Text "00:10") (Text "9:05") = Done (Num y)
    /\ durationMinutes (Text "23:50") (Text "9:05") = Done (Num z)
    /\ z = (x + y) mod 1440
    /\ (x + y < 1440 -> z = x + y).
Proof.
  apply (duration_chain "23:50" "00:10" "9:05" 1430 10 545); reflexivity.
Defined.

(** ** The text of a duration *)

Lemma distinctStrings_NoDup (l : list string) :
  distinctStrings l = true -> NoDup l.
Proof.
  induction l as [|x l IH]; simpl; [constructor | ].
  rewrite andb_true_iff, negb_true_iff. intros [Hx Hl].
  constructor; [ | now apply IH].
  intros Hin. apply (existsb_eqb String.eqb String.eqb_eq) in Hin. congruence.
Qed.

Lemma NoDup_map_injective {A B : Type} (f : A -> B) (l : list A) (x y : A) :
  NoDup (map f l) -> In x l -> In y l -> f x = f y -> x = y.
Proof.
  induction l as [|a l IH]; simpl; [contradiction | ].
  intros Hnd Hx Hy E. inversion_clear Hnd as [|? ? Hnot Hrest].
  destruct Hx as [-> | Hx], Hy as [-> | Hy]; trivial.
  - exfalso. apply Hnot. rewrite E. now apply in_map.
  - exfalso. apply Hnot. rewrite <- E. now apply in_map.
  - now apply IH.
Qed.

Lemma durationText_injective (d d' : Z) :
  0 <= d < 1440 -> 0 <= d' < 1440 -> durationText d = durationText d' -> d = d'.
Proof.
  intros Hd Hd' E.
  assert (Hnd : NoDup (map (fun n => durationText (Z.of_nat n)) (seq 0 1440))).
  { apply distinctStrings_NoDup. vm_compute. reflexivity. }
  assert (Z.to_nat d = Z.to_nat d').
  { apply (NoDup_map_injective _ _ _ _ Hnd).
    - apply in_seq. lia.
    - apply in_seq. lia.
    - now rewrite !Z2Nat.id by lia. }
  lia.
Qed.

(** X11: between clock times the text tells the duration: two pairs of
    times with the same text are the same number of minutes apart. *)
Theorem text_determines_duration (departure arrival departure' arrival' : string)
        (dm am dm' am' : Z) :
  minuteOfDay departure = Some dm -> minuteOfDay arrival = Some am ->
  minuteOfDay departure' = Some dm' -> minuteOfDay arrival' = Some am' ->
  calculateDuration (Text departure) (Text arrival)
  = calculateDuration (Text departure') (Text arrival') ->
  durationMinutes (Text departure) (Text arrival)
  = durationMinutes (Text departure') (Text arrival').
Proof.
  intros Hd Ha Hd' Ha' E.
  rewrite (calculateDuration_clock _ _ _ _ Hd Ha),
          (calculateDuration_clock _ _ _ _ Hd' Ha') in E.
  injection E as E.
  rewrite (durationMinutes_clock _ _ _ _ Hd Ha), (durationMinutes_clock _ _ _ _ Hd' Ha').
  do 2 f_equal. apply durationText_injective; trivial; apply Z.mod_pos_bound; lia.
Qed.

Lemma text_determines_duration_witness :
  durationMinutes (Text "23:50") (Text "00:10")
  = durationMinutes (Text "08:00") (Text "8:20").
Proof.
  apply (text_determines_duration "23:50" "00:10" "08:00" "8:20" 1430 10 480 500);
    reflexivity.
Defined.

(** * The duration of a bus trip, on the island page *)

Lemma diffMinutes_clock (departure arrival : string) (dm am : Z) :
  minuteOfDay departure = Some dm -> minuteOfDay arrival = Some am ->
  IslandDetail.diffMinutes (Text departure) (Text arrival) = Done (Num (am - dm)).
Proof.
  intros Hd Ha.
  destruct (hourAndMinute_clock _ _ Hd) as (dh & dmin & Ed & -> & ? & ?).
  destruct (hourAndMinute_clock _ _ Ha) as (ah & amin & Ea & -> & ? & ?).
  unfold IslandDetail.diffMinutes. rewrite Ed, Ea. cbn [bind fst snd].
  unfold times, plus, minus, arith.
  do 5 exact_now. reflexivity.
Qed.

Lemma busFormat_nonneg (d : Z) :
  0 <= d < maxExact ->
  (hours <- floorDiv (Num d) (Num 60) ;;
   minutes <- remainder (Num d) (Num 60) ;;
   if lessThan (Num 0) hours
   then Done (toString hours ++ "小时" ++ toString minutes ++ "分钟")
   else Done (toString minutes ++ "分钟"))
  = Done (IslandDetail.durationText d).
Proof.
  intros Hd. unfold floorDiv, remainder, arith, IslandDetail.durationText.
  assert (0 <= d / 60 <= d).
  { split; [apply Z.div_pos; lia | ].
    apply Z.div_le_upper_bound; lia. }
  assert (0 <= d mod 60 < 60) by (apply Z.mod_pos_bound; lia).
  rewrite Z.rem_mod_nonneg by lia.
  unfold maxExact in Hd. simpl in Hd.
  do 2 exact_now.
  now destruct (0 <? d / 60).
Qed.

(** X12: the island page has a [calculateDuration] of its own, which adds
    no day.  Between clock times it gives the text of arrival minus
    departure when the arrival is not earlier, the same number of minutes
    as the ferry pages compute, and the empty text when the arrival is
    earlier on the clock, where the ferry pages count a night. *)
Theorem bus_duration_same_day_only (departure arrival : string) (dm am : Z) :
  minuteOfDay departure = Some dm -> minuteOfDay arrival = Some am ->
  (dm <= am ->
   IslandDetail.calculateDuration (Text departure) (Text arrival)
   = Done (IslandDetail.durationText (am - dm))
   /\ durationMinutes (Text departure) (Text arrival) = Done (Num (am - dm)))
  /\ (am < dm ->
      IslandDetail.calculateDuration (Text departure) (Text arrival) = Done ""
      /\ durationMinutes (Text departure) (Text arrival)
         = Done (Num (am + 24 * 60 - dm))).
Proof.
  intros Hd Ha.
  pose proof (minuteOfDay_range _ _ Hd). pose proof (minuteOfDay_range _ _ Ha).
  pose proof (diffMinutes_clock _ _ _ _ Hd Ha) as Ediff.
  pose proof (durationMinutes_clock _ _ _ _ Hd Ha) as Edur.
  split; intros Hord.
  - split.
    + unfold IslandDetail.calculateDuration. rewrite Ediff. cbn [bind lessThan].
      destruct (Z.ltb_spec (am - dm) 0) as [Hneg | _]; [lia | ].
      rewrite busFormat_nonneg by (unfold maxExact; simpl; lia). reflexivity.
    + rewrite Edur. do 2 f_equal. symmetry.
      apply Z.mod_unique with (q := 0); lia.
  - split.
    + unfold IslandDetail.calculateDuration. rewrite Ediff. cbn [bind lessThan].
      destruct (Z.ltb_spec (am - dm) 0) as [_ | Hpos]; [reflexivity | lia].
    + rewrite Edur. do 2 f_equal. symmetry.
      apply Z.mod_unique with (q := -1); lia.
Qed.

Lemma bus_duration_same_day_only_witness :
  (1430 <= 10 ->
   IslandDetail.calculateDuration (Text "23:50") (Text "00:10")
   = Done (IslandDetail.durationText (10 - 1430))
   /\ durationMinutes (Text "23:50") (Text "00:10") = Done (Num (10 - 1430)))
  /\ (10 < 1430 ->
      IslandDetail.calculateDuration (Text "23:50") (Text "00:10") = Done ""
      /\ durationMinutes (Text "23:50") (Text "00:10")
         = Done (Num (10 + 24 * 60 - 1430))).
Proof.
  apply (bus_duration_same_day_only "23:50" "00:10" 1430 10); reflexivity.
Defined.

Lemma busCalculateDuration_not_Throw (departureTime arrivalTime : jsvalue) :
  IslandDetail.calculateDuration departureTime arrivalTime <> Throw.
Proof.
  unfold IslandDetail.calculateDuration, tryCatch.
  match goal with |- match ?b with _ => _ end <> _ => destruct b end; discriminate.
Qed.

(** The duration cell of a bus row is empty when the departure or the
    arrival time is missing or empty, without a call of
    [calculateDuration]; with both times present it is what
    [calculateDuration] gives for them, which is never an exception. *)
Lemma bus_duration_cell (departure_time arrival_time : option string) :
  (truthy departure_time = false \/ truthy arrival_time = false ->
   IslandDetail.durationCell departure_time arrival_time = Done "")
  /\ (forall d a, departure_time = Some d -> arrival_time = Some a ->
                  d <> "" -> a <> "" ->
                  IslandDetail.durationCell departure_time arrival_time
                  = IslandDetail.calculateDuration (Text d) (Text a))
  /\ IslandDetail.durationCell departure_time arrival_time <> Throw.
Proof.
  split; [ | split].
  - unfold IslandDetail.durationCell.
    destruct departure_time as [d|], arrival_time as [a|]; trivial.
    intros [H | H]; rewrite H; [reflexivity | now rewrite andb_false_r].
  - intros d a -> -> Hd Ha. unfold IslandDetail.durationCell, truthy.
    apply String.eqb_neq in Hd, Ha. now rewrite Hd, Ha.
  - unfold IslandDetail.durationCell.
    destruct departure_time as [d|], arrival_time as [a|]; try discriminate.
    destruct (truthy (Some d) && truthy (Some a)); [ | discriminate].
    apply busCalculateDuration_not_Throw.
Qed.

(** * The route group card *)

Lemma StronglySorted_app_cross {A : Type} (R : A -> A -> Prop) (l1 l2 : list A) :
  StronglySorted R (l1 ++ l2) ->
  forall x y, In x l1 -> In y l2 -> R x y.
Proof.
  induction l1 as [|a l1 IH]; simpl; intros Hs x y Hx Hy; [contradiction | ].
  inversion_clear Hs as [|? ? Hrest Ha].
  destruct Hx as [<- | Hx].
  - rewrite Forall_forall in Ha. apply Ha. apply in_or_app. now right.
  - now apply IH.
Qed.

(** X13: the collapsed card previews the first three schedules of the
    group and counts the others: the preview followed by the rest is the
    list of schedules, the count is shown when more than three exist and
    is their number less three, and when the departure times of the input
    are written [HH:MM] no schedule left out of the preview leaves before
    one that is in it. *)
Theorem preview_shows_earliest (localeCompare : string -> string -> Z)
        (routes : list FerryRoute) :
  digitOrder localeCompare ->
  Forall (fun r => zeroPadded (departure_time r) = true) routes ->
  Forall (fun g =>
            (previewSchedules g ++ skipn 3 (schedules g))%list = schedules g
            /\ List.length (previewSchedules g)
               = Nat.min 3 (List.length (schedules g))
            /\ (forall s s', In s (previewSchedules g) ->
                             In s' (skipn 3 (schedules g)) ->
                             departsNoLater s s')
            /\ (moreSchedules g = None <-> (List.length (schedules g) <= 3)%nat)
            /\ (forall n, moreSchedules g = Some n ->
                          (3 + n = List.length (schedules g))%nat
                          /\ n = List.length (skipn 3 (schedules g))))
         (groupRoutesByPath localeCompare routes).
Proof.
  intros Hlc Hpad.
  pose proof (sorted_when_padded localeCompare routes Hlc Hpad) as Hsorted.
  unfold sortedByDeparture in Hsorted. rewrite Forall_forall in Hsorted.
  apply Forall_forall. intros g Hg. specialize (Hsorted g Hg).
  unfold previewSchedules, moreSchedules.
  split; [apply firstn_skipn | ].
  split; [apply length_firstn | ].
  split.
  - apply StronglySorted_app_cross. now rewrite firstn_skipn.
  - split.
    + destruct (Nat.ltb_spec 3 (List.length (schedules g))); split;
        intros; try discriminate; try reflexivity; lia.
    + intros n. rewrite length_skipn.
      destruct (Nat.ltb_spec 3 (List.length (schedules g)));
        intros [= <-]. lia.
Qed.

Lemma preview_shows_earliest_witness :
  Forall (fun g =>
            (previewSchedules g ++ skipn 3 (schedules g))%list = schedules g
            /\ List.length (previewSchedules g)
               = Nat.min 3 (List.length (schedules g))
            /\ (forall s s', In s (previewSchedules g) ->
                             In s' (skipn 3 (schedules g)) ->
                             departsNoLater s s')
            /\ (moreSchedules g = None <-> (List.length (schedules g) <= 3)%nat)
            /\ (forall n, moreSchedules g = Some n ->
                          (3 + n = List.length (schedules g))%nat
                          /\ n = List.length (skipn 3 (schedules g))))
         (groupRoutesByPath codeUnitCompare
            [night; midmorning; morning; rival; hyphenLeft; night]).
Proof.
  apply (preview_shows_earliest codeUnitCompare
           [night; midmorning; morning; rival; hyphenLeft; night]
           codeUnitCompare_digitOrder).
  repeat constructor.
Defined.

(** ** The notes of a group *)

Lemma noteEqb_eq (a b : option string) : noteEqb a b = true <-> a = b.
Proof.
  destruct a as [x|], b as [y|]; simpl; try (split; congruence).
  rewrite String.eqb_eq. split; congruence.
Qed.

Lemma ofArray_firstSeen {A : Type} (eqb : A -> A -> bool) (l : list A) :
  (forall x y, eqb x y = true <-> x = y) ->
  JSSet.ofArray eqb l = firstSeen eqb l.
Proof.
  intros Heq. unfold JSSet.ofArray.
  induction l as [|x l IH] using rev_ind; [reflexivity | ].
  rewrite fold_left_app. simpl. rewrite IH, (firstSeen_snoc eqb).
  unfold JSSet.add. now rewrite (existsb_firstSeen eqb Heq).
Qed.

(** X14: the notes block of a card lists each note of the group once, in
    the order in which the schedules first show it; what it lists are the
    notes that are present and not empty; and the block is rendered
    exactly when it has a line. *)
Theorem note_lines_are_distinct_notes (routeGroup : RouteGroup) :
  NoDup (noteLines routeGroup)
  /\ (forall n, In n (noteLines routeGroup)
                <-> truthy n = true
                    /\ exists s, In s (schedules routeGroup) /\ notes s = n)
  /\ (notesShown routeGroup = true <-> noteLines routeGroup <> [])
  /\ noteLines routeGroup
     = firstSeen noteEqb
         (map notes (filter (fun s => truthy (notes s)) (schedules routeGroup))).
Proof.
  assert (E : noteLines routeGroup
              = firstSeen noteEqb
                  (map notes (filter (fun s => truthy (notes s))
                                     (schedules routeGroup)))).
  { unfold noteLines, JSSet.toArray. apply ofArray_firstSeen, noteEqb_eq. }
  assert (Hin : forall n, In n (noteLines routeGroup)
                          <-> truthy n = true
                              /\ exists s, In s (schedules routeGroup) /\ notes s = n).
  { intros n. rewrite E, (firstSeen_In noteEqb noteEqb_eq), in_map_iff. split.
    - intros (s & <- & Hs). apply filter_In in Hs as [Hs Ht]. eauto.
    - intros (Ht & s & Hs & <-). exists s. split; [reflexivity | ].
      apply filter_In. now split. }
  split; [rewrite E; apply (firstSeen_NoDup noteEqb noteEqb_eq) | ].
  split; [exact Hin | ]. split; [ | exact E].
  unfold notesShown. rewrite existsb_exists. split.
  - intros (s & Hs & Ht) Hnil.
    assert (Hn : In (notes s) (noteLines routeGroup)) by (apply Hin; eauto).
    rewrite Hnil in Hn. contradiction.
  - intros Hne. destruct (noteLines routeGroup) as [|n l] eqn:El; [congruence | ].
    assert (Hn : In n (n :: l)) by now left.
    apply (proj1 (Hin n)) in Hn. destruct Hn as (Ht & s & Hs & <-). eauto.
Qed.

(** ** The icon of a ship *)

Lemma prefix_app (n post : string) : String.prefix n (n ++ post) = true.
Proof.
  induction n as [|c n IH]; simpl; [now destruct post | ].
  destruct (ascii_dec c c); [assumption | contradiction].
Qed.

Lemma prefix_inv (n s : string) :
  String.prefix n s = true -> exists post, s = n ++ post.
Proof.
  revert s. induction n as [|c n IH]; intros s H.
  - now exists s.
  - destruct s as [|d s]; simpl in H; [discriminate | ].
    destruct (ascii_dec c d) as [-> | ]; [ | discriminate].
    destruct (IH s H) as (post & ->). now exists post.
Qed.

(** [includes] finds exactly the strings that hold the needle between a
    beginning and an end. *)
Lemma stringIncludes_spec (s needle : string) :
  stringIncludes s needle = true <-> exists pre post, s = pre ++ needle ++ post.
Proof.
  split.
  - induction s as [|c s IH]; cbn [stringIncludes].
    + rewrite orb_false_r. intros H. destruct (prefix_inv _ _ H) as (post & E).
      now exists "", post.
    + intros H. apply orb_true_iff in H as [H | H].
      * destruct (prefix_inv _ _ H) as (post & E). now exists "", post.
      * destruct (IH H) as (pre & post & ->). now exists (String c pre), post.
  - intros (pre & post & ->). induction pre as [|c pre IH].
    + change ("" ++ needle ++ post) with (needle ++ post).
      destruct (needle ++ post) eqn:E; cbn [stringIncludes];
        rewrite <- E, prefix_app; reflexivity.
    + cbn [append stringIncludes]. rewrite IH. apply orb_true_r.
Qed.

(** X15: the icon of a ship goes by what its type contains, in a fixed
    order of precedence: the ferry icon exactly for the types that hold
    フェリー somewhere, the fast boat icon exactly for those that hold 高速船
    and not フェリー, the passenger boat icon exactly for those that hold
    旅客船 and neither of the two, and the plain ship for all others. *)
Theorem ship_icon_by_substring (shipType : string) :
  let holds needle := exists pre post, shipType = pre ++ needle ++ post in
  (getShipIcon shipType = "⛴️" <-> holds "フェリー")
  /\ (getShipIcon shipType = "🚤" <-> ~ holds "フェリー" /\ holds "高速船")
  /\ (getShipIcon shipType = "🛥️"
      <-> ~ holds "フェリー" /\ ~ holds "高速船" /\ holds "旅客船")
  /\ (getShipIcon shipType = "🚢"
      <-> ~ holds "フェリー" /\ ~ holds "高速船" /\ ~ holds "旅客船").
Proof.
  intros holds. unfold holds, getShipIcon.
  rewrite <- !stringIncludes_spec.
  destruct (stringIncludes shipType "フェリー");
    destruct (stringIncludes shipType "高速船");
    destruct (stringIncludes shipType "旅客船");
    repeat split; intros; try discriminate; try reflexivity;
    repeat match goal with
           | H : _ /\ _ |- _ => destruct H
           end; congruence.
Qed.

(** * The table of islands *)

Lemma orString_not_empty (a : option string) (d : string) :
  d <> "" -> orString a d <> "".
Proof.
  intros Hd. unfold orString. destruct a as [s|]; [ | assumption].
  destruct (String.eqb_spec s ""); assumption.
Qed.

Lemma findIsland_unknown (islandName : string) :
  ~ In islandName (map value ISLANDS) -> findIsland islandName = None.
Proof.
  intros Hnot. unfold findIsland.
  destruct (find _ ISLANDS) as [i|] eqn:E; [ | reflexivity].
  apply find_some in E as [Hin Heq]. apply String.eqb_eq in Heq.
  exfalso. apply Hnot. rewrite <- Heq. now apply in_map.
Qed.

(** X16: [getIslandIcon] never returns an empty text.  A name that is not
    in the table gets the icon 🏝️ and the empty description; every island
    of the table gets its own icon and its own description. *)
Theorem island_icon_lookup :
  (forall islandName, getIslandIcon islandName <> "")
  /\ (forall islandName,
        ~ In islandName (map value ISLANDS) ->
        getIslandIcon islandName = "🏝️" /\ getIslandDescription islandName = "")
  /\ Forall (fun island =>
               getIslandIcon (value island) = icon island
               /\ getIslandDescription (value island) = description island)
            ISLANDS.
Proof.
  split; [ | split].
  - intros islandName. apply orString_not_empty. discriminate.
  - intros islandName Hnot. unfold getIslandIcon, getIslandDescription.
    now rewrite (findIsland_unknown _ Hnot).
  - repeat constructor.
Qed.

(** * The island select *)

Lemma filter_filter_comm {A : Type} (p q : A -> bool) (l : list A) :
  filter p (filter q l) = filter q (filter p l).
Proof.
  induction l as [|a l IH]; simpl; [reflexivity | ].
  destruct (p a) eqn:Ep, (q a) eqn:Eq; simpl; rewrite ?Ep, ?Eq, IH; reflexivity.
Qed.

Lemma block_options (t : string) (l : list IslandOption) :
  match (if (List.length l =? 0)%nat then None else Some (t, l)) with
  | Some b => snd b
  | None => []
  end = l.
Proof. now destruct l. Qed.

Lemma groups_cover_the_table (p : IslandOption -> bool) :
  flat_map (fun entry =>
              filter (fun island => includes (islands (snd entry)) (value island))
                     (filter p ISLANDS))
           ISLAND_GROUPS
  = filter p ISLANDS.
Proof.
  unfold ISLAND_GROUPS. cbn [flat_map snd islands].
  rewrite !(filter_filter_comm _ p), app_nil_r, <- !filter_app.
  reflexivity.
Qed.

(** X17: whatever is typed in the search box, the select lists under its
    group titles exactly the options that match, each once and in the
    order of the table; it renders no group without an option, and no
    group at all exactly when nothing matches. *)
Theorem select_lists_the_matches (toLowerCase : string -> string)
        (searchTerm : string) :
  renderedOptions toLowerCase searchTerm = filteredIslands toLowerCase searchTerm
  /\ Forall (fun block => match block with
                          | Some b => snd b <> []
                          | None => True
                          end)
            (renderIslandsByGroup toLowerCase searchTerm)
  /\ (filteredIslands toLowerCase searchTerm = []
      <-> Forall (fun block => block = None)
                 (renderIslandsByGroup toLowerCase searchTerm)).
Proof.
  assert (E : renderedOptions toLowerCase searchTerm
              = filteredIslands toLowerCase searchTerm).
  { unfold renderedOptions, renderIslandsByGroup.
    rewrite flat_map_concat_map, map_map, <- flat_map_concat_map.
    erewrite flat_map_ext by (intros entry; apply block_options).
    apply groups_cover_the_table. }
  split; [exact E | split].
  - unfold renderIslandsByGroup. apply Forall_forall. intros block Hb.
    apply in_map_iff in Hb as (entry & <- & _).
    destruct (filter _ (filteredIslands toLowerCase searchTerm)); simpl;
      [trivial | discriminate].
  - rewrite <- E. unfold renderedOptions. split.
    + intros Hnil. apply Forall_forall. intros [b|] Hb; [ | reflexivity].
      exfalso.
      assert (Hsub : forall o, In o (snd b) -> False).
      { intros o Ho.
        assert (Hin : In o (flat_map (fun block => match block with
                                                   | Some b0 => snd b0
                                                   | None => []
                                                   end)
                                     (renderIslandsByGroup toLowerCase searchTerm))).
        { apply in_flat_map. exists (Some b). split; assumption. }
        rewrite Hnil in Hin. contradiction. }
      unfold renderIslandsByGroup in Hb. apply in_map_iff in Hb as (entry & Hb & _).
      destruct (filter _ (filteredIslands toLowerCase searchTerm)) as [|o l];
        simpl in Hb; [discriminate | ].
      injection Hb as <-. apply (Hsub o). now left.
    + intros Hall. rewrite Forall_forall in Hall.
      induction (renderIslandsByGroup toLowerCase searchTerm) as [|b l IH];
        [reflexivity | ].
      simpl. rewrite (Hall b (or_introl eq_refl)). simpl.
      apply IH. intros x Hx. apply Hall. now right.
Qed.

(** * Objects of parameters *)

Lemma obj_get_set_same (o : Obj.t) (k : string) (v : paramValue) :
  Obj.get (Obj.set o k v) k = Some v.
Proof.
  induction o as [|[k' v'] o IH]; simpl.
  - now rewrite String.eqb_refl.
  - destruct (String.eqb k' k) eqn:E; simpl.
    + now rewrite String.eqb_refl.
    + now rewrite E.
Qed.

Lemma obj_get_set_other (o : Obj.t) (k k' : string) (v : paramValue) :
  k' <> k -> Obj.get (Obj.set o k v) k' = Obj.get o k'.
Proof.
  intros Hne. induction o as [|[a w] o IH]; simpl.
  - apply String.eqb_neq in Hne. now rewrite String.eqb_sym, Hne.
  - destruct (String.eqb_spec a k) as [-> | Ha]; simpl.
    + apply String.eqb_neq in Hne. now rewrite String.eqb_sym, Hne.
    + now rewrite IH.
Qed.

Lemma obj_keys_set (o : Obj.t) (k : string) (v : paramValue) :
  Obj.keys (Obj.set o k v)
  = if existsb (String.eqb k) (Obj.keys o) then Obj.keys o
    else (Obj.keys o ++ [k])%list.
Proof.
  unfold Obj.keys. induction o as [|[a w] o IH]; simpl; [reflexivity | ].
  rewrite (String.eqb_sym k a).
  destruct (String.eqb_spec a k) as [-> | Ha]; simpl; [reflexivity | ].
  rewrite IH. now destruct (existsb (String.eqb k) (map fst o)).
Qed.

Lemma obj_set_NoDup (o : Obj.t) (k : string) (v : paramValue) :
  NoDup (Obj.keys o) -> NoDup (Obj.keys (Obj.set o k v)).
Proof.
  intros Hnd. rewrite obj_keys_set.
  destruct (existsb (String.eqb k) (Obj.keys o)) eqn:E; [assumption | ].
  apply NoDup_app_remove_l with (l := []). simpl.
  apply Permutation_NoDup with (k :: Obj.keys o).
  - apply Permutation_cons_append.
  - constructor; [ | assumption].
    rewrite <- (existsb_eqb String.eqb String.eqb_eq). congruence.
Qed.

Lemma obj_set_absent (o : Obj.t) (k : string) (v : paramValue) :
  ~ In k (Obj.keys o) -> Obj.set o k v = (o ++ [(k, v)])%list.
Proof.
  induction o as [|[a w] o IH]; simpl; intros Hnot; [reflexivity | ].
  destruct (String.eqb_spec a k) as [-> | Ha]; [tauto | ].
  rewrite IH; [reflexivity | tauto].
Qed.

Lemma obj_get_filter (p : paramValue -> bool) (o : Obj.t) (k : string) :
  NoDup (Obj.keys o) ->
  Obj.get (filter (fun e => p (snd e)) o) k
  = match Obj.get o k with
    | Some v => if p v then Some v else None
    | None => None
    end.
Proof.
  induction o as [|[a w] o IH]; simpl; intros Hnd; [reflexivity | ].
  inversion_clear Hnd as [|? ? Ha Hrest].
  destruct (String.eqb_spec a k) as [-> | Hne].
  - destruct (p w) eqn:Ep; simpl.
    + now rewrite String.eqb_refl.
    + rewrite (IH Hrest).
      assert (Hnone : Obj.get o k = None).
      { clear -Ha. induction o as [|[b u] o IHo]; simpl in *; [reflexivity | ].
        destruct (String.eqb_spec b k) as [-> | _]; [tauto | ]. apply IHo. tauto. }
      now rewrite Hnone.
  - destruct (p w); simpl; [ | now apply IH].
    apply String.eqb_neq in Hne. rewrite Hne. now apply IH.
Qed.

(** * The search form *)

Lemma handleSubmit_filter (formData : Obj.t) :
  NoDup (Obj.keys formData) ->
  SearchForm.handleSubmit formData
  = filter (fun e => SearchForm.kept (snd e)) formData.
Proof.
  unfold SearchForm.handleSubmit.
  induction formData as [|[k v] formData IH] using rev_ind; intros Hnd;
    [reflexivity | ].
  unfold Obj.keys in Hnd. rewrite map_app in Hnd. simpl in Hnd.
  assert (Hk : ~ In k (Obj.keys formData)).
  { apply NoDup_remove_2 in Hnd. now rewrite app_nil_r in Hnd. }
  assert (Hnd' : NoDup (Obj.keys formData)).
  { apply NoDup_remove_1 in Hnd. now rewrite app_nil_r in Hnd. }
  rewrite fold_left_app, filter_app. simpl. rewrite (IH Hnd').
  destruct (SearchForm.kept v); [ | now rewrite app_nil_r].
  apply obj_set_absent. intros Hin. apply Hk.
  unfold Obj.keys in *. apply in_map_iff in Hin as (e & <- & He).
  apply filter_In in He as [He _]. now apply in_map.
Qed.

(** X18: from a form whose fields are distinct, [handleSubmit] passes on
    the fields that hold something, in the order of the form, and drops
    those that are empty text or [undefined]: no parameter it sends is
    empty.  After a change of a field, the field is sent with its new
    value, or not at all when the new value is empty, and the other
    parameters are sent as before; a change keeps the fields distinct. *)
Theorem search_form_sends_what_is_filled (formData : Obj.t) :
  NoDup (Obj.keys formData) ->
  SearchForm.handleSubmit formData
  = filter (fun e => SearchForm.kept (snd e)) formData
  /\ (forall k, Obj.get (SearchForm.handleSubmit formData) k <> Some (PText "")
                /\ Obj.get (SearchForm.handleSubmit formData) k <> Some PUndefined)
  /\ (forall field v,
        NoDup (Obj.keys (SearchForm.handleInputChange formData field v))
        /\ Obj.get (SearchForm.handleSubmit
                      (SearchForm.handleInputChange formData field v)) field
           = (if SearchForm.kept v then Some v else None)
        /\ forall k, k <> field ->
                     Obj.get (SearchForm.handleSubmit
                                (SearchForm.handleInputChange formData field v)) k
                     = Obj.get (SearchForm.handleSubmit formData) k).
Proof.
  intros Hnd. split; [now apply handleSubmit_filter | split].
  - intros k. rewrite (handleSubmit_filter _ Hnd), (obj_get_filter _ _ _ Hnd).
    destruct (Obj.get formData k) as [[ | s | n | b]|]; simpl;
      try (split; discriminate).
    destruct (String.eqb_spec s "") as [-> | Hs]; simpl; split; congruence.
  - intros field v. unfold SearchForm.handleInputChange.
    pose proof (obj_set_NoDup formData field v Hnd) as Hnd'.
    split; [exact Hnd' | ].
    rewrite (handleSubmit_filter _ Hnd'), (handleSubmit_filter _ Hnd). split.
    + now rewrite (obj_get_filter _ _ _ Hnd'), obj_get_set_same.
    + intros k Hk.
      rewrite (obj_get_filter _ _ _ Hnd'), (obj_get_filter _ _ _ Hnd).
      now rewrite obj_get_set_other.
Qed.

Lemma search_form_sends_what_is_filled_witness :
  SearchForm.handleSubmit SearchForm.initialFormData
  = filter (fun e => SearchForm.kept (snd e)) SearchForm.initialFormData
  /\ (forall k, Obj.get (SearchForm.handleSubmit SearchForm.initialFormData) k
                <> Some (PText "")
                /\ Obj.get (SearchForm.handleSubmit SearchForm.initialFormData) k
                   <> Some PUndefined)
  /\ (forall field v,
        NoDup (Obj.keys (SearchForm.handleInputChange
                           SearchForm.initialFormData field v))
        /\ Obj.get (SearchForm.handleSubmit
                      (SearchForm.handleInputChange
                         SearchForm.initialFormData field v)) field
           = (if SearchForm.kept v then Some v else None)
        /\ forall k, k <> field ->
                     Obj.get (SearchForm.handleSubmit
                                (SearchForm.handleInputChange
                                   SearchForm.initialFormData field v)) k
                     = Obj.get (SearchForm.handleSubmit
                                  SearchForm.initialFormData) k).
Proof.
  apply (search_form_sends_what_is_filled SearchForm.initialFormData).
  unfold Obj.keys. simpl.
  repeat constructor; simpl; intuition discriminate.
Defined.

(** The form as it starts, or after a reset, sends the page and the limit
    alone. *)
Example fresh_form_sends_page_and_limit :
  SearchForm.handleSubmit (SearchForm.handleReset [("departure", PText "高松")])
  = [("page", PNumber 1); ("limit", PNumber 20)].
Proof. reflexivity. Qed.

(** * The pages of results *)

Lemma ceilDiv_spec (a b : Z) :
  0 < b -> (Home.ceilDiv a b - 1) * b < a <= Home.ceilDiv a b * b.
Proof.
  intros Hb. unfold Home.ceilDiv.
  pose proof (Z.div_mod (- a) b ltac:(lia)).
  pose proof (Z.mod_pos_bound (- a) b Hb). nia.
Qed.

Lemma orNumber_not_zero (x : option Z) (d : Z) : d <> 0 -> Home.orNumber x d <> 0.
Proof.
  intros Hd. unfold Home.orNumber. destruct x as [[| |]|]; try assumption; discriminate.
Qed.

(** X19: the state set from a response never has a limit or a page of 0:
    what is absent or 0 is replaced by 20 and by 1, so the number of pages
    is a quotient by a number other than zero.  With a limit above 0 and
    the pager on screen (more results than the limit, a count a double
    holds exactly), there are at least
    two pages; on a page between the first and the last, and while
    nothing loads, "previous" is off exactly on the first page, "next" is
    off exactly on the last, one of the two is on, and "next" asks for a
    page that exists. *)
Theorem pager_buttons (response : Home.SearchResponse) :
  let p := Home.paginationOf response in
  let pages := Home.ceilDiv (Home.total p) (Home.limit p) in
  Home.limit p <> 0 /\ Home.page p <> 0
  /\ (0 < Home.limit p -> Home.total p < maxExact -> Home.pagerShown p = true ->
      (pages - 1) * Home.limit p < Home.total p <= pages * Home.limit p
      /\ 2 <= pages
      /\ (1 <= Home.page p <= pages ->
          (Home.previousDisabled p false = true <-> Home.page p = 1)
          /\ (Home.nextDisabled p false = true <-> Home.page p = pages)
          /\ (Home.previousDisabled p false = false
              \/ Home.nextDisabled p false = false)
          /\ (Home.nextDisabled p false = false -> Home.page p + 1 <= pages)
          /\ (Home.previousDisabled p false = false -> 1 <= Home.page p - 1))
      /\ Home.previousDisabled p true = true /\ Home.nextDisabled p true = true).
Proof.
  intros p pages.
  assert (Hl : Home.limit p <> 0) by (apply orNumber_not_zero; discriminate).
  split; [exact Hl | split].
  { apply orNumber_not_zero. discriminate. }
  intros Hpos _ Hshown. unfold Home.pagerShown in Hshown. apply Z.ltb_lt in Hshown.
  pose proof (ceilDiv_spec (Home.total p) (Home.limit p) Hpos) as Hceil.
  fold pages in Hceil.
  assert (Hpages : 2 <= pages) by nia.
  split; [exact Hceil | split; [exact Hpages | split]].
  - intros Hrange.
    unfold Home.previousDisabled, Home.nextDisabled.
    rewrite !orb_false_r.
    destruct (Z.eqb_spec (Home.limit p) 0) as [E | _]; [contradiction | ].
    fold pages.
    destruct (Z.leb_spec (Home.page p) 1), (Z.leb_spec pages (Home.page p));
      repeat split; intros; try discriminate; try lia; auto.
  - unfold Home.previousDisabled, Home.nextDisabled.
    now rewrite !orb_true_r.
Qed.

(** X20: asking for another page keeps the search: the parameters sent
    have the new page, every other parameter as it was, and the same
    fields. *)
Theorem page_change_keeps_the_search (currentSearchParams : Obj.t) (newPage : Z) :
  Obj.get (Home.handlePageChange currentSearchParams newPage) "page"
  = Some (PNumber newPage)
  /\ (forall k, k <> "page" ->
                Obj.get (Home.handlePageChange currentSearchParams newPage) k
                = Obj.get currentSearchParams k)
  /\ (In "page" (Obj.keys currentSearchParams) ->
      Obj.keys (Home.handlePageChange currentSearchParams newPage)
      = Obj.keys currentSearchParams)
  /\ (NoDup (Obj.keys currentSearchParams) ->
      NoDup (Obj.keys (Home.handlePageChange currentSearchParams newPage))).
Proof.
  unfold Home.handlePageChange. repeat split.
  - apply obj_get_set_same.
  - intros k Hk. now apply obj_get_set_other.
  - intros Hin. rewrite obj_keys_set.
    apply (existsb_eqb String.eqb String.eqb_eq) in Hin. now rewrite Hin.
  - apply obj_set_NoDup.
Qed.

(** * Inputs side by side *)

Lemma filter_filter_and {A : Type} (p q : A -> bool) (l : list A) :
  filter p (filter q l) = filter (fun x => p x && q x) l.
Proof.
  induction l as [|a l IH]; simpl; [reflexivity | ].
  destruct (q a) eqn:Eq; simpl; rewrite ?andb_false_r, ?andb_true_r, IH;
    [ | reflexivity].
  now destruct (p a).
Qed.

Lemma firstSeen_app {A : Type} (eqb : A -> A -> bool) (l1 l2 : list A) :
  (forall x y, eqb x y = eqb y x) ->
  firstSeen eqb (l1 ++ l2)
  = (firstSeen eqb l1
     ++ filter (fun y => negb (existsb (eqb y) l1)) (firstSeen eqb l2))%list.
Proof.
  intros Hsym. induction l1 as [|a l1 IH]; simpl.
  - symmetry. apply filter_all. reflexivity.
  - rewrite IH, filter_app, filter_filter_and. do 2 f_equal.
    apply filter_ext. intros y. now rewrite negb_orb.
Qed.

(** X21: two inputs that share no route key group side by side: the
    groups of the one followed by the other are the groups of the first
    followed by the groups of the second. *)
Theorem groups_of_inputs_side_by_side (localeCompare : string -> string -> Z)
        (routes1 routes2 : list FerryRoute) :
  (forall r1 r2, In r1 routes1 -> In r2 routes2 -> routeKeyOf r1 <> routeKeyOf r2) ->
  groupRoutesByPath localeCompare (routes1 ++ routes2)
  = (groupRoutesByPath localeCompare routes1
     ++ groupRoutesByPath localeCompare routes2)%list.
Proof.
  intros Hdis. rewrite !groupRoutesByPath_eq, map_app.
  rewrite (firstSeen_app String.eqb) by apply String.eqb_sym.
  assert (Hk1 : forall k, In k (map routeKeyOf routes1) -> membersOf k routes2 = []).
  { intros k Hk. apply membersOf_nil. intros Hk2.
    apply in_map_iff in Hk as (r1 & E1 & H1).
    apply in_map_iff in Hk2 as (r2 & E2 & H2).
    apply (Hdis r1 r2 H1 H2). congruence. }
  assert (Hk2 : forall k, In k (map routeKeyOf routes2) -> membersOf k routes1 = []).
  { intros k Hk. apply membersOf_nil. intros Hk1'.
    apply in_map_iff in Hk as (r2 & E2 & H2).
    apply in_map_iff in Hk1' as (r1 & E1 & H1).
    apply (Hdis r1 r2 H1 H2). congruence. }
  rewrite filter_all.
  - rewrite map_app. f_equal; apply map_ext_in; intros k Hk; f_equal;
      apply (proj1 (firstSeen_In String.eqb String.eqb_eq _ _)) in Hk;
      unfold groupOf, membersOf; rewrite filter_app.
    + fold (membersOf k routes2). rewrite (Hk1 k Hk). now rewrite app_nil_r.
    + fold (membersOf k routes1). rewrite (Hk2 k Hk). reflexivity.
  - intros k Hk. apply (proj1 (firstSeen_In String.eqb String.eqb_eq _ _)) in Hk.
    apply negb_true_iff.
    destruct (existsb (String.eqb k) (map routeKeyOf routes1)) eqn:E; [ | reflexivity].
    apply (existsb_eqb String.eqb String.eqb_eq) in E.
    apply in_map_iff in Hk as (r2 & E2 & H2).
    apply in_map_iff in E as (r1 & E1 & H1).
    exfalso. apply (Hdis r1 r2 H1 H2). congruence.
Qed.

Lemma groups_of_inputs_side_by_side_witness :
  groupRoutesByPath codeUnitCompare ([night; morning] ++ [midmorning; unpadded])
  = (groupRoutesByPath codeUnitCompare [night; morning]
     ++ groupRoutesByPath codeUnitCompare [midmorning; unpadded])%list.
Proof.
  apply (groups_of_inputs_side_by_side codeUnitCompare
           [night; morning] [midmorning; unpadded]).
  intros r1 r2 H1 H2. simpl in H1, H2.
  destruct H1 as [<- | [<- | []]], H2 as [<- | [<- | []]]; discriminate.
Defined.

(** * The operating days a card shows *)

(** X22: the operating days a card shows are never empty, and are the
    limited-period marker only on a card whose flag is set. *)
Theorem operating_days_shown (routeGroup : RouteGroup) :
  operatingDaysShown routeGroup <> ""
  /\ (operatingDaysShown routeGroup = limitedPeriodMarker ->
      isLimitedPeriod routeGroup = true)
  /\ (schedules routeGroup = [] -> operatingDaysShown routeGroup = "每日").
Proof.
  unfold operatingDaysShown. split; [ | split].
  - apply orString_not_empty. discriminate.
  - unfold isLimitedPeriod. destruct (schedules routeGroup) as [|s l]; simpl.
    + discriminate.
    + destruct (String.eqb_spec (operating_days s) "") as [_ | _];
        [discriminate | ].
      intros ->. now rewrite String.eqb_refl.
  - intros ->. reflexivity.
Qed.
